(** * s3-tests: bucket reclamation and the instrumented client

    A shallow embedding of the cleanup helpers and of the logging proxy of
    [s3tests_boto3/functional/__init__.py]:

    - [list_versions], [nuke_bucket], [get_buckets_list] and
      [nuke_prefixed_buckets] (module [Reclaim]);
    - [log_and_call] and [WrappedClient.__getattr__] (module [Proxy]);
    - [choose_bucket_prefix], [get_parameter_name],
      [configured_storage_classes], [get_new_bucket_name] and
      [get_new_bucket] (module [Fixtures]), and [teardown] (module
      [Teardown]).

    The storage client, the wall clock and [time.sleep] are external: they are
    a record of state transformers over an abstract world [W].  Every call of
    the program to one of them is recorded, with its arguments and its
    answer, in an event trace, so that the order of the calls can be stated.
    The [while] loop of [list_versions] is bounded by a fuel argument; running
    out of fuel is the outcome [Diverge], which no [except] clause catches.

    Timestamps and durations are integers counting microseconds, the
    resolution of [datetime] and [timedelta]. *)

From Stdlib Require Import ZArith String List Bool Lia.
From Stdlib Require DecimalString DecimalNat FinFun.
Import ListNotations.
Local Open Scope string_scope.
Local Open Scope Z_scope.
Local Open Scope list_scope.

(** ** Exceptions

    The exception classes the modelled code raises, catches or lets through.
    All of them derive from [Exception]; only [ClientError] is a
    [botocore.exceptions.ClientError] (an error response of the service),
    [BotoCoreError] stands for the client-side failures of botocore
    (connection, time-out, parameter validation). *)

Inductive exn : Type :=
| ClientError (code : string)
| BotoCoreError (msg : string)
| KeyError (key : string)
| AttributeError (name : string)
| TypeError (msg : string)
| RuntimeError (bucket : string) (remaining : Z).

Definition is_ClientError (e : exn) : bool :=
  match e with ClientError _ => true | _ => false end.

Definition is_Exception (e : exn) : bool :=
  match e with
  | ClientError _ | BotoCoreError _ | KeyError _
  | AttributeError _ | TypeError _ | RuntimeError _ _ => true
  end.

(** ** A state, trace and exception monad *)

Inductive outcome (A : Type) : Type :=
| Ret (a : A)
| Raise (e : exn)
| Diverge.

Arguments Ret {A} a.
Arguments Raise {A} e.
Arguments Diverge {A}.

Section Monad.
Context {W Ev : Type}.

Definition M (A : Type) : Type := W -> W * list Ev * outcome A.

Definition ret {A} (a : A) : M A := fun w => (w, [], Ret a).

Definition raise {A} (e : exn) : M A := fun w => (w, [], Raise e).

Definition diverge {A} : M A := fun w => (w, [], Diverge).

Definition bind {A B} (m : M A) (f : A -> M B) : M B :=
  fun w =>
    let '(w1, t1, r) := m w in
    match r with
    | Ret a => let '(w2, t2, r2) := f a w1 in (w2, t1 ++ t2, r2)
    | Raise e => (w1, t1, Raise e)
    | Diverge => (w1, t1, Diverge)
    end.

(** [try: m except <class>: handler]; [catches] is the [isinstance] test of
    the [except] clause. *)
Definition try_except {A} (m : M A) (catches : exn -> bool)
    (handler : exn -> M A) : M A :=
  fun w =>
    let '(w1, t1, r) := m w in
    match r with
    | Raise e =>
        if catches e
        then let '(w2, t2, r2) := handler e w1 in (w2, t1 ++ t2, r2)
        else (w1, t1, Raise e)
    | _ => (w1, t1, r)
    end.

(** A call to the outside world: [op] is its effect and answer, [ev] the
    event recorded for it. *)
Definition api {A} (op : W -> W * (exn + A)) (ev : exn + A -> Ev) : M A :=
  fun w =>
    let '(w1, r) := op w in
    (w1, [ev r], match r with inl e => Raise e | inr a => Ret a end).

Definition emit (e : Ev) : M unit := fun w => (w, [e], Ret tt).

(** [for x in xs: acc = body(x, acc)] *)
Fixpoint for_in {A B} (xs : list B) (body : B -> A -> M A) (acc : A) : M A :=
  match xs with
  | [] => ret acc
  | x :: xs' => bind (body x acc) (fun acc' => for_in xs' body acc')
  end.
End Monad.

Arguments M : clear implicits.

Definition world_of {W Ev A} (x : W * list Ev * outcome A) : W := fst (fst x).
Definition trace_of {W Ev A} (x : W * list Ev * outcome A) : list Ev :=
  snd (fst x).
Definition result_of {W Ev A} (x : W * list Ev * outcome A) : outcome A :=
  snd x.

Declare Scope monad_scope.
Delimit Scope monad_scope with monad.
Notation "x <- c1 ;; c2" := (bind c1 (fun x => c2))
  (at level 61, c1 at next level, right associativity) : monad_scope.
Notation "c1 ;; c2" := (bind c1 (fun _ => c2))
  (at level 61, right associativity) : monad_scope.
Local Open Scope monad_scope.

(** [d.get(key, default)] *)
Definition get_default {A} (o : option A) (default : A) : A :=
  match o with Some a => a | None => default end.

(** [d[key]] *)
Definition subscript {W Ev A} (key : string) (o : option A) : M W Ev A :=
  match o with Some a => ret a | None => raise (KeyError key) end.

(** [sub in s] on strings *)
Fixpoint contains (sub s : string) : bool :=
  String.prefix sub s
  || match s with
     | EmptyString => false
     | String _ s' => contains sub s'
     end.

Definition seconds (n : Z) : Z := n * 1000000.

(** ** The reclamation subsystem *)

Module Reclaim.

(** An entry of [Versions] or [DeleteMarkers] in a listing. *)
Record ListedVersion : Type := {
  lv_Key : string;
  lv_VersionId : string;
  lv_IsLatest : bool
}.

(** [{"Key": ..., "VersionId": ...}], an element of a delete batch. *)
Record ObjectRef : Type := {
  Key : string;
  VersionId : string
}.

(** The keyword arguments of [list_object_versions].  A marker is [None]
    while its key is absent from [kwargs], [Some None] when the key holds
    Python's [None], [Some (Some m)] when it holds the string [m]. *)
Record ListKwargs : Type := {
  kw_Bucket : string;
  kw_MaxKeys : Z;
  kw_KeyMarker : option (option string);
  kw_VersionIdMarker : option (option string)
}.

(** The answer of [list_object_versions]; [None] is an absent key. *)
Record Listing : Type := {
  l_Versions : option (list ListedVersion);
  l_DeleteMarkers : option (list ListedVersion);
  l_IsTruncated : option bool;
  l_NextKeyMarker : option string;
  l_NextVersionIdMarker : option string
}.

Record DeleteError : Type := {
  de_Key : string;
  de_VersionId : string;
  de_Code : option string
}.

Record DeleteResponse : Type := {
  dr_Errors : option (list DeleteError)
}.

(** The storage client, the clock and [time.sleep]. *)
Record Client (W : Type) : Type := {
  list_object_versions : ListKwargs -> W -> W * (exn + Listing);
  (* Bucket, Delete.Objects, Delete.Quiet, BypassGovernanceRetention *)
  delete_objects :
    string -> list ObjectRef -> bool -> bool -> W -> W * (exn + DeleteResponse);
  (* Bucket, Key, VersionId; the answer is Retention.RetainUntilDate *)
  get_object_retention : string -> string -> string -> W -> W * (exn + Z);
  delete_bucket : string -> W -> W * (exn + unit);
  (* the answer is the list of the Name of each of Buckets *)
  list_buckets : W -> W * (exn + list string);
  clock : W -> Z;
  sleep : Z -> W -> W
}.

Arguments list_object_versions {W}.
Arguments delete_objects {W}.
Arguments get_object_retention {W}.
Arguments delete_bucket {W}.
Arguments list_buckets {W}.
Arguments clock {W}.
Arguments sleep {W}.

Inductive event : Type :=
| EListObjectVersions (kwargs : ListKwargs) (r : exn + Listing)
| EDeleteObjects (bucket : string) (objects : list ObjectRef)
    (quiet bypass : bool) (r : exn + DeleteResponse)
| EGetObjectRetention (bucket key version_id : string) (r : exn + Z)
| EDeleteBucket (bucket : string) (r : exn + unit)
| EListBuckets (r : exn + list string)
| ENow (now : Z)
| ESleep (duration : Z).

Section Program.
Context {W : Type} (client : Client W).

(** [datetime.datetime.now(tz)] *)
Definition datetime_now : M W event Z :=
  fun w => (w, [ENow (clock client w)], Ret (clock client w)).

(** [time.sleep(duration)] *)
Definition time_sleep (duration : Z) : M W event unit :=
  fun w => (sleep client duration w, [ESleep duration], Ret tt).

(** The functions below take the client and the prefix they work with: the
    defaults [get_client()] and [get_prefix()], taken when an argument is
    [None], read the configuration of the test run.  The [@allure.step]
    decorators only report the call to allure and are left out. *)
Definition get_buckets_list (prefix : string) : M W event (list string) :=
  names <- api (list_buckets client) EListBuckets ;;
  ret (filter (contains prefix) names).

Definition object_ref (o : ListedVersion) : ObjectRef :=
  {| Key := lv_Key o; VersionId := lv_VersionId o |}.

(** The loop of the generator [list_versions], run by a [for] statement:
    [body] is the body of the [for], executed at each [yield], and [acc]
    the variables the body updates. *)
Fixpoint list_versions_loop {A} (fuel : nat) (kwargs : ListKwargs)
    (body : list ObjectRef -> A -> M W event A) (acc : A) : M W event A :=
  match fuel with
  | O => diverge
  | S fuel' =>
      listing <- api (list_object_versions client kwargs)
                     (EListObjectVersions kwargs) ;;
      let kwargs' :=
        {| kw_Bucket := kw_Bucket kwargs;
           kw_MaxKeys := kw_MaxKeys kwargs;
           kw_KeyMarker := Some (l_NextKeyMarker listing);
           kw_VersionIdMarker := Some (l_NextVersionIdMarker listing) |} in
      truncated <- subscript "IsTruncated" (l_IsTruncated listing) ;;
      let objs := get_default (l_Versions listing) []
                  ++ get_default (l_DeleteMarkers listing) [] in
      acc' <- (if (0 <? Z.of_nat (List.length objs))
               then body (map object_ref objs) acc
               else ret acc) ;;
      if truncated : bool
      then list_versions_loop fuel' kwargs' body acc'
      else ret acc'
  end.

Definition list_versions {A} (fuel : nat) (bucket : string) (batch_size : Z)
    (body : list ObjectRef -> A -> M W event A) (acc : A) : M W event A :=
  list_versions_loop fuel
    {| kw_Bucket := bucket; kw_MaxKeys := batch_size;
       kw_KeyMarker := None; kw_VersionIdMarker := None |}
    body acc.

(** [list(list_versions(client, bucket, batch_size))] *)
Definition list_versions_batches (fuel : nat) (bucket : string)
    (batch_size : Z) : M W event (list (list ObjectRef)) :=
  list_versions fuel bucket batch_size
    (fun objects acc => ret (acc ++ [objects])) [].

Definition code_is (code : string) (c : option string) : bool :=
  match c with Some s => String.eqb s code | None => false end.

(** The body of [for err in delete.get("Errors", [])]. *)
Definition check_error (bucket : string) (err : DeleteError)
    (max_retain_date : option Z) : M W event (option Z) :=
  if negb (code_is "AccessDenied" (de_Code err))
  then ret max_retain_date
  else
    try_except
      (retain_date <- api (get_object_retention client bucket
                             (de_Key err) (de_VersionId err))
                          (EGetObjectRetention bucket
                             (de_Key err) (de_VersionId err)) ;;
       match max_retain_date with
       | None => ret (Some retain_date)
       | Some m =>
           if m <? retain_date then ret (Some retain_date)
           else ret max_retain_date
       end)
      is_ClientError
      (fun _ => ret max_retain_date).

(** The body of the first [for objects in list_versions(...)]. *)
Definition delete_and_check (bucket : string) (objects : list ObjectRef)
    (max_retain_date : option Z) : M W event (option Z) :=
  delete <- api (delete_objects client bucket objects true true)
                (EDeleteObjects bucket objects true true) ;;
  for_in (get_default (dr_Errors delete) []) (check_error bucket)
         max_retain_date.

(** The body of the second [for objects in list_versions(...)]. *)
Definition delete_again (bucket : string) (objects : list ObjectRef)
    (_ : unit) : M W event unit :=
  _ <- api (delete_objects client bucket objects true true)
           (EDeleteObjects bucket objects true true) ;;
  ret tt.

Definition batch_size : Z := 128.

Definition nuke_pass1 (fuel : nat) (bucket : string) : M W event (option Z) :=
  list_versions fuel bucket batch_size (delete_and_check bucket) None.

Definition nuke_pass2 (fuel : nat) (bucket : string) : M W event unit :=
  list_versions fuel bucket batch_size (delete_again bucket) tt.

(** The block under [if max_retain_date > now]; [delta.total_seconds() > 60]
    is the comparison of the microseconds of [delta] with those of a minute. *)
Definition wait_out (bucket : string) (max_retain_date now : Z)
    : M W event unit :=
  if now <? max_retain_date
  then
    let delta := max_retain_date - now in
    if seconds 60 <? delta
    then raise (RuntimeError bucket delta)
    else time_sleep delta
  else ret tt.

Definition nuke_bucket (fuel : nat) (bucket : string) : M W event unit :=
  max_retain_date <- nuke_pass1 fuel bucket ;;
  (match max_retain_date with
   | Some m =>
       now <- datetime_now ;;
       wait_out bucket m now ;;
       nuke_pass2 fuel bucket
   | None => ret tt
   end) ;;
  api (delete_bucket client bucket) (EDeleteBucket bucket).

(** The body of [for bucket_name in buckets]. *)
Definition nuke_one (fuel : nat) (bucket_name : string)
    (err : option exn) : M W event (option exn) :=
  try_except (nuke_bucket fuel bucket_name ;; ret err)
             is_Exception
             (fun e => ret (Some e)).

Definition nuke_prefixed_buckets (fuel : nat) (prefix : string)
    : M W event unit :=
  buckets <- get_buckets_list prefix ;;
  err <- for_in buckets (nuke_one fuel) None ;;
  match err with
  | Some e => raise e
  | None => ret tt
  end.
End Program.

(** *** Vocabulary of the statements: what a trace and a listing contain *)

Definition first_request (bucket : string) (batch_size : Z) : ListKwargs :=
  {| kw_Bucket := bucket; kw_MaxKeys := batch_size;
     kw_KeyMarker := None; kw_VersionIdMarker := None |}.

(** The request that continues after the answer [p] to the request [kw]:
    same bucket and page size, the markers of [p]. *)
Definition follow_up (kw : ListKwargs) (p : Listing) : ListKwargs :=
  {| kw_Bucket := kw_Bucket kw; kw_MaxKeys := kw_MaxKeys kw;
     kw_KeyMarker := Some (l_NextKeyMarker p);
     kw_VersionIdMarker := Some (l_NextVersionIdMarker p) |}.

(** The references to the versions and delete markers of one page. *)
Definition page_refs (p : Listing) : list ObjectRef :=
  map (fun o => {| Key := lv_Key o; VersionId := lv_VersionId o |})
      (get_default (l_Versions p) [])
  ++ map (fun o => {| Key := lv_Key o; VersionId := lv_VersionId o |})
         (get_default (l_DeleteMarkers p) []).

(** [paginated client kw w pages w']: asked [kw] in the world [w], and then
    each time the follow-up of the previous answer, the service answers with
    [pages], of which the last is the first that is not truncated, and leaves
    the world [w']. *)
Inductive paginated {W} (client : Client W)
    : ListKwargs -> W -> list Listing -> W -> Prop :=
| paginated_last kw w p w' :
    list_object_versions client kw w = (w', inr p) ->
    l_IsTruncated p = Some false ->
    paginated client kw w [p] w'
| paginated_more kw w p w1 ps w' :
    list_object_versions client kw w = (w1, inr p) ->
    l_IsTruncated p = Some true ->
    paginated client (follow_up kw p) w1 ps w' ->
    paginated client kw w (p :: ps) w'.

Definition nonempty {A} (l : list A) : bool := 0 <? Z.of_nat (List.length l).

(** The listing requests of an enumeration that starts with [kw] and is
    answered by [pages]. *)
Fixpoint request_trace (kw : ListKwargs) (pages : list Listing) : list event :=
  match pages with
  | [] => []
  | p :: ps =>
      EListObjectVersions kw (inr p) :: request_trace (follow_up kw p) ps
  end.

Definition is_sleep (ev : event) : bool :=
  match ev with ESleep _ => true | _ => false end.

Definition is_delete_bucket (ev : event) : bool :=
  match ev with EDeleteBucket _ _ => true | _ => false end.

Definition is_listing (ev : event) : bool :=
  match ev with EListObjectVersions _ _ => true | _ => false end.

(** The events of a pass over the versions: listing, batched delete and
    retention probe. *)
Definition is_object_call (ev : event) : bool :=
  match ev with
  | EListObjectVersions _ _ | EDeleteObjects _ _ _ _ _
  | EGetObjectRetention _ _ _ _ => true
  | _ => false
  end.

(** The durations slept, in order. *)
Definition sleeps (t : list event) : list Z :=
  flat_map (fun ev => match ev with ESleep d => [d] | _ => [] end) t.

(** The retention probes issued, in order. *)
Definition probes (t : list event) : list (string * string * string) :=
  flat_map (fun ev => match ev with
                      | EGetObjectRetention b k v _ => [(b, k, v)]
                      | _ => []
                      end) t.

Definition access_denied (err : DeleteError) : bool :=
  match de_Code err with
  | Some c => String.eqb c "AccessDenied"
  | None => false
  end.

(** The object versions that the answered batched deletes report as
    [AccessDenied], in order. *)
Definition denied (t : list event) : list (string * string * string) :=
  flat_map (fun ev => match ev with
                      | EDeleteObjects b _ _ _ (inr resp) =>
                          map (fun err => (b, de_Key err, de_VersionId err))
                              (filter access_denied
                                      (get_default (dr_Errors resp) []))
                      | _ => []
                      end) t.

(** A retention probe that was answered with a [ClientError]. *)
Definition swallowed_probe (ev : event) : bool :=
  match ev with
  | EGetObjectRetention _ _ _ (inl (ClientError _)) => true
  | _ => false
  end.


(** The later of a date and a running maximum that may be unset. *)
Definition later_of (acc : option Z) (d : Z) : option Z :=
  match acc with
  | None => Some d
  | Some m => if m <? d then Some d else Some m
  end.


(** What [nuke_bucket] does after pass 1 and the wait: the second pass, then
    the deletion of the bucket. *)
Definition second_pass_and_delete {W} (client : Client W) (fuel : nat)
    (bucket : string) : M W event unit :=
  bind (nuke_pass2 client fuel bucket)
       (fun _ => api (delete_bucket client bucket) (EDeleteBucket bucket)).

(** What the [except Exception] of [nuke_prefixed_buckets] sees of one
    reclamation. *)
Definition failure (r : outcome unit) : option exn :=
  match r with Raise e => Some e | _ => None end.

(** [reclaimed client fuel buckets w os t w']: reclaiming the [buckets] one
    after the other from the world [w], each from the world its predecessor
    left, whether it failed or not, gives the outcomes [os] and the trace [t]
    and leaves the world [w']; no reclamation runs out of fuel. *)
Inductive reclaimed {W} (client : Client W) (fuel : nat)
    : list string -> W -> list (option exn) -> list event -> W -> Prop :=
| reclaimed_nil w : reclaimed client fuel [] w [] [] w
| reclaimed_cons b bs w w1 t1 r os t2 w2 :
    nuke_bucket client fuel b w = (w1, t1, r) ->
    r <> Diverge ->
    reclaimed client fuel bs w1 os t2 w2 ->
    reclaimed client fuel (b :: bs) w (failure r :: os) (t1 ++ t2) w2.

(** The last failure of a list of outcomes. *)
Definition last_failure (os : list (option exn)) : option exn :=
  fold_left (fun acc o => match o with Some e => Some e | None => acc end)
            os None.

End Reclaim.

(** ** The instrumented client *)

Module Proxy.

Inductive attachment_type : Type := TEXT.

(** What [allure] and the wrapped client are asked to do, in order. *)
Inductive event {Value : Type} : Type :=
| EInvoke (name : string) (args : list Value) (kwargs : list (string * Value))
    (r : exn + Value)
| EStepEnter (title : string)
| EStepExit (exc : option exn)
| EAttach (body name : string) (attachment : attachment_type).

Arguments event : clear implicits.

(** An attribute of a client object: a bound method with its [__name__], a
    plain value, a dict (of which only the keys matter here), or the closure
    [wrapper] that [log_and_call] returns around [original_method]. *)
Inductive attr {W Value : Type} : Type :=
| Method (name : string)
    (impl : list Value -> list (string * Value) -> W -> W * (exn + Value))
| Data (v : Value)
| Dict (keys : list string)
| Wrapper (original_method : attr).

Arguments attr : clear implicits.

(** A client object: the attributes [getattr] finds on it. *)
Record Client {W Value : Type} : Type := {
  attributes : string -> option (attr W Value)
}.

Arguments Client : clear implicits.

Record WrappedClient {W Value : Type} : Type := {
  client : Client W Value
}.

Arguments WrappedClient : clear implicits.

Section Program.
Context {W Value : Type}.

(** [str({'args': args, 'kwargs': kwargs})] and [str(response)] *)
Context (str_call : list Value -> list (string * Value) -> string).
Context (str_value : Value -> string).

(** [getattr(obj, item)] *)
Definition getattr (obj : Client W Value) (item : string)
    : M W (event Value) (attr W Value) :=
  match attributes obj item with
  | Some a => ret a
  | None => raise (AttributeError item)
  end.

(** [a.__name__]; [functools.wraps] gives the wrapper the name of what it
    wraps, when that has one. *)
Fixpoint dunder_name (a : attr W Value) : option string :=
  match a with
  | Method name _ => Some name
  | Wrapper original_method =>
      match dunder_name original_method with
      | Some name => Some name
      | None => Some "wrapper"
      end
  | Data _ | Dict _ => None
  end.

(** [with allure.step(title): body]: the context manager records the end of
    the step and lets an exception of [body] through. *)
Definition with_step {A} (title : string) (body : M W (event Value) A)
    : M W (event Value) A :=
  emit (EStepEnter title) ;;
  fun w =>
    let '(w1, t1, r) := body w in
    match r with
    | Ret a => (w1, t1 ++ [EStepExit None], Ret a)
    | Raise e => (w1, t1 ++ [EStepExit (Some e)], Raise e)
    | Diverge => (w1, t1, Diverge)
    end.

(** Calling [a] with positional and keyword arguments; the last case is the
    body of [wrapper]. *)
Fixpoint call (a : attr W Value) (args : list Value)
    (kwargs : list (string * Value)) : M W (event Value) Value :=
  match a with
  | Method name impl => api (impl args kwargs) (EInvoke name args kwargs)
  | Data _ => raise (TypeError "object is not callable")
  | Dict _ => raise (TypeError "'dict' object is not callable")
  | Wrapper original_method =>
      name <- match dunder_name original_method with
              | Some name => ret name
              | None => raise (AttributeError "__name__")
              end ;;
      with_step ("Request " ++ name)%string
        (response <- call original_method args kwargs ;;
         emit (EAttach (str_call args kwargs)
                       (name ++ " executed with parameters")%string TEXT) ;;
         emit (EAttach (str_value response) "Response" TEXT) ;;
         ret response)
  end.

Definition log_and_call (original_method : attr W Value) : attr W Value :=
  Wrapper original_method.

(** [d.keys()] *)
Definition keys_of (d : attr W Value) : M W (event Value) (list string) :=
  match d with
  | Dict keys => ret keys
  | _ => raise (AttributeError "keys")
  end.

(** [WrappedClient.__getattr__] *)
Definition __getattr__ (self : WrappedClient W Value) (item : string)
    : M W (event Value) (attr W Value) :=
  original_method <- getattr (client self) item ;;
  table <- getattr (client self) "_PY_TO_OP_NAME" ;;
  keys <- keys_of table ;;
  if existsb (String.eqb item) keys
  then ret (log_and_call original_method)
  else ret original_method.

End Program.

(** *** Vocabulary of the statements *)

Definition is_invoke {Value} (ev : event Value) : bool :=
  match ev with EInvoke _ _ _ _ => true | _ => false end.

Definition is_attach {Value} (ev : event Value) : bool :=
  match ev with EAttach _ _ _ => true | _ => false end.

(** Some event that satisfies [p] occurs in [t] before one that satisfies
    [q]. *)
Fixpoint precedes {Ev} (p q : Ev -> bool) (t : list Ev) : bool :=
  match t with
  | [] => false
  | ev :: t' => (p ev && existsb q t') || precedes p q t'
  end.

End Proxy.

(** ** Scripted clients

    Test doubles on which the statements below are run: a storage client
    that answers each kind of call from a script, whatever the arguments, and
    a client object with one operation and one plain attribute. *)

Module Script.
Import Reclaim.

Record world : Type := {
  listings : list (exn + Listing);
  deletions : list (exn + DeleteResponse);
  retentions : list (exn + Z);
  bucket_deletions : list (exn + unit);
  bucket_names : list string;
  time : Z
}.

Definition unscripted {A} : exn + A := inl (BotoCoreError "unscripted call").

Definition answer_listing (w : world) : world * (exn + Listing) :=
  match listings w with
  | r :: rest =>
      ({| listings := rest; deletions := deletions w;
          retentions := retentions w;
          bucket_deletions := bucket_deletions w;
          bucket_names := bucket_names w; time := time w |}, r)
  | [] => (w, unscripted)
  end.

Definition answer_deletion (w : world) : world * (exn + DeleteResponse) :=
  match deletions w with
  | r :: rest =>
      ({| listings := listings w; deletions := rest;
          retentions := retentions w;
          bucket_deletions := bucket_deletions w;
          bucket_names := bucket_names w; time := time w |}, r)
  | [] => (w, unscripted)
  end.

Definition answer_retention (w : world) : world * (exn + Z) :=
  match retentions w with
  | r :: rest =>
      ({| listings := listings w; deletions := deletions w;
          retentions := rest;
          bucket_deletions := bucket_deletions w;
          bucket_names := bucket_names w; time := time w |}, r)
  | [] => (w, unscripted)
  end.

Definition answer_bucket_deletion (w : world) : world * (exn + unit) :=
  match bucket_deletions w with
  | r :: rest =>
      ({| listings := listings w; deletions := deletions w;
          retentions := retentions w;
          bucket_deletions := rest;
          bucket_names := bucket_names w; time := time w |}, r)
  | [] => (w, unscripted)
  end.

Definition pass_time (d : Z) (w : world) : world :=
  {| listings := listings w; deletions := deletions w;
     retentions := retentions w;
     bucket_deletions := bucket_deletions w;
     bucket_names := bucket_names w; time := time w + d |}.

Definition client : Client world :=
  {| list_object_versions := fun _ => answer_listing;
     delete_objects := fun _ _ _ _ => answer_deletion;
     get_object_retention := fun _ _ _ => answer_retention;
     delete_bucket := fun _ => answer_bucket_deletion;
     list_buckets := fun w => (w, inr (bucket_names w));
     clock := time;
     sleep := pass_time |}.

Definition version (k v : string) : ListedVersion :=
  {| lv_Key := k; lv_VersionId := v; lv_IsLatest := true |}.

Definition page (vs ms : list ListedVersion) (truncated : bool)
    (next : option string) : Listing :=
  {| l_Versions := Some vs; l_DeleteMarkers := Some ms;
     l_IsTruncated := Some truncated;
     l_NextKeyMarker := next; l_NextVersionIdMarker := next |}.

Definition last_page : Listing :=
  {| l_Versions := None; l_DeleteMarkers := None;
     l_IsTruncated := Some false;
     l_NextKeyMarker := None; l_NextVersionIdMarker := None |}.

Definition no_errors : DeleteResponse := {| dr_Errors := None |}.

Definition denied_error (k v : string) : DeleteError :=
  {| de_Key := k; de_VersionId := v; de_Code := Some "AccessDenied" |}.

Definition other_error (k v : string) : DeleteError :=
  {| de_Key := k; de_VersionId := v; de_Code := Some "InternalError" |}.

Definition start : Z := 1700000000000000.

(** A bucket of one version and one delete marker, nothing locked. *)
Definition unlocked : world :=
  {| listings := [inr (page [version "a" "1"] [version "a" "2"] false None);
                  inr last_page];
     deletions := [inr no_errors; inr no_errors];
     retentions := [];
     bucket_deletions := [inr tt];
     bucket_names := [];
     time := start |}.

(** Three pages: a full one, an empty one, and the rest. *)
Definition three_answers : list Listing :=
  [page [version "a" "1"; version "b" "1"] [] true (Some "b");
   page [] [] true (Some "c");
   page [version "d" "1"] [version "d" "2"] false None].

Definition three_pages : world :=
  {| listings := map inr three_answers;
     deletions := []; retentions := []; bucket_deletions := [];
     bucket_names := []; time := start |}.

(** A world in which every script has been played. *)
Definition silent (names : list string) (now : Z) : world :=
  {| listings := []; deletions := []; retentions := [];
     bucket_deletions := []; bucket_names := names; time := now |}.

(** Three versions refused, two for [AccessDenied]; the probes answer a hold
    of [hold] seconds from now and a [ClientError]. *)
Definition locked (hold : Z) : world :=
  {| listings := [inr (page [version "a" "1"; version "b" "1";
                             version "c" "1"] [] false None);
                  inr (page [version "a" "1"] [] false None)];
     deletions :=
       [inr {| dr_Errors := Some [denied_error "a" "1"; other_error "b" "1";
                                  denied_error "c" "1"] |};
        inr no_errors];
     retentions := [inr (start + seconds hold);
                    inl (ClientError "NoSuchObjectLockConfiguration")];
     bucket_deletions := [inr tt];
     bucket_names := [];
     time := start |}.

(** One version refused for [AccessDenied], and the probe cannot reach the
    service. *)
Definition unreachable_probe : world :=
  {| listings := [inr (page [version "a" "1"; version "b" "1"] [] false None)];
     deletions :=
       [inr {| dr_Errors := Some [denied_error "a" "1";
                                  denied_error "b" "1"] |}];
     retentions := [inl (BotoCoreError "EndpointConnectionError")];
     bucket_deletions := [inr tt];
     bucket_names := [];
     time := start |}.

(** Three empty buckets of the run, and one of somebody else; deleting the
    second bucket is refused. *)
Definition three_buckets : world :=
  {| listings := [inr last_page; inr last_page; inr last_page];
     deletions := []; retentions := [];
     bucket_deletions := [inr tt; inl (ClientError "AccessDenied"); inr tt];
     bucket_names := ["run7-1"; "other"; "x-run7-2"; "run7-3"];
     time := start |}.

(** Two probes pending: the first is answered with a [ClientError], the
    second with a date. *)
Definition unconfigured : world :=
  {| listings := []; deletions := [];
     retentions := [inl (ClientError "NoSuchObjectLockConfiguration");
                    inr (start + seconds 10)];
     bucket_deletions := []; bucket_names := []; time := start |}.

(** The reclamations of the three buckets of the run, one after the other. *)
Definition first_run : world * list event * outcome unit :=
  nuke_bucket client 3 "run7-1" three_buckets.

Definition second_run : world * list event * outcome unit :=
  nuke_bucket client 3 "x-run7-2" (world_of first_run).

Definition third_run : world * list event * outcome unit :=
  nuke_bucket client 3 "run7-3" (world_of second_run).

(** The durations [nuke_bucket] sleeps on a bucket locked for [hold] seconds. *)
Definition sleeps_of_locked (hold : Z) : list Z :=
  sleeps (trace_of (nuke_bucket client 3 "b" (locked hold))).

End Script.

Module ScriptProxy.
Import Proxy.

(** The world counts the calls the service received; values are strings. *)
Definition list_buckets_impl (args : list string)
    (kwargs : list (string * string)) (n : nat) : nat * (exn + string) :=
  (S n, inr "{'Buckets': []}").

Definition delete_bucket_impl (args : list string)
    (kwargs : list (string * string)) (n : nat) : nat * (exn + string) :=
  (S n, inl (ClientError "NoSuchBucket")).

Definition s3 : Client nat string :=
  {| attributes := fun item =>
       if String.eqb item "list_buckets"
       then Some (Method "list_buckets" list_buckets_impl)
       else if String.eqb item "delete_bucket"
       then Some (Method "delete_bucket" delete_bucket_impl)
       else if String.eqb item "meta" then Some (Data "<ClientMeta>")
       else if String.eqb item "_PY_TO_OP_NAME"
       then Some (Dict ["list_buckets"; "delete_bucket"])
       else None |}.

Definition str_call (args : list string) (kwargs : list (string * string))
    : string :=
  ("{'args': (" ++ String.concat ", " args ++ "), 'kwargs': {"
   ++ String.concat ", " (map (fun kv => fst kv ++ ": " ++ snd kv) kwargs)
   ++ "}}")%string.

Definition str_value (v : string) : string := v.

Definition wrapped_s3 : WrappedClient nat string := {| client := s3 |}.

(** Looking [item] up on the wrapped client and calling what is found. *)
Definition lookup_and_call (item : string) (args : list string)
    (kwargs : list (string * string)) : M nat (event string) string :=
  bind (__getattr__ wrapped_s3 item)
       (fun a => call str_call str_value a args kwargs).

End ScriptProxy.

(** ** More of the module: traces of the reclamation *)

Module ReclaimTrace.
Import Reclaim.

(** The call is one that [nuke_bucket] makes for [bucket]: it names that
    bucket, lists by pages of 128, and deletes quietly and bypassing
    governance retention. *)
Definition within (bucket : string) (ev : event) : bool :=
  match ev with
  | EListObjectVersions kw _ =>
      String.eqb (kw_Bucket kw) bucket && (kw_MaxKeys kw =? 128)
  | EDeleteObjects b _ quiet bypass _ => String.eqb b bucket && quiet && bypass
  | EGetObjectRetention b _ _ _ => String.eqb b bucket
  | EDeleteBucket b _ => String.eqb b bucket
  | EListBuckets _ => false
  | ENow _ | ESleep _ => true
  end.

(** The bucket a call names. *)
Definition event_bucket (ev : event) : option string :=
  match ev with
  | EListObjectVersions kw _ => Some (kw_Bucket kw)
  | EDeleteObjects b _ _ _ _ => Some b
  | EGetObjectRetention b _ _ _ => Some b
  | EDeleteBucket b _ => Some b
  | EListBuckets _ | ENow _ | ESleep _ => None
  end.

(** The call names no bucket, or one whose name contains [prefix]. *)
Definition in_namespace (prefix : string) (ev : event) : bool :=
  match event_bucket ev with
  | Some b => contains prefix b
  | None => true
  end.

(** The batches submitted for deletion, in order. *)
Definition deleted (t : list event) : list (list ObjectRef) :=
  flat_map (fun ev => match ev with
                      | EDeleteObjects _ objects _ _ _ => [objects]
                      | _ => []
                      end) t.

(** The pages the listing requests were answered with, in order. *)
Definition answered (t : list event) : list Listing :=
  flat_map (fun ev => match ev with
                      | EListObjectVersions _ (inr p) => [p]
                      | _ => []
                      end) t.

End ReclaimTrace.

(** ** More of the module: names, prefixes and storage classes *)

Module Fixtures.

(** How a loop of this part ends: with a value, with an exception, or out of
    fuel. *)
Inductive failure : Type :=
| ImpossibleTemplate (template : string)
| FormatFailure (e : exn).

Inductive result (A : Type) : Type :=
| Done (a : A)
| Failed (f : failure)
| Running.

Arguments Done {A} a.
Arguments Failed {A} f.
Arguments Running {A}.

(** [rand[:-1]] *)
Fixpoint drop_last (s : string) : string :=
  match s with
  | EmptyString => EmptyString
  | String c EmptyString => EmptyString
  | String c s' => String c (drop_last s')
  end.

Section Prefix.

(** [format template rand] is [template.format(random=rand)]. *)
Context (format : string -> string -> exn + string).

(** The [while rand] loop of [choose_bucket_prefix] and the [raise] after
    it; [rand] is the string of 255 characters the function draws. *)
Fixpoint choose_loop (fuel : nat) (template : string) (max_len : Z)
    (rand : string) : result string :=
  match fuel with
  | O => Running
  | S fuel' =>
      match rand with
      | EmptyString => Failed (ImpossibleTemplate template)
      | _ =>
          match format template rand with
          | inl e => Failed (FormatFailure e)
          | inr s =>
              if Z.of_nat (String.length s) <=? max_len
              then Done s
              else choose_loop fuel' template max_len (drop_last rand)
          end
      end
  end.

Definition choose_bucket_prefix (fuel : nat) (template : string)
    (max_len : Z) (rand : string) : result string :=
  choose_loop fuel template max_len rand.

End Prefix.

(** The loop of [get_parameter_name]; ["{random}".format(random=rand)] is
    [rand] itself. *)
Fixpoint parameter_loop (fuel : nat) (rand parameter_name : string)
    : result string :=
  match fuel with
  | O => Running
  | S fuel' =>
      match rand with
      | EmptyString => Done parameter_name
      | _ =>
          if Z.of_nat (String.length rand) <=? 10
          then Done rand
          else parameter_loop fuel' (drop_last rand) rand
      end
  end.

Definition get_parameter_name (fuel : nat) (rand : string) : result string :=
  parameter_loop fuel rand "".

Section StorageClasses.

(** [word_char c]: the regular expression engine classifies [c] as [\w]. *)
Context (word_char : Ascii.ascii -> bool).

(** Inside a character class [\b] is the backspace character. *)
Definition backspace : Ascii.ascii := Ascii.ascii_of_nat 8.

(** The class [[\b\W\b]]. *)
Definition separator (c : Ascii.ascii) : bool :=
  Ascii.eqb c backspace || negb (word_char c).

(** [re.split(r"[\b\W\b]+", s)]: [piece] is the text read since the last
    match, [in_run] tells that the last character read belongs to a match. *)
Fixpoint re_split (s piece : string) (in_run : bool) : list string :=
  match s with
  | EmptyString => [piece]
  | String c s' =>
      if separator c
      then if in_run
           then re_split s' piece true
           else piece :: re_split s' "" true
      else re_split s' (piece ++ String c "")%string false
  end.

(** [storage_classes] is [config.storage_classes]. *)
Definition configured_storage_classes (storage_classes : string)
    : list string :=
  let sc := ["STANDARD"] in
  let extra_sc := re_split storage_classes "" false in
  let sc :=
    fold_left (fun sc item =>
                 if negb (String.eqb item "STANDARD")
                 then sc ++ [item]
                 else sc)
              extra_sc sc in
  filter (fun i => negb (String.eqb i "")) sc.

End StorageClasses.

(** [str(num)] *)
Definition str_int (num : nat) : string :=
  DecimalString.NilEmpty.string_of_uint (Nat.to_uint num).

(** How [str.format] renders the global [prefix], which is [None] until
    [setup] has assigned it. *)
Definition str_prefix (prefix : option string) : string :=
  match prefix with
  | Some s => s
  | None => "None"
  end.

(** The process: the next value of [bucket_counter] and the world of the
    service. *)
Record process {W : Type} : Type := {
  bucket_counter : nat;
  service : W
}.

Arguments process : clear implicits.

Inductive event : Type :=
| EAttach (body name : string)
| ECreateBucket (bucket : string) (r : exn + unit).

Definition get_new_bucket_name {W} (prefix : option string)
    : M (process W) event string :=
  fun w =>
    let num := bucket_counter w in
    let name := (str_prefix prefix ++ str_int num)%string in
    ({| bucket_counter := S num; service := service w |},
     [EAttach name "Bucket name"], Ret name).

(** [client.create_bucket(Bucket=name)], on the world of the service. *)
Definition call_create_bucket {W}
    (create_bucket : string -> W -> W * (exn + unit)) (name : string)
    : M (process W) event unit :=
  fun w =>
    let '(s, r) := create_bucket name (service w) in
    ({| bucket_counter := bucket_counter w; service := s |},
     [ECreateBucket name r],
     match r with inl e => Raise e | inr u => Ret u end).

Definition get_new_bucket {W}
    (create_bucket : string -> W -> W * (exn + unit))
    (prefix : option string) (name : option string)
    : M (process W) event string :=
  bind (match name with
        | None => get_new_bucket_name prefix
        | Some n => ret n
        end)
       (fun name =>
          bind (call_create_bucket create_bucket name)
               (fun _ => ret name)).

(** [k] calls of [get_new_bucket_name], and the names they return. *)
Fixpoint new_bucket_names {W} (k : nat) (prefix : option string)
    : M (process W) event (list string) :=
  match k with
  | O => ret []
  | S k' =>
      bind (get_new_bucket_name prefix)
           (fun name =>
              bind (new_bucket_names k' prefix)
                   (fun names => ret (name :: names)))
  end.

End Fixtures.

(** ** More of the module: the end of a test *)

Module Teardown.

(** The IAM client: roles and identity providers by name. *)
Record IamClient (W : Type) : Type := {
  (* the RoleName of each of Roles *)
  list_roles : W -> W * (exn + list string);
  (* RoleName; the answer is PolicyNames *)
  list_role_policies : string -> W -> W * (exn + list string);
  (* RoleName, PolicyName *)
  delete_role_policy : string -> string -> W -> W * (exn + unit);
  delete_role : string -> W -> W * (exn + unit);
  (* the Arn of each of OpenIDConnectProviderList *)
  list_open_id_connect_providers : W -> W * (exn + list string);
  delete_open_id_connect_provider : string -> W -> W * (exn + unit)
}.

Arguments list_roles {W}.
Arguments list_role_policies {W}.
Arguments delete_role_policy {W}.
Arguments delete_role {W}.
Arguments list_open_id_connect_providers {W}.
Arguments delete_open_id_connect_provider {W}.

Inductive identity : Type := Main | Alt | Tenant.

Inductive event : Type :=
| EReclaim (who : identity) (ev : Reclaim.event)
| EGetIamClient (failed : option exn)
| EListRoles (r : exn + list string)
| EListRolePolicies (role : string) (r : exn + list string)
| EDeleteRolePolicy (role policy : string) (r : exn + unit)
| EDeleteRole (role : string) (r : exn + unit)
| EListProviders (r : exn + list string)
| EDeleteProvider (arn : string) (r : exn + unit).

(** The events of [m], seen through [f]. *)
Definition relabel {W E1 E2 A} (f : E1 -> E2) (m : M W E1 A) : M W E2 A :=
  fun w => let '(w1, t, r) := m w in (w1, map f t, r).

Section Program.
Context {W : Type}.

(** The clients [get_client()], [get_alt_client()] and
    [get_tenant_client()] build, and [get_iam_client()], which reads the
    configuration file and fails when it has no [iam] section. *)
Context (main alt tenant : Reclaim.Client W).
Context (get_iam_client : W -> W * (exn + IamClient W)).

Definition call_get_iam_client : M W event (IamClient W) :=
  fun w =>
    let '(w1, r) := get_iam_client w in
    (w1,
     [EGetIamClient match r with inl e => Some e | inr _ => None end],
     match r with inl e => Raise e | inr c => Ret c end).

(** The body of [for role in list_roles_resp["Roles"]]. *)
Definition delete_role_and_policies (iam_client : IamClient W)
    (role : string) (_ : unit) : M W event unit :=
  policies <- api (list_role_policies iam_client role)
                  (EListRolePolicies role) ;;
  for_in policies
         (fun policy _ =>
            api (delete_role_policy iam_client role policy)
                (EDeleteRolePolicy role policy))
         tt ;;
  api (delete_role iam_client role) (EDeleteRole role).

(** The block under [try] in [teardown]. *)
Definition iam_cleanup : M W event unit :=
  iam_client <- call_get_iam_client ;;
  roles <- api (list_roles iam_client) EListRoles ;;
  for_in roles (delete_role_and_policies iam_client) tt ;;
  providers <- api (list_open_id_connect_providers iam_client)
                   EListProviders ;;
  for_in providers
         (fun arn _ =>
            api (delete_open_id_connect_provider iam_client arn)
                (EDeleteProvider arn))
         tt.

Definition teardown (fuel : nat) (prefix : string) : M W event unit :=
  relabel (EReclaim Main) (Reclaim.nuke_prefixed_buckets main fuel prefix) ;;
  relabel (EReclaim Alt) (Reclaim.nuke_prefixed_buckets alt fuel prefix) ;;
  relabel (EReclaim Tenant)
          (Reclaim.nuke_prefixed_buckets tenant fuel prefix) ;;
  try_except iam_cleanup (fun _ => true) (fun _ => ret tt).

End Program.

(** *** Vocabulary of the statements *)

Definition is_reclaim_of (who : identity) (ev : event) : bool :=
  match ev, who with
  | EReclaim Main _, Main | EReclaim Alt _, Alt
  | EReclaim Tenant _, Tenant => true
  | _, _ => false
  end.

Definition is_iam (ev : event) : bool :=
  match ev with EReclaim _ _ => false | _ => true end.

End Teardown.

(** ** More scripted worlds *)

Module Script2.
Import Reclaim.

(** A page of one version whose answer has no [IsTruncated]. *)
Definition unflagged_page : Listing :=
  {| l_Versions := Some [Script.version "a" "1"]; l_DeleteMarkers := None;
     l_IsTruncated := None;
     l_NextKeyMarker := None; l_NextVersionIdMarker := None |}.

Definition unflagged : Script.world :=
  {| Script.listings := [inr unflagged_page];
     Script.deletions := [inr Script.no_errors];
     Script.retentions := [];
     Script.bucket_deletions := [inr tt]; Script.bucket_names := [];
     Script.time := Script.start |}.

End Script2.

(** ** Vocabulary and instances for names and storage classes *)

Module Text.

(** Every character of [s] satisfies [p]. *)
Fixpoint all_chars (p : Ascii.ascii -> bool) (s : string) : bool :=
  match s with
  | EmptyString => true
  | String c s' => p c && all_chars p s'
  end.

(** [\w] on ASCII text: letters, digits and the underscore. *)
Definition ascii_word_char (c : Ascii.ascii) : bool :=
  let n := Ascii.nat_of_ascii c in
  ((48 <=? n) && (n <=? 57))%nat
  || ((65 <=? n) && (n <=? 90))%nat
  || ((97 <=? n) && (n <=? 122))%nat
  || (n =? 95)%nat.

(** The character is none of those the storage classes are split on. *)
Definition clean (word_char : Ascii.ascii -> bool) (c : Ascii.ascii) : bool :=
  negb (Fixtures.separator word_char c).

(** [template.format(random=rand)] for the default template
    ["test-{random}-"], whatever [template] is asked. *)
Definition default_format (template rand : string) : exn + string :=
  inr ("test-" ++ rand ++ "-")%string.

End Text.

Module Sample.

(** A draw of 36 characters. *)
Definition draw : string := "abcdefghijklmnopqrstuvwxyz0123456789".

End Sample.

Module FixturesTrace.

(** The buckets whose creation was asked, in order. *)
Definition created (t : list Fixtures.event) : list string :=
  flat_map (fun ev => match ev with
                      | Fixtures.ECreateBucket bucket _ => [bucket]
                      | _ => []
                      end) t.

(** A service on which no bucket can be created. *)
Definition refusing (name : string) (w : unit) : unit * (exn + unit) :=
  (w, inl (ClientError "AccessDenied")).

End FixturesTrace.

Module ProxyTrace.
Import Proxy.

(** Every step that is closed was open, and [depth] steps are open at the
    start and none at the end. *)
Fixpoint bracketed {Value} (t : list (event Value)) (depth : nat) : bool :=
  match t with
  | [] => Nat.eqb depth 0
  | EStepEnter _ :: t' => bracketed t' (S depth)
  | EStepExit _ :: t' =>
      match depth with
      | O => false
      | S depth' => bracketed t' depth'
      end
  | _ :: t' => bracketed t' depth
  end.

(** A client object that has a method but no table of operation names. *)
Definition bare : Client nat string :=
  {| attributes := fun item =>
       if String.eqb item "list_buckets"
       then Some (Method "list_buckets" ScriptProxy.list_buckets_impl)
       else None |}.

End ProxyTrace.

Module Script3.

(** An IAM client that may not list the roles. *)
Definition iam : Teardown.IamClient Script.world :=
  {| Teardown.list_roles := fun w => (w, inl (ClientError "AccessDenied"));
     Teardown.list_role_policies := fun _ w => (w, inr []);
     Teardown.delete_role_policy := fun _ _ w => (w, inr tt);
     Teardown.delete_role := fun _ w => (w, inr tt);
     Teardown.list_open_id_connect_providers := fun w => (w, inr []);
     Teardown.delete_open_id_connect_provider := fun _ w => (w, inr tt) |}.

Definition get_iam_client (w : Script.world)
    : Script.world * (exn + Teardown.IamClient Script.world) :=
  (w, inr iam).

(** A world in which no identity has a bucket. *)
Definition no_bucket : Script.world := Script.silent [] Script.start.

End Script3.

(** ** Vocabulary for a whole pass and for the calls that abort *)

Module ReclaimPass.
Import Reclaim.

(** The number of listing requests of a trace. *)
Definition listings (t : list event) : nat := length (filter is_listing t).

(** [batch_deleted client bucket p w t w']: the references of the page [p],
    when it has any, are submitted in one batched delete of [bucket], quiet
    and bypassing governance retention, which the service answers. *)
Inductive batch_deleted {W} (client : Client W) (bucket : string)
    (p : Listing) : W -> list event -> W -> Prop :=
| batch_none w :
    page_refs p = [] ->
    batch_deleted client bucket p w [] w
| batch_some w w' resp :
    page_refs p <> [] ->
    delete_objects client bucket (page_refs p) true true w = (w', inr resp) ->
    batch_deleted client bucket p w
      [EDeleteObjects bucket (page_refs p) true true (inr resp)] w'.

(** [swept client bucket kw w t w']: a full enumeration of the versions of
    [bucket], from the request [kw] to the first page that is not truncated,
    each page deleted as soon as it is listed; [t] is the trace of it. *)
Inductive swept {W} (client : Client W) (bucket : string)
    : ListKwargs -> W -> list event -> W -> Prop :=
| swept_last kw w p w1 td w2 :
    list_object_versions client kw w = (w1, inr p) ->
    l_IsTruncated p = Some false ->
    batch_deleted client bucket p w1 td w2 ->
    swept client bucket kw w (EListObjectVersions kw (inr p) :: td) w2
| swept_more kw w p w1 td w2 t w3 :
    list_object_versions client kw w = (w1, inr p) ->
    l_IsTruncated p = Some true ->
    batch_deleted client bucket p w1 td w2 ->
    swept client bucket (follow_up kw p) w2 t w3 ->
    swept client bucket kw w (EListObjectVersions kw (inr p) :: td ++ t) w3.

(** The exception with which a failed probe is not swallowed: that of any
    failure but a [ClientError]. *)
Definition failed_probe (ev : event) : option exn :=
  match ev with
  | EGetObjectRetention _ _ _ (inl (ClientError _)) => None
  | EGetObjectRetention _ _ _ (inl e) => Some e
  | _ => None
  end.

Definition failed_listing (ev : event) : option exn :=
  match ev with
  | EListObjectVersions _ (inl e) => Some e
  | _ => None
  end.

(** The exception of a failed call to the service, but for a probe answered
    with a [ClientError]. *)
Definition fatal (ev : event) : option exn :=
  match ev with
  | EListObjectVersions _ (inl e) => Some e
  | EDeleteObjects _ _ _ _ (inl e) => Some e
  | EDeleteBucket _ (inl e) => Some e
  | EListBuckets (inl e) => Some e
  | _ => failed_probe ev
  end.

(** [stops_at f t r]: no call of the trace [t] fails in the sense of [f], or
    the last call of [t] does, it alone, and [r] raises its exception. *)
Definition stops_at {A} (f : event -> option exn) (t : list event)
    (r : outcome A) : Prop :=
  Forall (fun ev => f ev = None) t
  \/ exists t0 ev e,
       t = t0 ++ [ev]
       /\ Forall (fun ev0 => f ev0 = None) t0
       /\ f ev = Some e
       /\ r = Raise e.

End ReclaimPass.

Module Script4.
Import Reclaim.

(** A page of three versions, answered to a request for two. *)
Definition oversized_page : Listing :=
  Script.page [Script.version "a" "1"; Script.version "b" "1";
               Script.version "c" "1"] [] false None.

Definition oversized : Script.world :=
  {| Script.listings := [inr oversized_page];
     Script.deletions := []; Script.retentions := [];
     Script.bucket_deletions := []; Script.bucket_names := [];
     Script.time := Script.start |}.



End Script4.

(** * Properties *)

(** ** Running the monad *)

Lemma for_in_cons {W Ev A B} (x : B) (xs : list B)
    (body : B -> A -> M W Ev A) (acc : A) (w : W) :
  for_in (x :: xs) body acc w =
  let '(w1, t1, r) := body x acc w in
  match r with
  | Ret acc' =>
      let '(w2, t2, r2) := for_in xs body acc' w1 in (w2, t1 ++ t2, r2)
  | Raise e => (w1, t1, Raise e)
  | Diverge => (w1, t1, Diverge)
  end.
Proof. reflexivity. Qed.

Lemma bind_trace {W Ev A B} (m : M W Ev A) (f : A -> M W Ev B) (w : W) :
  exists t', trace_of (bind m f w) = trace_of (m w) ++ t'.
Proof.
  unfold bind, trace_of. destruct (m w) as [[w1 t1] [a| |]]; cbn.
  - destruct (f a w1) as [[w2 t2] r2]. cbn. eauto.
  - exists []. now rewrite app_nil_r.
  - exists []. now rewrite app_nil_r.
Qed.

(** ** Enumeration of the versions *)

Section Enumeration.
Import Reclaim.
Context {W : Type} (client : Client W).

Lemma page_refs_length (p : Listing) :
  length (page_refs p) =
  length (get_default (l_Versions p) [] ++ get_default (l_DeleteMarkers p) []).
Proof. unfold page_refs. now rewrite <- map_app, length_map. Qed.

Lemma page_refs_map (p : Listing) :
  map object_ref (get_default (l_Versions p) []
                  ++ get_default (l_DeleteMarkers p) []) = page_refs p.
Proof. unfold page_refs. now rewrite map_app. Qed.

(** One turn of the loop of [list_versions], once the service has answered. *)
Lemma list_versions_loop_answered {A} (fuel : nat) (kw : ListKwargs)
    (body : list ObjectRef -> A -> M W event A) (acc : A)
    (w w1 : W) (p : Listing) (truncated : bool) :
  list_object_versions client kw w = (w1, inr p) ->
  l_IsTruncated p = Some truncated ->
  list_versions_loop client (S fuel) kw body acc w =
  let '(w2, t2, r2) :=
    (if 0 <? Z.of_nat (length (page_refs p))
     then body (page_refs p) acc else ret acc) w1 in
  match r2 with
  | Ret acc' =>
      if truncated
      then let '(w3, t3, r3) :=
             list_versions_loop client fuel (follow_up kw p) body acc' w2 in
           (w3, EListObjectVersions kw (inr p) :: t2 ++ t3, r3)
      else (w2, EListObjectVersions kw (inr p) :: t2 ++ [], Ret acc')
  | Raise e => (w2, EListObjectVersions kw (inr p) :: t2, Raise e)
  | Diverge => (w2, EListObjectVersions kw (inr p) :: t2, Diverge)
  end.
Proof.
  intros Hcall Htrunc. cbn [list_versions_loop]. unfold bind at 1, api at 1.
  rewrite Hcall. unfold bind at 1. rewrite Htrunc. cbn [subscript ret].
  unfold bind at 1. rewrite page_refs_length, page_refs_map.
  match goal with
  | |- context [(if ?c then ?a else ?b) w1] =>
      destruct ((if c then a else b) w1) as [[w2 t2] r2]
  end.
  destruct r2 as [acc'| |]; try reflexivity.
  destruct truncated; cbn.
  - fold (follow_up kw p).
    now destruct (list_versions_loop client fuel _ body acc' w2)
      as [[w3 t3] r3].
  - reflexivity.
Qed.

Lemma collect_pages (pages : list Listing) :
  forall fuel kw w w' acc,
    paginated client kw w pages w' ->
    (length pages <= fuel)%nat ->
    list_versions_loop client fuel kw
      (fun objects acc => ret (acc ++ [objects])) acc w =
    (w', request_trace kw pages,
     Ret (acc ++ filter nonempty (map page_refs pages))).
Proof.
  induction pages as [|p ps IH]; intros fuel kw w w' acc Hp Hfuel.
  - inversion Hp.
  - destruct fuel as [|fuel]; [cbn in Hfuel; lia|].
    cbn [length] in Hfuel. cbn [map filter request_trace].
    inversion Hp as [kw0 w0 p0 w0' Hcall Htr
                    |kw0 w0 p0 w1 ps0 w0' Hcall Htr Hrest]; subst.
    + rewrite (list_versions_loop_answered _ _ _ _ _ _ _ _ Hcall Htr).
      unfold nonempty at 1.
      destruct (0 <? Z.of_nat (length (page_refs p))); cbn;
        now rewrite ?app_nil_r.
    + rewrite (list_versions_loop_answered _ _ _ _ _ _ _ _ Hcall Htr).
      unfold nonempty at 1.
      destruct (0 <? Z.of_nat (length (page_refs p))); cbn;
        rewrite (IH fuel _ _ _ _ Hrest) by lia;
        now rewrite <- ?app_assoc.
Qed.

Lemma concat_filter_nonempty {A} (ls : list (list A)) :
  concat (filter nonempty ls) = concat ls.
Proof.
  induction ls as [|l ls IH]; [reflexivity|].
  destruct l as [|a l].
  - exact IH.
  - change (filter nonempty ((a :: l) :: ls))
      with ((a :: l) :: filter nonempty ls).
    cbn [concat]. now rewrite IH.
Qed.

Lemma paginated_shape (pages : list Listing) :
  forall kw w w',
    paginated client kw w pages w' ->
    exists front final,
      pages = front ++ [final]
      /\ Forall (fun p => l_IsTruncated p = Some true) front
      /\ l_IsTruncated final = Some false.
Proof.
  induction pages as [|p ps IH]; intros kw w w' Hp; inversion Hp; subst.
  - exists [], p. repeat split; auto.
  - match goal with
    | H : paginated _ _ _ ps _ |- _ =>
        destruct (IH _ _ _ H) as (front & final & -> & Hfront & Hfinal)
    end.
    exists (p :: front), final. repeat split; auto.
Qed.

(** C4 (amended). When the service answers the paginated listing of a bucket
    with [pages], the last of which is the first that is not truncated,
    [list_versions] returns, with fuel for that many requests: its batches
    are the contents of the pages that are not empty, one batch for each
    such page and in the order of the pages, so that they concatenate to the
    references of all the versions and delete markers of the pages and none
    is empty; a batch is within [batch_size] when the page it comes from is,
    the generator neither splitting nor bounding a page; the first request
    carries no marker and each further request the markers of the answer
    before it, and no request follows the page that is not truncated. *)
Theorem list_versions_enumerates (fuel : nat) (bucket : string)
    (batch_size : Z) (w w' : W) (pages : list Listing) :
  paginated client (first_request bucket batch_size) w pages w' ->
  (length pages <= fuel)%nat ->
  exists batches,
    list_versions_batches client fuel bucket batch_size w =
      (w', request_trace (first_request bucket batch_size) pages, Ret batches)
    /\ batches = filter nonempty (map page_refs pages)
    /\ concat batches = concat (map page_refs pages)
    /\ Forall (fun b => b <> []) batches
    /\ (Forall (fun p => Z.of_nat (length (page_refs p)) <= batch_size) pages ->
        Forall (fun b => Z.of_nat (length b) <= batch_size) batches)
    /\ (exists front final,
          pages = front ++ [final]
          /\ Forall (fun p => l_IsTruncated p = Some true) front
          /\ l_IsTruncated final = Some false).
Proof.
  intros Hp Hfuel.
  exists (filter nonempty (map page_refs pages)).
  split; [|split; [|split; [|split; [|split]]]].
  - unfold list_versions_batches, list_versions.
    fold (first_request bucket batch_size).
    now rewrite (collect_pages pages fuel _ w w' [] Hp Hfuel).
  - reflexivity.
  - apply concat_filter_nonempty.
  - apply Forall_forall. intros b Hb. apply filter_In in Hb as [_ Hb].
    intros ->. discriminate Hb.
  - intros Hsize. apply Forall_forall. intros b Hb.
    apply filter_In in Hb as [Hb _]. apply in_map_iff in Hb as (p & <- & Hin).
    rewrite Forall_forall in Hsize. now apply Hsize.
  - eapply paginated_shape; eauto.
Qed.

End Enumeration.

Lemma list_versions_enumerates_witness :
  exists batches,
    Reclaim.list_versions_batches Script.client 3 "b" 2 Script.three_pages =
      (Script.silent [] Script.start,
       Reclaim.request_trace (Reclaim.first_request "b" 2) Script.three_answers,
       Ret batches)
    /\ batches = filter Reclaim.nonempty
                   (map Reclaim.page_refs Script.three_answers)
    /\ concat batches = concat (map Reclaim.page_refs Script.three_answers)
    /\ Forall (fun b => b <> []) batches
    /\ (Forall (fun p => Z.of_nat (length (Reclaim.page_refs p)) <= 2)
               Script.three_answers ->
        Forall (fun b => Z.of_nat (length b) <= 2) batches)
    /\ (exists front final,
          Script.three_answers = front ++ [final]
          /\ Forall (fun p => Reclaim.l_IsTruncated p = Some true) front
          /\ Reclaim.l_IsTruncated final = Some false).
Proof.
  apply (list_versions_enumerates Script.client 3 "b" 2 Script.three_pages
           (Script.silent [] Script.start) Script.three_answers).
  - eapply Reclaim.paginated_more; [reflexivity | reflexivity |].
    eapply Reclaim.paginated_more; [reflexivity | reflexivity |].
    eapply Reclaim.paginated_last; reflexivity.
  - cbn. lia.
Defined.

(** C4, as stated, fails when the service answers a request for two entries
    with a page of three: the listing is a single page that is not
    truncated, and [list_versions] yields its three references as one batch,
    larger than [batch_size]. *)
Lemma list_versions_yields_oversized_batch :
  Reclaim.paginated Script.client (Reclaim.first_request "b" 2)
    Script4.oversized [Script4.oversized_page] (Script.silent [] Script.start)
  /\ Reclaim.list_versions_batches Script.client 3 "b" 2 Script4.oversized =
     (Script.silent [] Script.start,
      [Reclaim.EListObjectVersions (Reclaim.first_request "b" 2)
         (inr Script4.oversized_page)],
      Ret [[{| Reclaim.Key := "a"; Reclaim.VersionId := "1" |};
            {| Reclaim.Key := "b"; Reclaim.VersionId := "1" |};
            {| Reclaim.Key := "c"; Reclaim.VersionId := "1" |}]])
  /\ ~ (forall batches,
          result_of (Reclaim.list_versions_batches Script.client 3 "b" 2
                       Script4.oversized) = Ret batches ->
          Forall (fun b => Z.of_nat (length b) <= 2) batches).
Proof.
  split; [|split].
  - apply Reclaim.paginated_last; reflexivity.
  - reflexivity.
  - intros H. specialize (H _ eq_refl).
    inversion H as [|b bs Hb _]. vm_compute in Hb. now apply Hb.
Qed.

(** ** Reclamation of one bucket *)

Section Reclamation.
Import Reclaim.
Context {W : Type} (client : Client W).

(** *** Which calls a pass makes *)

Lemma check_error_events (bucket : string) (err : DeleteError)
    (m : option Z) (w : W) :
  Forall (fun ev => is_object_call ev = true)
         (trace_of (check_error client bucket err m w)).
Proof.
  unfold check_error.
  destruct (negb (code_is "AccessDenied" (de_Code err))); [constructor|].
  unfold try_except, bind, api, trace_of.
  destruct (get_object_retention client bucket _ _ w) as [w1 [e|d]]; cbn.
  - destruct (is_ClientError e); cbn; repeat constructor.
  - destruct m as [m|]; [destruct (m <? d)|]; cbn; repeat constructor.
Qed.

Lemma for_in_events {A B} (P : event -> Prop)
    (body : B -> A -> M W event A) :
  (forall x acc w, Forall P (trace_of (body x acc w))) ->
  forall xs acc w, Forall P (trace_of (for_in xs body acc w)).
Proof.
  intros Hbody. induction xs as [|x xs IH]; intros acc w.
  - constructor.
  - rewrite for_in_cons. specialize (Hbody x acc w).
    destruct (body x acc w) as [[w1 t1] [acc'| |]]; cbn in *; try assumption.
    specialize (IH acc' w1).
    destruct (for_in xs body acc' w1) as [[w2 t2] r2]; cbn in *.
    apply Forall_app; split; assumption.
Qed.

Lemma delete_and_check_events (bucket : string) (objects : list ObjectRef)
    (m : option Z) (w : W) :
  Forall (fun ev => is_object_call ev = true)
         (trace_of (delete_and_check client bucket objects m w)).
Proof.
  unfold delete_and_check, bind, api.
  destruct (delete_objects client bucket objects true true w) as [w1 [e|resp]].
  - repeat constructor.
  - pose proof (for_in_events _ _ (check_error_events bucket)
                  (get_default (dr_Errors resp) []) m w1) as H.
    destruct (for_in _ _ m w1) as [[w2 t2] r2]; cbn in *.
    constructor; [reflexivity | assumption].
Qed.

Lemma delete_again_events (bucket : string) (objects : list ObjectRef)
    (u : unit) (w : W) :
  Forall (fun ev => is_object_call ev = true)
         (trace_of (delete_again client bucket objects u w)).
Proof.
  unfold delete_again, bind, api.
  destruct (delete_objects client bucket objects true true w) as [w1 [e|resp]];
    repeat constructor.
Qed.

Lemma list_versions_loop_events {A} (P : event -> Prop)
    (body : list ObjectRef -> A -> M W event A) :
  (forall kw r, P (EListObjectVersions kw r)) ->
  (forall objects acc w, Forall P (trace_of (body objects acc w))) ->
  forall fuel kw acc w,
    Forall P (trace_of (list_versions_loop client fuel kw body acc w)).
Proof.
  intros Hlist Hbody. induction fuel as [|fuel IH]; intros kw acc w.
  - constructor.
  - destruct (list_object_versions client kw w) as [w1 [e|p]] eqn:Hcall.
    + cbn [list_versions_loop]. unfold bind at 1, api at 1. rewrite Hcall.
      repeat constructor. apply Hlist.
    + destruct (l_IsTruncated p) as [truncated|] eqn:Htr.
      * rewrite (list_versions_loop_answered _ _ _ _ _ _ _ _ _ Hcall Htr).
        assert (Hb : Forall P
                  (trace_of ((if 0 <? Z.of_nat (length (page_refs p))
                              then body (page_refs p) acc else ret acc) w1))).
        { destruct (0 <? Z.of_nat (length (page_refs p)));
            [apply Hbody | constructor]. }
        destruct ((if 0 <? Z.of_nat (length (page_refs p))
                   then body (page_refs p) acc else ret acc) w1)
          as [[w2 t2] [acc'| |]]; cbn in Hb |- *;
          try (constructor; [apply Hlist | assumption]).
        destruct truncated.
        -- specialize (IH (follow_up kw p) acc' w2).
           destruct (list_versions_loop client fuel _ body acc' w2)
             as [[w3 t3] r3]; cbn in IH |- *.
           constructor; [apply Hlist | apply Forall_app; split; assumption].
        -- cbn. constructor; [apply Hlist |]. now rewrite app_nil_r.
      * cbn [list_versions_loop]. unfold bind at 1, api at 1. rewrite Hcall.
        unfold bind at 1. rewrite Htr. cbn. repeat constructor. apply Hlist.
Qed.

Lemma nuke_pass1_events (fuel : nat) (bucket : string) (w : W) :
  Forall (fun ev => is_object_call ev = true)
         (trace_of (nuke_pass1 client fuel bucket w)).
Proof.
  apply list_versions_loop_events; [reflexivity|].
  apply delete_and_check_events.
Qed.

Lemma nuke_pass2_events (fuel : nat) (bucket : string) (w : W) :
  Forall (fun ev => is_object_call ev = true)
         (trace_of (nuke_pass2 client fuel bucket w)).
Proof.
  apply list_versions_loop_events; [reflexivity|].
  apply delete_again_events.
Qed.

Lemma object_calls_no_sleep (t : list event) :
  Forall (fun ev => is_object_call ev = true) t -> sleeps t = [].
Proof.
  induction 1 as [|ev t Hev _ IH]; [reflexivity|].
  destruct ev; try discriminate Hev; exact IH.
Qed.

Lemma object_calls_quiet (t : list event) :
  Forall (fun ev => is_object_call ev = true) t ->
  Forall (fun ev => is_sleep ev = false /\ is_delete_bucket ev = false) t.
Proof.
  apply Forall_impl. intros ev Hev. destruct ev; try discriminate Hev; auto.
Qed.

Lemma sleeps_app (t1 t2 : list event) :
  sleeps (t1 ++ t2) = sleeps t1 ++ sleeps t2.
Proof. unfold sleeps. apply flat_map_app. Qed.

Lemma second_pass_and_delete_no_sleep (fuel : nat) (bucket : string) (w : W) :
  sleeps (trace_of (second_pass_and_delete client fuel bucket w)) = [].
Proof.
  unfold second_pass_and_delete, bind.
  pose proof (nuke_pass2_events fuel bucket w) as H.
  destruct (nuke_pass2 client fuel bucket w) as [[w1 t1] [[]| |]]; cbn in *;
    try (now apply object_calls_no_sleep).
  unfold api. destruct (delete_bucket client bucket w1) as [w2 r]. cbn.
  rewrite sleeps_app, (object_calls_no_sleep _ H). reflexivity.
Qed.

(** *** After pass 1 *)

Lemma nuke_bucket_hold (fuel : nat) (bucket : string) (w w1 : W)
    (t1 : list event) (m : Z) :
  nuke_pass1 client fuel bucket w = (w1, t1, Ret (Some m)) ->
  nuke_bucket client fuel bucket w =
  let '(w2, t2, r) :=
    bind (wait_out client bucket m (clock client w1))
         (fun _ => second_pass_and_delete client fuel bucket) w1 in
  (w2, t1 ++ ENow (clock client w1) :: t2, r).
Proof.
  intros H1. unfold nuke_bucket. unfold bind at 1. rewrite H1.
  unfold second_pass_and_delete, bind, datetime_now.
  destruct (wait_out client bucket m (clock client w1) w1)
    as [[w2 t2] [[]| |]]; cbn; try reflexivity.
  destruct (nuke_pass2 client fuel bucket w2) as [[w3 t3] [[]| |]]; cbn;
    try reflexivity.
  destruct (api (delete_bucket client bucket) (EDeleteBucket bucket) w3)
    as [[w4 t4] r4]; cbn.
  now rewrite <- !app_assoc.
Qed.

(** *** The second pass *)

Lemma batch_deleted_run (bucket : string) (p : Listing) (w w' : W)
    (td : list event) :
  ReclaimPass.batch_deleted client bucket p w td w' ->
  (if 0 <? Z.of_nat (length (page_refs p))
   then delete_again client bucket (page_refs p) tt
   else ret tt) w = (w', td, Ret tt)
  /\ ReclaimPass.listings td = 0%nat.
Proof.
  destruct 1 as [w Hnone | w w' resp Hsome Hdel].
  - rewrite Hnone. split; reflexivity.
  - assert (Hsize : (0 <? Z.of_nat (length (page_refs p))) = true).
    { destruct (page_refs p); [contradiction | reflexivity]. }
    rewrite Hsize. unfold delete_again, bind, api. rewrite Hdel.
    split; reflexivity.
Qed.

Lemma listings_step (kw : ListKwargs) (r : exn + Listing)
    (td t : list event) :
  ReclaimPass.listings td = 0%nat ->
  ReclaimPass.listings (EListObjectVersions kw r :: td ++ t)
  = S (ReclaimPass.listings t).
Proof.
  unfold ReclaimPass.listings. intros Htd. cbn.
  now rewrite filter_app, length_app, Htd.
Qed.

(** A sweep is what the second pass does when the service answers it. *)
Lemma pass_swept (bucket : string) (kw : ListKwargs) (w w' : W)
    (t : list event) :
  ReclaimPass.swept client bucket kw w t w' ->
  forall fuel,
    (ReclaimPass.listings t <= fuel)%nat ->
    list_versions_loop client fuel kw (delete_again client bucket) tt w
    = (w', t, Ret tt).
Proof.
  induction 1 as [kw w p w1 td w2 Hcall Htr Hdel
                 |kw w p w1 td w2 t w3 Hcall Htr Hdel Hrest IH];
    intros fuel Hfuel;
    destruct (batch_deleted_run _ _ _ _ _ Hdel) as [Hrun Htd].
  - rewrite <- (app_nil_r td) in Hfuel. rewrite listings_step in Hfuel
      by exact Htd.
    destruct fuel as [|fuel]; [lia|].
    rewrite (list_versions_loop_answered _ _ _ _ _ _ _ _ _ Hcall Htr), Hrun.
    now rewrite app_nil_r.
  - rewrite listings_step in Hfuel by exact Htd.
    destruct fuel as [|fuel]; [lia|].
    rewrite (list_versions_loop_answered _ _ _ _ _ _ _ _ _ Hcall Htr), Hrun.
    now rewrite IH by lia.
Qed.

Lemma second_pass_and_delete_swept (fuel : nat) (bucket : string)
    (w w' : W) (t : list event) :
  ReclaimPass.swept client bucket (first_request bucket 128) w t w' ->
  (ReclaimPass.listings t <= fuel)%nat ->
  second_pass_and_delete client fuel bucket w =
  let '(w2, r) := delete_bucket client bucket w' in
  (w2, t ++ [EDeleteBucket bucket r],
   match r with inl e => Raise e | inr _ => Ret tt end).
Proof.
  intros Hswept Hfuel. unfold second_pass_and_delete, nuke_pass2, list_versions.
  unfold bind at 1.
  change {| kw_Bucket := bucket; kw_MaxKeys := batch_size;
            kw_KeyMarker := None; kw_VersionIdMarker := None |}
    with (first_request bucket 128).
  rewrite (pass_swept _ _ _ _ _ Hswept fuel Hfuel). unfold api.
  destruct (delete_bucket client bucket w') as [w2 [e|[]]]; reflexivity.
Qed.

(** The second pass starts by listing the versions of the bucket anew, with
    no marker. *)
Lemma second_pass_and_delete_starts (fuel : nat) (bucket : string) (w : W) :
  exists t',
    trace_of (second_pass_and_delete client (S fuel) bucket w) =
    EListObjectVersions (first_request bucket 128)
      (snd (list_object_versions client (first_request bucket 128) w))
    :: t'.
Proof.
  assert (H1 : exists ta,
             trace_of (second_pass_and_delete client (S fuel) bucket w) =
             trace_of (nuke_pass2 client (S fuel) bucket w) ++ ta)
    by (unfold second_pass_and_delete; apply bind_trace).
  assert (H2 : exists tb,
             trace_of (nuke_pass2 client (S fuel) bucket w) =
             trace_of (api (list_object_versions client
                              (first_request bucket 128))
                           (EListObjectVersions (first_request bucket 128))
                           w) ++ tb)
    by (unfold nuke_pass2, list_versions; cbn [list_versions_loop];
        apply bind_trace).
  destruct H1 as [ta H1]. destruct H2 as [tb H2].
  rewrite H2 in H1. unfold api, trace_of in H1 |- *.
  destruct (list_object_versions client (first_request bucket 128) w)
    as [w0 r0].
  cbn in H1 |- *. rewrite H1. eauto.
Qed.

Lemma nuke_pass1_needs_fuel (fuel : nat) (bucket : string) (w w1 : W)
    (t1 : list event) (hold : option Z) :
  nuke_pass1 client fuel bucket w = (w1, t1, Ret hold) ->
  exists fuel', fuel = S fuel'.
Proof.
  destruct fuel as [|fuel']; [discriminate | eauto].
Qed.

(** What follows the wait when a hold is at most 60 seconds ahead. *)
Lemma nuke_bucket_after_wait (fuel : nat) (bucket : string) (w w1 : W)
    (t1 : list event) (m : Z) :
  nuke_pass1 client fuel bucket w = (w1, t1, Ret (Some m)) ->
  m - clock client w1 <= seconds 60 ->
  let waits := if clock client w1 <? m
               then [ESleep (m - clock client w1)] else [] in
  let w1' := if clock client w1 <? m
             then sleep client (m - clock client w1) w1 else w1 in
  nuke_bucket client fuel bucket w =
    (let '(w2, t2, r) := second_pass_and_delete client fuel bucket w1' in
     (w2, t1 ++ ENow (clock client w1) :: waits ++ t2, r))
  /\ (exists t',
        trace_of (nuke_bucket client fuel bucket w) =
        t1 ++ ENow (clock client w1) :: waits
        ++ EListObjectVersions (first_request bucket 128)
             (snd (list_object_versions client (first_request bucket 128)
                     w1'))
           :: t')
  /\ (forall t2 w2,
        ReclaimPass.swept client bucket (first_request bucket 128) w1' t2 w2 ->
        (ReclaimPass.listings t2 <= fuel)%nat ->
        nuke_bucket client fuel bucket w =
        let '(w3, r) := delete_bucket client bucket w2 in
        (w3, t1 ++ ENow (clock client w1) :: waits
                ++ t2 ++ [EDeleteBucket bucket r],
         match r with inl e => Raise e | inr _ => Ret tt end)).
Proof.
  intros H1 Hdelta waits w1'.
  assert (Heq : nuke_bucket client fuel bucket w =
            (let '(w2, t2, r) :=
               second_pass_and_delete client fuel bucket w1' in
             (w2, t1 ++ ENow (clock client w1) :: waits ++ t2, r))).
  { rewrite (nuke_bucket_hold _ _ _ _ _ _ H1).
    unfold bind at 1, wait_out. subst waits w1'.
    destruct (clock client w1 <? m).
    - replace (seconds 60 <? m - clock client w1) with false
        by (symmetry; apply Z.ltb_ge; lia).
      unfold time_sleep.
      now destruct (second_pass_and_delete client fuel bucket _)
        as [[w2 t2] r].
    - cbn [ret].
      now destruct (second_pass_and_delete client fuel bucket w1)
        as [[w2 t2] r]. }
  split; [exact Heq|]. split.
  - destruct (nuke_pass1_needs_fuel _ _ _ _ _ _ H1) as [fuel' ->].
    destruct (second_pass_and_delete_starts fuel' bucket w1') as [t' Ht'].
    rewrite Heq.
    destruct (second_pass_and_delete client (S fuel') bucket w1')
      as [[w2 t2] r].
    unfold trace_of in *. cbn [fst snd] in *. rewrite Ht'. eauto.
  - intros t2 w2 Hswept Hfuel. rewrite Heq.
    rewrite (second_pass_and_delete_swept _ _ _ _ _ Hswept Hfuel).
    now destruct (delete_bucket client bucket w2) as [w3 r].
Qed.

(** C1 (amended). The second pass is made only after a hold that is at most
    60 seconds ahead.  When pass 1 discovers no retention date, the bucket
    is deleted right after pass 1, with no second listing and no second
    delete.  When it discovers one that is more than 60 seconds ahead,
    nothing follows the reading of the clock but the error.  When it
    discovers one that is at most 60 seconds ahead, the reading of the clock
    and the wait, if any, are followed by a new listing of the bucket from
    its start, and, when the service answers it, by the whole sweep of
    listings and batched deletes and then by the deletion of the bucket. *)
Theorem nuke_bucket_second_pass_needs_hold (fuel : nat) (bucket : string)
    (w w1 : W) (t1 : list event) (hold : option Z) :
  nuke_pass1 client fuel bucket w = (w1, t1, Ret hold) ->
  match hold with
  | None =>
      nuke_bucket client fuel bucket w =
      let '(w2, r) := delete_bucket client bucket w1 in
      (w2, t1 ++ [EDeleteBucket bucket r],
       match r with inl e => Raise e | inr _ => Ret tt end)
  | Some m =>
      (seconds 60 < m - clock client w1 ->
       nuke_bucket client fuel bucket w =
       (w1, t1 ++ [ENow (clock client w1)],
        Raise (RuntimeError bucket (m - clock client w1))))
      /\ (m - clock client w1 <= seconds 60 ->
          exists w1' waits,
            nuke_bucket client fuel bucket w =
              (let '(w2, t2, r) :=
                 second_pass_and_delete client fuel bucket w1' in
               (w2, t1 ++ ENow (clock client w1) :: waits ++ t2, r))
            /\ ((waits = [] /\ w1' = w1)
                \/ (waits = [ESleep (m - clock client w1)]
                    /\ w1' = sleep client (m - clock client w1) w1))
            /\ (exists t',
                  trace_of (nuke_bucket client fuel bucket w) =
                  t1 ++ ENow (clock client w1) :: waits
                  ++ EListObjectVersions (first_request bucket 128)
                       (snd (list_object_versions client
                               (first_request bucket 128) w1'))
                     :: t')
            /\ (forall t2 w2,
                  ReclaimPass.swept client bucket (first_request bucket 128)
                    w1' t2 w2 ->
                  (ReclaimPass.listings t2 <= fuel)%nat ->
                  nuke_bucket client fuel bucket w =
                  let '(w3, r) := delete_bucket client bucket w2 in
                  (w3, t1 ++ ENow (clock client w1) :: waits
                          ++ t2 ++ [EDeleteBucket bucket r],
                   match r with inl e => Raise e | inr _ => Ret tt end)))
  end.
Proof.
  intros H1. destruct hold as [m|].
  - split.
    + intros Hdelta. rewrite (nuke_bucket_hold _ _ _ _ _ _ H1).
      unfold bind at 1, wait_out.
      replace (clock client w1 <? m) with true
        by (symmetry; apply Z.ltb_lt; unfold seconds in Hdelta; lia).
      replace (seconds 60 <? m - clock client w1) with true
        by (symmetry; apply Z.ltb_lt; lia).
      reflexivity.
    + intros Hdelta.
      destruct (nuke_bucket_after_wait _ _ _ _ _ _ H1 Hdelta)
        as (Heq & Hstart & Hsweep).
      exists (if clock client w1 <? m
              then sleep client (m - clock client w1) w1 else w1),
             (if clock client w1 <? m
              then [ESleep (m - clock client w1)] else []).
      repeat split; try assumption.
      destruct (clock client w1 <? m); [right | left]; now split.
  - unfold nuke_bucket. unfold bind at 1. rewrite H1.
    unfold bind, ret, api.
    destruct (delete_bucket client bucket w1) as [w2 [e|[]]]; reflexivity.
Qed.

(** C2. When the retention date pass 1 discovers is more than 60 seconds
    ahead of the clock, [nuke_bucket] raises the error that carries the name
    of the bucket and the remaining time, in the world pass 1 left; it has
    read the clock, and its whole trace holds no sleep and no call to delete
    the bucket. *)
Theorem nuke_bucket_fails_fast (fuel : nat) (bucket : string)
    (w w1 : W) (t1 : list event) (m : Z) :
  nuke_pass1 client fuel bucket w = (w1, t1, Ret (Some m)) ->
  seconds 60 < m - clock client w1 ->
  nuke_bucket client fuel bucket w =
    (w1, t1 ++ [ENow (clock client w1)],
     Raise (RuntimeError bucket (m - clock client w1)))
  /\ Forall (fun ev => is_sleep ev = false /\ is_delete_bucket ev = false)
            (trace_of (nuke_bucket client fuel bucket w)).
Proof.
  intros H1 Hdelta.
  assert (Heq : nuke_bucket client fuel bucket w =
                (w1, t1 ++ [ENow (clock client w1)],
                 Raise (RuntimeError bucket (m - clock client w1)))).
  { rewrite (nuke_bucket_hold _ _ _ _ _ _ H1).
    unfold bind at 1, wait_out.
    replace (clock client w1 <? m) with true
      by (symmetry; apply Z.ltb_lt; unfold seconds in Hdelta; lia).
    replace (seconds 60 <? m - clock client w1) with true
      by (symmetry; apply Z.ltb_lt; lia).
    reflexivity. }
  split; [exact Heq|].
  rewrite Heq. unfold trace_of. cbn [fst snd].
  apply Forall_app; split.
  - apply object_calls_quiet.
    pose proof (nuke_pass1_events fuel bucket w) as H. now rewrite H1 in H.
  - repeat constructor.
Qed.

(** C5. When pass 1 discovers a retention date: if it is ahead of the clock
    by at most 60 seconds, [nuke_bucket] sleeps once, for exactly the
    remaining time, and then makes the second pass and deletes the bucket;
    if it is not ahead of the clock, the second pass follows the reading of
    the clock with no sleep at all.  In both cases the second pass is a new
    listing of the bucket from its start, asked of the world the wait left,
    and, when the service answers it, the whole sweep of listings and
    batched deletes, after which the bucket is deleted. *)
Theorem nuke_bucket_waits_out_hold (fuel : nat) (bucket : string)
    (w w1 : W) (t1 : list event) (m : Z) :
  nuke_pass1 client fuel bucket w = (w1, t1, Ret (Some m)) ->
  (0 < m - clock client w1 <= seconds 60 ->
   nuke_bucket client fuel bucket w =
     (let '(w2, t2, r) :=
        second_pass_and_delete client fuel bucket
          (sleep client (m - clock client w1) w1) in
      (w2, t1 ++ ENow (clock client w1)
              :: ESleep (m - clock client w1) :: t2, r))
   /\ sleeps (trace_of (nuke_bucket client fuel bucket w))
      = [m - clock client w1]
   /\ (exists t',
         trace_of (nuke_bucket client fuel bucket w) =
         t1 ++ ENow (clock client w1) :: ESleep (m - clock client w1)
         :: EListObjectVersions (first_request bucket 128)
              (snd (list_object_versions client (first_request bucket 128)
                      (sleep client (m - clock client w1) w1)))
         :: t')
   /\ (forall t2 w2,
         ReclaimPass.swept client bucket (first_request bucket 128)
           (sleep client (m - clock client w1) w1) t2 w2 ->
         (ReclaimPass.listings t2 <= fuel)%nat ->
         nuke_bucket client fuel bucket w =
         let '(w3, r) := delete_bucket client bucket w2 in
         (w3, t1 ++ ENow (clock client w1) :: ESleep (m - clock client w1)
                 :: t2 ++ [EDeleteBucket bucket r],
          match r with inl e => Raise e | inr _ => Ret tt end)))
  /\ (m - clock client w1 <= 0 ->
      nuke_bucket client fuel bucket w =
        (let '(w2, t2, r) := second_pass_and_delete client fuel bucket w1 in
         (w2, t1 ++ ENow (clock client w1) :: t2, r))
      /\ sleeps (trace_of (nuke_bucket client fuel bucket w)) = []
      /\ (exists t',
            trace_of (nuke_bucket client fuel bucket w) =
            t1 ++ ENow (clock client w1)
            :: EListObjectVersions (first_request bucket 128)
                 (snd (list_object_versions client
                         (first_request bucket 128) w1))
            :: t')
      /\ (forall t2 w2,
            ReclaimPass.swept client bucket (first_request bucket 128)
              w1 t2 w2 ->
            (ReclaimPass.listings t2 <= fuel)%nat ->
            nuke_bucket client fuel bucket w =
            let '(w3, r) := delete_bucket client bucket w2 in
            (w3, t1 ++ ENow (clock client w1)
                    :: t2 ++ [EDeleteBucket bucket r],
             match r with inl e => Raise e | inr _ => Ret tt end))).
Proof.
  intros H1.
  assert (Hs1 : sleeps t1 = []).
  { apply object_calls_no_sleep.
    pose proof (nuke_pass1_events fuel bucket w) as H. now rewrite H1 in H. }
  split; intros Hdelta.
  - destruct (nuke_bucket_after_wait _ _ _ _ _ _ H1 ltac:(lia))
      as (Heq & Hstart & Hsweep).
    replace (clock client w1 <? m) with true in Heq, Hstart, Hsweep
      by (symmetry; apply Z.ltb_lt; lia).
    cbn [app] in Heq, Hstart, Hsweep.
    split; [exact Heq|]. split; [|split; [exact Hstart | exact Hsweep]].
    rewrite Heq.
    pose proof (second_pass_and_delete_no_sleep fuel bucket
                  (sleep client (m - clock client w1) w1)) as Hs2.
    destruct (second_pass_and_delete client fuel bucket _) as [[w2 t2] r].
    unfold trace_of in *. cbn [fst snd] in *.
    rewrite sleeps_app, Hs1. unfold sleeps in *. cbn. now rewrite Hs2.
  - destruct (nuke_bucket_after_wait _ _ _ _ _ _ H1
                ltac:(unfold seconds; lia))
      as (Heq & Hstart & Hsweep).
    replace (clock client w1 <? m) with false in Heq, Hstart, Hsweep
      by (symmetry; apply Z.ltb_ge; lia).
    cbn [app] in Heq, Hstart, Hsweep.
    split; [exact Heq|]. split; [|split; [exact Hstart | exact Hsweep]].
    rewrite Heq.
    pose proof (second_pass_and_delete_no_sleep fuel bucket w1) as Hs2.
    destruct (second_pass_and_delete client fuel bucket w1) as [[w2 t2] r].
    unfold trace_of in *. cbn [fst snd] in *.
    rewrite sleeps_app, Hs1. unfold sleeps in *. cbn. exact Hs2.
Qed.

End Reclamation.

Lemma nuke_bucket_second_pass_needs_hold_witness :
  trace_of (Reclaim.nuke_bucket Script.client 3 "b" Script.unlocked) =
  trace_of (Reclaim.nuke_pass1 Script.client 3 "b" Script.unlocked)
  ++ [Reclaim.EDeleteBucket "b" (inr tt)]
  /\ Reclaim.nuke_bucket Script.client 3 "b" (Script.locked 120) =
     (world_of (Reclaim.nuke_pass1 Script.client 3 "b" (Script.locked 120)),
      trace_of (Reclaim.nuke_pass1 Script.client 3 "b" (Script.locked 120))
      ++ [Reclaim.ENow Script.start],
      Raise (RuntimeError "b" (seconds 120)))
  /\ Reclaim.nuke_bucket Script.client 3 "b" (Script.locked 10) =
     (Script.silent [] (Script.start + seconds 10),
      trace_of (Reclaim.nuke_pass1 Script.client 3 "b" (Script.locked 10))
      ++ [Reclaim.ENow Script.start;
          Reclaim.ESleep (seconds 10);
          Reclaim.EListObjectVersions (Reclaim.first_request "b" 128)
            (inr (Script.page [Script.version "a" "1"] [] false None));
          Reclaim.EDeleteObjects "b"
            [{| Reclaim.Key := "a"; Reclaim.VersionId := "1" |}] true true
            (inr Script.no_errors);
          Reclaim.EDeleteBucket "b" (inr tt)],
      Ret tt).
Proof.
  split; [|split].
  - rewrite (nuke_bucket_second_pass_needs_hold Script.client 3 "b"
               Script.unlocked
               (world_of (Reclaim.nuke_pass1 Script.client 3 "b"
                            Script.unlocked))
               (trace_of (Reclaim.nuke_pass1 Script.client 3 "b"
                            Script.unlocked))
               None eq_refl).
    reflexivity.
  - exact (proj1 (nuke_bucket_second_pass_needs_hold Script.client 3 "b"
                    (Script.locked 120)
                    (world_of (Reclaim.nuke_pass1 Script.client 3 "b"
                                 (Script.locked 120)))
                    (trace_of (Reclaim.nuke_pass1 Script.client 3 "b"
                                 (Script.locked 120)))
                    (Some (Script.start + seconds 120)) eq_refl) eq_refl).
  - destruct (proj2 (nuke_bucket_second_pass_needs_hold Script.client 3 "b"
                       (Script.locked 10)
                       (world_of (Reclaim.nuke_pass1 Script.client 3 "b"
                                    (Script.locked 10)))
                       (trace_of (Reclaim.nuke_pass1 Script.client 3 "b"
                                    (Script.locked 10)))
                       (Some (Script.start + seconds 10)) eq_refl)
                ltac:(vm_compute; discriminate))
      as (w1' & waits & Heq & [[-> ->]|[-> ->]] & _ & Hsweep).
    + vm_compute in Heq. discriminate Heq.
    + etransitivity.
      { eapply Hsweep.
        - eapply ReclaimPass.swept_last;
            [reflexivity | reflexivity
            | eapply ReclaimPass.batch_some; [discriminate | reflexivity]].
        - vm_compute; lia. }
      reflexivity.
Defined.

(** C1, as stated, fails on a bucket with nothing locked: pass 1 discovers no
    hold, and [nuke_bucket] is not pass 1 followed by the second pass and the
    deletion of the bucket; its trace holds a single listing request. *)
Lemma nuke_bucket_no_hold_no_second_pass :
  result_of (Reclaim.nuke_pass1 Script.client 3 "b" Script.unlocked) = Ret None
  /\ Reclaim.nuke_bucket Script.client 3 "b" Script.unlocked <>
     (let '(w2, t2, r) :=
        Reclaim.second_pass_and_delete Script.client 3 "b"
          (world_of (Reclaim.nuke_pass1 Script.client 3 "b" Script.unlocked)) in
      (w2, trace_of (Reclaim.nuke_pass1 Script.client 3 "b" Script.unlocked)
           ++ t2, r))
  /\ length (filter Reclaim.is_listing
               (trace_of (Reclaim.nuke_bucket Script.client 3 "b"
                            Script.unlocked))) = 1%nat.
Proof.
  split; [reflexivity|]. split; [|reflexivity].
  vm_compute. discriminate.
Qed.

Lemma nuke_bucket_fails_fast_witness :
  result_of (Reclaim.nuke_bucket Script.client 3 "b" (Script.locked 120)) =
    Raise (RuntimeError "b" (seconds 120))
  /\ Forall (fun ev => Reclaim.is_sleep ev = false
                       /\ Reclaim.is_delete_bucket ev = false)
            (trace_of (Reclaim.nuke_bucket Script.client 3 "b"
                         (Script.locked 120))).
Proof.
  destruct (nuke_bucket_fails_fast Script.client 3 "b" (Script.locked 120)
              (world_of (Reclaim.nuke_pass1 Script.client 3 "b"
                           (Script.locked 120)))
              (trace_of (Reclaim.nuke_pass1 Script.client 3 "b"
                           (Script.locked 120)))
              (Script.start + seconds 120) eq_refl eq_refl)
    as [Heq Hquiet].
  split; [now rewrite Heq | exact Hquiet].
Defined.

Lemma nuke_bucket_waits_out_hold_witness :
  Script.sleeps_of_locked 10 = [seconds 10]
  /\ Script.sleeps_of_locked (-5) = []
  /\ Reclaim.nuke_bucket Script.client 3 "b" (Script.locked 10) =
     (Script.silent [] (Script.start + seconds 10),
      trace_of (Reclaim.nuke_pass1 Script.client 3 "b" (Script.locked 10))
      ++ [Reclaim.ENow Script.start;
          Reclaim.ESleep (seconds 10);
          Reclaim.EListObjectVersions (Reclaim.first_request "b" 128)
            (inr (Script.page [Script.version "a" "1"] [] false None));
          Reclaim.EDeleteObjects "b"
            [{| Reclaim.Key := "a"; Reclaim.VersionId := "1" |}] true true
            (inr Script.no_errors);
          Reclaim.EDeleteBucket "b" (inr tt)],
      Ret tt)
  /\ Reclaim.nuke_bucket Script.client 3 "b" (Script.locked (-5)) =
     (Script.silent [] Script.start,
      trace_of (Reclaim.nuke_pass1 Script.client 3 "b" (Script.locked (-5)))
      ++ [Reclaim.ENow Script.start;
          Reclaim.EListObjectVersions (Reclaim.first_request "b" 128)
            (inr (Script.page [Script.version "a" "1"] [] false None));
          Reclaim.EDeleteObjects "b"
            [{| Reclaim.Key := "a"; Reclaim.VersionId := "1" |}] true true
            (inr Script.no_errors);
          Reclaim.EDeleteBucket "b" (inr tt)],
      Ret tt).
Proof.
  destruct (nuke_bucket_waits_out_hold Script.client 3 "b"
              (Script.locked 10)
              (world_of (Reclaim.nuke_pass1 Script.client 3 "b"
                           (Script.locked 10)))
              (trace_of (Reclaim.nuke_pass1 Script.client 3 "b"
                           (Script.locked 10)))
              (Script.start + seconds 10) eq_refl) as [Hwait _].
  destruct (Hwait ltac:(vm_compute; split; [reflexivity | discriminate]))
    as (_ & Hsleeps & _ & Hsweep).
  destruct (nuke_bucket_waits_out_hold Script.client 3 "b"
              (Script.locked (-5))
              (world_of (Reclaim.nuke_pass1 Script.client 3 "b"
                           (Script.locked (-5))))
              (trace_of (Reclaim.nuke_pass1 Script.client 3 "b"
                           (Script.locked (-5))))
              (Script.start + seconds (-5)) eq_refl) as [_ Hpast].
  destruct (Hpast ltac:(vm_compute; discriminate))
    as (_ & Hsleeps' & _ & Hsweep').
  split; [exact Hsleeps|]. split; [exact Hsleeps'|]. split.
  - etransitivity.
    { eapply Hsweep.
      - eapply ReclaimPass.swept_last;
          [reflexivity | reflexivity
          | eapply ReclaimPass.batch_some; [discriminate | reflexivity]].
      - vm_compute; lia. }
    reflexivity.
  - etransitivity.
    { eapply Hsweep'.
      - eapply ReclaimPass.swept_last;
          [reflexivity | reflexivity
          | eapply ReclaimPass.batch_some; [discriminate | reflexivity]].
      - vm_compute; lia. }
    reflexivity.
Defined.

(** ** Retention probes *)

Section Probes.
Import Reclaim.
Context {W : Type} (client : Client W).

(** What [check_error] does with one error of a batched delete. *)
Lemma check_error_run (bucket : string) (err : DeleteError)
    (m : option Z) (w : W) :
  check_error client bucket err m w =
  if access_denied err
  then
    let '(w1, r) :=
      get_object_retention client bucket (de_Key err) (de_VersionId err) w in
    (w1, [EGetObjectRetention bucket (de_Key err) (de_VersionId err) r],
     match r with
     | inr d => Ret (later_of m d)
     | inl e => if is_ClientError e then Ret m else Raise e
     end)
  else (w, [], Ret m).
Proof.
  unfold check_error, access_denied, code_is.
  destruct (de_Code err) as [c|]; [|reflexivity].
  destruct (String.eqb c "AccessDenied"); [|reflexivity].
  cbn [negb]. unfold try_except, bind, api.
  destruct (get_object_retention client bucket _ _ w) as [w1 [e|d]].
  - destruct (is_ClientError e); reflexivity.
  - unfold later_of. destruct m as [m|]; [destruct (m <? d)|]; reflexivity.
Qed.

Lemma probes_app (t1 t2 : list event) :
  probes (t1 ++ t2) = probes t1 ++ probes t2.
Proof. apply flat_map_app. Qed.









(** *** Where a reclamation can be aborted *)

Lemma check_errors_raise (bucket : string) (errs : list DeleteError) :
  forall m w w1 t e,
    for_in errs (check_error client bucket) m w = (w1, t, Raise e) ->
    exists t0 ev, t = t0 ++ [ev] /\ swallowed_probe ev = false.
Proof.
  induction errs as [|err errs IH]; intros m w w1 t e Hrun;
    [discriminate Hrun|].
  rewrite for_in_cons, check_error_run in Hrun.
  destruct (access_denied err).
  - destruct (get_object_retention client bucket _ _ w) as [w0 [e0|d]].
    + destruct (is_ClientError e0) eqn:Hclass.
      * destruct (for_in errs _ m w0) as [[w2 t2] r2] eqn:Hrest.
        inversion Hrun; subst.
        destruct (IH _ _ _ _ _ Hrest) as (t0 & ev & -> & Hev).
        eexists (_ :: t0), ev. split; [reflexivity | exact Hev].
      * inversion Hrun; subst. eexists [], _. split; [reflexivity|].
        destruct e; try reflexivity. discriminate Hclass.
    + destruct (for_in errs _ (later_of m d) w0) as [[w2 t2] r2] eqn:Hrest.
      inversion Hrun; subst.
      destruct (IH _ _ _ _ _ Hrest) as (t0 & ev & -> & Hev).
      eexists (_ :: t0), ev. split; [reflexivity | exact Hev].
  - destruct (for_in errs _ m w) as [[w2 t2] r2] eqn:Hrest.
    inversion Hrun; subst. exact (IH _ _ _ _ _ Hrest).
Qed.

Lemma delete_and_check_raise (bucket : string) (objects : list ObjectRef)
    (m : option Z) (w w1 : W) (t : list event) (e : exn) :
  delete_and_check client bucket objects m w = (w1, t, Raise e) ->
  exists t0 ev, t = t0 ++ [ev] /\ swallowed_probe ev = false.
Proof.
  intros Hrun. unfold delete_and_check, bind, api in Hrun.
  destruct (delete_objects client bucket objects true true w)
    as [w0 [e0|resp]].
  - inversion Hrun; subst. now exists [], (EDeleteObjects bucket objects true
                                             true (inl e)).
  - destruct (for_in _ _ m w0) as [[w2 t2] r2] eqn:Herrs.
    inversion Hrun; subst.
    destruct (check_errors_raise _ _ _ _ _ _ _ Herrs) as (t0 & ev & -> & Hev).
    eexists (_ :: t0), ev. split; [reflexivity | exact Hev].
Qed.

Lemma delete_again_raise (bucket : string) (objects : list ObjectRef)
    (u : unit) (w w1 : W) (t : list event) (e : exn) :
  delete_again client bucket objects u w = (w1, t, Raise e) ->
  exists t0 ev, t = t0 ++ [ev] /\ swallowed_probe ev = false.
Proof.
  intros Hrun. unfold delete_again, bind, api in Hrun.
  destruct (delete_objects client bucket objects true true w)
    as [w0 [e0|resp]]; inversion Hrun; subst.
  now exists [], (EDeleteObjects bucket objects true true (inl e)).
Qed.

Lemma list_versions_loop_raise {A}
    (body : list ObjectRef -> A -> M W event A) :
  (forall objects acc w w1 t e,
      body objects acc w = (w1, t, Raise e) ->
      exists t0 ev, t = t0 ++ [ev] /\ swallowed_probe ev = false) ->
  forall fuel kw acc w w1 t e,
    list_versions_loop client fuel kw body acc w = (w1, t, Raise e) ->
    exists t0 ev, t = t0 ++ [ev] /\ swallowed_probe ev = false.
Proof.
  intros Hbody. induction fuel as [|fuel IH]; intros kw acc w w1 t e Hrun;
    [discriminate Hrun|].
  destruct (list_object_versions client kw w) as [w0 [e0|p]] eqn:Hcall.
  - cbn [list_versions_loop] in Hrun. unfold bind at 1, api at 1 in Hrun.
    rewrite Hcall in Hrun. inversion Hrun; subst.
    now exists [], (EListObjectVersions kw (inl e)).
  - destruct (l_IsTruncated p) as [truncated|] eqn:Htr.
    + rewrite (list_versions_loop_answered _ _ _ _ _ _ _ _ _ Hcall Htr)
        in Hrun.
      destruct ((if 0 <? Z.of_nat (length (page_refs p))
                 then body (page_refs p) acc else ret acc) w0)
        as [[w2 t2] [acc'|e2|]] eqn:Hb; [| |discriminate Hrun].
      * destruct truncated; [|discriminate Hrun].
        destruct (list_versions_loop client fuel _ body acc' w2)
          as [[w3 t3] r3] eqn:Hrest.
        inversion Hrun; subst.
        destruct (IH _ _ _ _ _ _ Hrest) as (t0 & ev & -> & Hev).
        exists (EListObjectVersions kw (inr p) :: t2 ++ t0), ev.
        split; [|exact Hev]. cbn. now rewrite app_assoc.
      * inversion Hrun; subst.
        destruct (0 <? Z.of_nat (length (page_refs p)));
          [|discriminate Hb].
        destruct (Hbody _ _ _ _ _ _ Hb) as (t0 & ev & -> & Hev).
        eexists (_ :: t0), ev. split; [reflexivity | exact Hev].
    + cbn [list_versions_loop] in Hrun. unfold bind at 1, api at 1 in Hrun.
      rewrite Hcall in Hrun. unfold bind at 1 in Hrun. rewrite Htr in Hrun.
      inversion Hrun; subst.
      now exists [], (EListObjectVersions kw (inr p)).
Qed.

Lemma second_pass_and_delete_raise (fuel : nat) (bucket : string)
    (w w1 : W) (t : list event) (e : exn) :
  second_pass_and_delete client fuel bucket w = (w1, t, Raise e) ->
  exists t0 ev, t = t0 ++ [ev] /\ swallowed_probe ev = false.
Proof.
  intros Hrun. unfold second_pass_and_delete, bind in Hrun.
  destruct (nuke_pass2 client fuel bucket w) as [[w2 t2] [[]|e2|]] eqn:Hp2;
    [| |discriminate Hrun].
  - unfold api in Hrun.
    destruct (delete_bucket client bucket w2) as [w3 r3].
    inversion Hrun; subst. now exists t2, (EDeleteBucket bucket r3).
  - inversion Hrun; subst.
    exact (list_versions_loop_raise _ (delete_again_raise bucket)
             _ _ _ _ _ _ _ Hp2).
Qed.

Lemma nuke_bucket_raise (fuel : nat) (bucket : string)
    (w w1 : W) (t : list event) (e : exn) :
  nuke_bucket client fuel bucket w = (w1, t, Raise e) ->
  exists t0 ev, t = t0 ++ [ev] /\ swallowed_probe ev = false.
Proof.
  intros Hrun.
  destruct (nuke_pass1 client fuel bucket w) as [[wa ta] [[m|]|ea|]] eqn:Hp1.
  - rewrite (nuke_bucket_hold _ _ _ _ _ _ _ Hp1) in Hrun.
    unfold bind at 1, wait_out in Hrun.
    destruct (clock client wa <? m);
      [destruct (seconds 60 <? m - clock client wa)|].
    + inversion Hrun; subst. eexists _, _. split; reflexivity.
    + unfold time_sleep in Hrun.
      destruct (second_pass_and_delete client fuel bucket _)
        as [[wc tc] rc] eqn:Hrest.
      inversion Hrun; subst.
      destruct (second_pass_and_delete_raise _ _ _ _ _ _ Hrest)
        as (t0 & ev & -> & Hev).
      eexists (ta ++ ENow _ :: ESleep _ :: t0), ev.
      split; [|exact Hev]. rewrite <- app_assoc. reflexivity.
    + cbn [ret] in Hrun.
      destruct (second_pass_and_delete client fuel bucket wa)
        as [[wc tc] rc] eqn:Hrest.
      inversion Hrun; subst.
      destruct (second_pass_and_delete_raise _ _ _ _ _ _ Hrest)
        as (t0 & ev & -> & Hev).
      eexists (ta ++ ENow _ :: t0), ev.
      split; [|exact Hev]. rewrite <- app_assoc. reflexivity.
  - unfold nuke_bucket in Hrun. unfold bind at 1 in Hrun. rewrite Hp1 in Hrun.
    unfold bind, ret, api in Hrun.
    destruct (delete_bucket client bucket wa) as [wb rb].
    inversion Hrun; subst. now exists ta, (EDeleteBucket bucket rb).
  - unfold nuke_bucket in Hrun. unfold bind at 1 in Hrun. rewrite Hp1 in Hrun.
    inversion Hrun; subst.
    exact (list_versions_loop_raise _ (delete_and_check_raise bucket)
             _ _ _ _ _ _ _ Hp1).
  - unfold nuke_bucket in Hrun. unfold bind at 1 in Hrun. rewrite Hp1 in Hrun.
    discriminate Hrun.
Qed.

(** *** Where a reclamation stops *)

Lemma stops_ret {A} (f : event -> option exn) (t : list event) (a : A) :
  ReclaimPass.stops_at f t (Ret a) -> Forall (fun ev => f ev = None) t.
Proof.
  intros [H|(t0 & ev & e & _ & _ & _ & H)]; [exact H | discriminate H].
Qed.

Lemma stops_retype {A B} (f : event -> option exn) (t : list event)
    (r : outcome A) (r' : outcome B) :
  (forall e, r = Raise e -> r' = Raise e) ->
  ReclaimPass.stops_at f t r -> ReclaimPass.stops_at f t r'.
Proof.
  intros Hr [H|(t0 & ev & e & -> & Hall & Hev & Hraise)]; [now left|].
  right. exists t0, ev, e. auto.
Qed.

Lemma stops_app {A} (f : event -> option exn) (t1 t2 : list event)
    (r : outcome A) :
  Forall (fun ev => f ev = None) t1 ->
  ReclaimPass.stops_at f t2 r -> ReclaimPass.stops_at f (t1 ++ t2) r.
Proof.
  intros H1 [H2|(t0 & ev & e & -> & Hall & Hev & ->)].
  - left. apply Forall_app. now split.
  - right. exists (t1 ++ t0), ev, e. rewrite app_assoc.
    repeat split; auto. apply Forall_app. now split.
Qed.

Lemma stops_bind {A B} (f : event -> option exn) (m : M W event A)
    (k : A -> M W event B) (w : W) :
  ReclaimPass.stops_at f (trace_of (m w)) (result_of (m w)) ->
  (forall a w1,
      ReclaimPass.stops_at f (trace_of (k a w1)) (result_of (k a w1))) ->
  ReclaimPass.stops_at f (trace_of (bind m k w)) (result_of (bind m k w)).
Proof.
  unfold bind, trace_of, result_of. intros Hm Hk.
  destruct (m w) as [[w1 t1] [a|e|]]; cbn [fst snd] in *.
  - specialize (Hk a w1). destruct (k a w1) as [[w2 t2] r2].
    cbn [fst snd] in *. apply stops_app; [|exact Hk].
    exact (stops_ret _ _ _ Hm).
  - revert Hm. apply stops_retype. intros e0 H. now inversion H.
  - revert Hm. apply stops_retype. intros e0 H. discriminate H.
Qed.

Lemma stops_api {A} (f : event -> option exn) (op : W -> W * (exn + A))
    (ev : exn + A -> event) (w : W) :
  (forall a, f (ev (inr a)) = None) ->
  (forall e, f (ev (inl e)) = Some e) ->
  ReclaimPass.stops_at f (trace_of (api op ev w)) (result_of (api op ev w)).
Proof.
  intros Hok Hfail. unfold api, trace_of, result_of.
  destruct (op w) as [w1 [e|a]]; cbn [fst snd].
  - right. exists [], (ev (inl e)), e. repeat split; auto.
  - left. repeat constructor. apply Hok.
Qed.

Lemma stops_for_in {A B} (f : event -> option exn)
    (body : B -> A -> M W event A) :
  (forall x acc w,
      ReclaimPass.stops_at f (trace_of (body x acc w))
        (result_of (body x acc w))) ->
  forall xs acc w,
    ReclaimPass.stops_at f (trace_of (for_in xs body acc w))
      (result_of (for_in xs body acc w)).
Proof.
  intros Hbody. induction xs as [|x xs IH]; intros acc w.
  - left. constructor.
  - cbn [for_in]. apply stops_bind; [apply Hbody|]. intros a w1. apply IH.
Qed.

Lemma list_versions_loop_stops {A} (f : event -> option exn)
    (body : list ObjectRef -> A -> M W event A) :
  (forall kw p, f (EListObjectVersions kw (inr p)) = None) ->
  (forall kw e, f (EListObjectVersions kw (inl e)) = Some e) ->
  (forall objects acc w,
      ReclaimPass.stops_at f (trace_of (body objects acc w))
        (result_of (body objects acc w))) ->
  forall fuel kw acc w,
    ReclaimPass.stops_at f
      (trace_of (list_versions_loop client fuel kw body acc w))
      (result_of (list_versions_loop client fuel kw body acc w)).
Proof.
  intros Hok Hfail Hbody. induction fuel as [|fuel IH]; intros kw acc w.
  - left. constructor.
  - cbn [list_versions_loop].
    apply stops_bind; [apply stops_api; [apply Hok | apply Hfail]|].
    intros listing w1. apply stops_bind.
    { destruct (l_IsTruncated listing); left; constructor. }
    intros truncated w2. apply stops_bind.
    { destruct (0 <? Z.of_nat (length _));
        [apply Hbody | left; constructor]. }
    intros acc' w3. destruct truncated; [apply IH | left; constructor].
Qed.

Lemma check_error_stops (bucket : string) (err : DeleteError)
    (m : option Z) (w : W) :
  ReclaimPass.stops_at ReclaimPass.fatal
    (trace_of (check_error client bucket err m w))
    (result_of (check_error client bucket err m w)).
Proof.
  rewrite check_error_run. destruct (access_denied err).
  - destruct (get_object_retention client bucket _ _ w) as [w1 [e|d]].
    + destruct e; cbn;
        try (right; eexists [], _, _; repeat split; constructor).
      left. repeat constructor.
    + left. repeat constructor.
  - left. constructor.
Qed.

Lemma delete_and_check_stops (bucket : string) (objects : list ObjectRef)
    (m : option Z) (w : W) :
  ReclaimPass.stops_at ReclaimPass.fatal
    (trace_of (delete_and_check client bucket objects m w))
    (result_of (delete_and_check client bucket objects m w)).
Proof.
  unfold delete_and_check. apply stops_bind.
  - now apply stops_api.
  - intros resp w1. apply stops_for_in. apply check_error_stops.
Qed.

Lemma delete_again_stops (bucket : string) (objects : list ObjectRef)
    (u : unit) (w : W) :
  ReclaimPass.stops_at ReclaimPass.fatal
    (trace_of (delete_again client bucket objects u w))
    (result_of (delete_again client bucket objects u w)).
Proof.
  unfold delete_again. apply stops_bind.
  - now apply stops_api.
  - intros resp w1. left. constructor.
Qed.

(** Every failure of a call of [nuke_bucket], but that of a probe answered
    with a [ClientError], is the last call [nuke_bucket] makes, and what it
    raises. *)
Lemma nuke_bucket_stops (fuel : nat) (bucket : string) (w : W) :
  ReclaimPass.stops_at ReclaimPass.fatal
    (trace_of (nuke_bucket client fuel bucket w))
    (result_of (nuke_bucket client fuel bucket w)).
Proof.
  unfold nuke_bucket. apply stops_bind.
  { apply list_versions_loop_stops; try reflexivity.
    apply delete_and_check_stops. }
  intros hold w1. apply stops_bind; [|intros; now apply stops_api].
  destruct hold as [m|]; [|left; constructor].
  apply stops_bind; [left; repeat constructor|].
  intros now w2. apply stops_bind.
  { unfold wait_out.
    destruct (now <? m); [destruct (seconds 60 <? m - now)|];
      left; repeat constructor. }
  intros [] w3. apply list_versions_loop_stops; try reflexivity.
  apply delete_again_stops.
Qed.

Lemma stops_at_occurrence {A} (f : event -> option exn) (t : list event)
    (r : outcome A) (t0 t1 : list event) (ev : event) (e : exn) :
  ReclaimPass.stops_at f t r ->
  t = t0 ++ ev :: t1 ->
  f ev = Some e ->
  t1 = [] /\ r = Raise e.
Proof.
  intros [Hall|(t0' & ev' & e' & -> & Hall & Hev' & ->)] Ht Hev.
  - subst t. apply Forall_app in Hall as [_ Hall].
    inversion Hall as [|x xs Hx _]. congruence.
  - destruct t1 as [|y ys].
    + apply app_inj_tail in Ht as [_ ->]. split; congruence.
    + destruct (@exists_last _ (y :: ys) ltac:(discriminate))
        as (t1' & x & Heq).
      rewrite Heq in Ht.
      change (t0 ++ ev :: t1' ++ [x]) with (t0 ++ (ev :: t1') ++ [x]) in Ht.
      rewrite app_assoc in Ht. apply app_inj_tail in Ht as [-> _].
      apply Forall_app in Hall as [_ Hall].
      inversion Hall as [|z zs Hz _]. congruence.
Qed.

Lemma failed_probe_fatal (ev : event) (e : exn) :
  ReclaimPass.failed_probe ev = Some e -> ReclaimPass.fatal ev = Some e.
Proof. destruct ev; cbn; congruence. Qed.

Lemma failed_listing_fatal (ev : event) (e : exn) :
  ReclaimPass.failed_listing ev = Some e -> ReclaimPass.fatal ev = Some e.
Proof. destruct ev; cbn; congruence. Qed.

(** C7 (amended). When the probe of an [AccessDenied] error is answered with
    a [ClientError], [check_error] returns normally with the running maximum
    unchanged, and the loop over the errors goes on with the errors that
    follow, from the world the probe left; and whenever [nuke_bucket] raises,
    the call it made last, the one that aborts it, is not a probe answered
    with a [ClientError].  A probe that fails with an exception of any other
    class is not caught: [check_error] raises it, the loop over the errors
    stops there, and in any run of [nuke_bucket] such a probe is the last
    call made and its exception is what [nuke_bucket] raises. *)
Theorem probe_client_error_is_swallowed (bucket : string) :
  (forall (err : DeleteError) (errs : list DeleteError) (m : option Z)
          (w w1 : W) (code : string),
      de_Code err = Some "AccessDenied" ->
      get_object_retention client bucket (de_Key err) (de_VersionId err) w
        = (w1, inl (ClientError code)) ->
      check_error client bucket err m w =
        (w1, [EGetObjectRetention bucket (de_Key err) (de_VersionId err)
                (inl (ClientError code))], Ret m)
      /\ for_in (err :: errs) (check_error client bucket) m w =
         (let '(w2, t2, r) := for_in errs (check_error client bucket) m w1 in
          (w2, EGetObjectRetention bucket (de_Key err) (de_VersionId err)
                 (inl (ClientError code)) :: t2, r)))
  /\ (forall (fuel : nat) (w w1 : W) (t : list event) (e : exn),
        nuke_bucket client fuel bucket w = (w1, t, Raise e) ->
        exists t0 ev, t = t0 ++ [ev] /\ swallowed_probe ev = false)
  /\ (forall (err : DeleteError) (errs : list DeleteError) (m : option Z)
             (w w1 : W) (e : exn),
        de_Code err = Some "AccessDenied" ->
        (forall code, e <> ClientError code) ->
        get_object_retention client bucket (de_Key err) (de_VersionId err) w
          = (w1, inl e) ->
        check_error client bucket err m w =
          (w1, [EGetObjectRetention bucket (de_Key err) (de_VersionId err)
                  (inl e)], Raise e)
        /\ for_in (err :: errs) (check_error client bucket) m w =
           (w1, [EGetObjectRetention bucket (de_Key err) (de_VersionId err)
                   (inl e)], Raise e))
  /\ (forall (fuel : nat) (w : W) (t0 t1 : list event) (ev : event)
             (e : exn),
        trace_of (nuke_bucket client fuel bucket w) = t0 ++ ev :: t1 ->
        ReclaimPass.failed_probe ev = Some e ->
        t1 = [] /\ result_of (nuke_bucket client fuel bucket w) = Raise e).
Proof.
  split; [|split; [|split]].
  - intros err errs m w w1 code Hcode Hprobe.
    assert (Hone : check_error client bucket err m w =
                   (w1, [EGetObjectRetention bucket (de_Key err)
                           (de_VersionId err) (inl (ClientError code))],
                    Ret m)).
    { rewrite check_error_run. unfold access_denied. rewrite Hcode.
      cbn. now rewrite Hprobe. }
    split; [exact Hone|].
    rewrite for_in_cons, Hone.
    now destruct (for_in errs (check_error client bucket) m w1)
      as [[w2 t2] r].
  - intros fuel w w1 t e. apply nuke_bucket_raise.
  - intros err errs m w w1 e Hcode Hclass Hprobe.
    assert (Hone : check_error client bucket err m w =
                   (w1, [EGetObjectRetention bucket (de_Key err)
                           (de_VersionId err) (inl e)], Raise e)).
    { rewrite check_error_run. unfold access_denied. rewrite Hcode.
      cbn. rewrite Hprobe.
      destruct e; try reflexivity. now elim (Hclass code). }
    split; [exact Hone|]. now rewrite for_in_cons, Hone.
  - intros fuel w t0 t1 ev e Ht Hev.
    exact (stops_at_occurrence _ _ _ _ _ _ _
             (nuke_bucket_stops fuel bucket w) Ht
             (failed_probe_fatal _ _ Hev)).
Qed.

End Probes.


Lemma probe_client_error_is_swallowed_witness :
  result_of
    (for_in [Script.denied_error "a" "1"; Script.denied_error "b" "1"]
            (Reclaim.check_error Script.client "b") None Script.unconfigured)
  = Ret (Some (Script.start + seconds 10))
  /\ (exists t0 ev,
        trace_of (Reclaim.nuke_bucket Script.client 3 "b"
                    Script.unreachable_probe) = t0 ++ [ev]
        /\ Reclaim.swallowed_probe ev = false)
  /\ for_in [Script.denied_error "a" "1"; Script.denied_error "b" "1"]
            (Reclaim.check_error Script.client "b") None
            Script.unreachable_probe
     = (world_of (Reclaim.check_error Script.client "b"
                    (Script.denied_error "a" "1") None
                    Script.unreachable_probe),
        [Reclaim.EGetObjectRetention "b" "a" "1"
           (inl (BotoCoreError "EndpointConnectionError"))],
        Raise (BotoCoreError "EndpointConnectionError"))
  /\ result_of (Reclaim.nuke_bucket Script.client 3 "b"
                  Script.unreachable_probe)
     = Raise (BotoCoreError "EndpointConnectionError").
Proof.
  destruct (probe_client_error_is_swallowed Script.client "b")
    as (Hcaught & Hraise & Hpassed & Hlast).
  split; [|split; [|split]].
  - rewrite (proj2 (Hcaught
                      (Script.denied_error "a" "1")
                      [Script.denied_error "b" "1"] None Script.unconfigured
                      (world_of (Reclaim.check_error Script.client "b"
                                   (Script.denied_error "a" "1") None
                                   Script.unconfigured))
                      "NoSuchObjectLockConfiguration" eq_refl eq_refl)).
    reflexivity.
  - exact (Hraise 3%nat
             Script.unreachable_probe
             (world_of (Reclaim.nuke_bucket Script.client 3 "b"
                          Script.unreachable_probe))
             (trace_of (Reclaim.nuke_bucket Script.client 3 "b"
                          Script.unreachable_probe))
             (BotoCoreError "EndpointConnectionError") eq_refl).
  - refine (proj2 (Hpassed (Script.denied_error "a" "1")
                     [Script.denied_error "b" "1"] None
                     Script.unreachable_probe _
                     (BotoCoreError "EndpointConnectionError")
                     eq_refl _ eq_refl)).
    intros code. discriminate.
  - exact (proj2 (Hlast 3%nat Script.unreachable_probe
                    (removelast
                       (trace_of (Reclaim.nuke_bucket Script.client 3 "b"
                                    Script.unreachable_probe)))
                    []
                    (Reclaim.EGetObjectRetention "b" "a" "1"
                       (inl (BotoCoreError "EndpointConnectionError")))
                    (BotoCoreError "EndpointConnectionError")
                    eq_refl eq_refl)).
Defined.

(** C7, as stated, fails when the probe fails with an exception that is not a
    [ClientError]: two versions are refused for [AccessDenied], the probe of
    the first cannot reach the service, and [nuke_bucket] raises that
    failure; the second version is never probed and the bucket never
    deleted. *)
Lemma probe_failure_aborts_reclamation :
  result_of (Reclaim.nuke_bucket Script.client 3 "b" Script.unreachable_probe)
  = Raise (BotoCoreError "EndpointConnectionError")
  /\ Reclaim.denied
       (trace_of (Reclaim.nuke_bucket Script.client 3 "b"
                    Script.unreachable_probe))
     = [("b", "a", "1"); ("b", "b", "1")]
  /\ Reclaim.probes
       (trace_of (Reclaim.nuke_bucket Script.client 3 "b"
                    Script.unreachable_probe))
     = [("b", "a", "1")]
  /\ last (trace_of (Reclaim.nuke_bucket Script.client 3 "b"
                       Script.unreachable_probe))
          (Reclaim.ENow 0)
     = Reclaim.EGetObjectRetention "b" "a" "1"
         (inl (BotoCoreError "EndpointConnectionError"))
  /\ filter Reclaim.is_delete_bucket
       (trace_of (Reclaim.nuke_bucket Script.client 3 "b"
                    Script.unreachable_probe))
     = [].
Proof. repeat split. Qed.

(** ** Reclamation of the buckets of a run *)

Section Namespace.
Import Reclaim.
Context {W : Type} (client : Client W).

(** What the body of the loop over the buckets does with one bucket. *)
Lemma nuke_one_run (fuel : nat) (bucket_name : string) (err : option exn)
    (w : W) :
  nuke_one client fuel bucket_name err w =
  let '(w1, t1, r) := nuke_bucket client fuel bucket_name w in
  (w1, t1,
   match r with
   | Ret _ => Ret err
   | Raise e => Ret (Some e)
   | Diverge => Diverge
   end).
Proof.
  unfold nuke_one, try_except, bind, ret.
  destruct (nuke_bucket client fuel bucket_name w) as [[w1 t1] [[]|e|]];
    rewrite ?app_nil_r; try reflexivity.
  destruct e; cbn; now rewrite ?app_nil_r.
Qed.

Lemma nuke_all_run (fuel : nat) (buckets : list string) (w : W)
    (os : list (option exn)) (t : list event) (w' : W) :
  reclaimed client fuel buckets w os t w' ->
  forall err,
    for_in buckets (nuke_one client fuel) err w =
    (w', t, Ret (fold_left (fun acc o =>
                              match o with Some e => Some e | None => acc end)
                           os err)).
Proof.
  induction 1 as [w|b bs w w1 t1 r os t2 w2 Hrun Hr Hrest IH]; intros err.
  - reflexivity.
  - rewrite for_in_cons, nuke_one_run, Hrun.
    destruct r as [[]|e|]; [| |contradiction]; rewrite IH; reflexivity.
Qed.

Lemma last_failure_none (os : list (option exn)) :
  Forall (fun o => o = None) os ->
  forall acc,
    fold_left (fun acc o => match o with Some e => Some e | None => acc end)
              os acc = acc.
Proof.
  induction 1 as [|o os Ho _ IH]; intros acc; [reflexivity|].
  subst o. cbn. apply IH.
Qed.

Lemma last_failure_last (front back : list (option exn)) (e : exn) :
  Forall (fun o => o = None) back ->
  last_failure (front ++ Some e :: back) = Some e.
Proof.
  intros Hback. unfold last_failure. rewrite fold_left_app. cbn.
  now apply last_failure_none.
Qed.

(** A reclamation that does not run out of fuel starts by listing the
    versions of its bucket, with no marker. *)
Lemma nuke_bucket_starts (fuel : nat) (bucket : string) (w w1 : W)
    (t1 : list event) (r : outcome unit) :
  nuke_bucket client fuel bucket w = (w1, t1, r) ->
  r <> Diverge ->
  exists r0 t',
    t1 = EListObjectVersions (first_request bucket batch_size) r0 :: t'.
Proof.
  intros Hrun Hr. destruct fuel as [|fuel].
  - inversion Hrun; subst. contradiction.
  - assert (H1 : exists ta,
               trace_of (nuke_bucket client (S fuel) bucket w) =
               trace_of (nuke_pass1 client (S fuel) bucket w) ++ ta)
      by (unfold nuke_bucket; apply bind_trace).
    assert (H2 : exists tb,
               trace_of (nuke_pass1 client (S fuel) bucket w) =
               trace_of (api (list_object_versions client
                                (first_request bucket batch_size))
                             (EListObjectVersions
                                (first_request bucket batch_size)) w) ++ tb)
      by (unfold nuke_pass1, list_versions; cbn [list_versions_loop];
          apply bind_trace).
    destruct H1 as [ta H1]. destruct H2 as [tb H2].
    rewrite Hrun, H2 in H1. unfold api, trace_of in H1.
    destruct (list_object_versions client (first_request bucket batch_size) w)
      as [w0 r0].
    cbn in H1. subst t1. eauto.
Qed.

Lemma reclaimed_each (fuel : nat) (buckets : list string) (w : W)
    (os : list (option exn)) (t : list event) (w' : W) :
  reclaimed client fuel buckets w os t w' ->
  length os = length buckets
  /\ forall b, In b buckets ->
       exists r, In (EListObjectVersions (first_request b batch_size) r) t.
Proof.
  induction 1 as [w|b bs w w1 t1 r os t2 w2 Hrun Hr Hrest [IHlen IHin]].
  - split; [reflexivity | intros b []].
  - split; [cbn; now rewrite IHlen|].
    intros b' [<-|Hin].
    + destruct (nuke_bucket_starts _ _ _ _ _ _ Hrun Hr) as (r0 & t' & ->).
      exists r0. now left.
    + destruct (IHin b' Hin) as [r0 Hr0]. exists r0.
      apply in_or_app. now right.
Qed.

(** C3. When the reclamations of the buckets whose name contains the prefix,
    each run from the world its predecessor left, have the outcomes [os],
    [nuke_prefixed_buckets] makes all of them, after the listing of the
    buckets and in its order: there is one outcome for each bucket, and the
    trace holds the first listing request of each, also of those that follow
    a failure.  It then returns normally when none failed, and otherwise
    raises the failure that is the last one of [os]. *)
Theorem nuke_prefixed_buckets_goes_on_and_raises_last (fuel : nat)
    (prefix : string) (w w0 : W) (names : list string)
    (os : list (option exn)) (t : list event) (w' : W) :
  list_buckets client w = (w0, inr names) ->
  reclaimed client fuel (filter (contains prefix) names) w0 os t w' ->
  world_of (nuke_prefixed_buckets client fuel prefix w) = w'
  /\ trace_of (nuke_prefixed_buckets client fuel prefix w)
     = EListBuckets (inr names) :: t
  /\ length os = length (filter (contains prefix) names)
  /\ (forall b, In b (filter (contains prefix) names) ->
        exists r, In (EListObjectVersions (first_request b batch_size) r) t)
  /\ (Forall (fun o => o = None) os ->
      result_of (nuke_prefixed_buckets client fuel prefix w) = Ret tt)
  /\ (forall front e back,
        os = front ++ Some e :: back ->
        Forall (fun o => o = None) back ->
        result_of (nuke_prefixed_buckets client fuel prefix w) = Raise e).
Proof.
  intros Hlist Hall.
  assert (Hrun : nuke_prefixed_buckets client fuel prefix w =
                 (w', EListBuckets (inr names) :: t,
                  match last_failure os with
                  | Some e => Raise e
                  | None => Ret tt
                  end)).
  { unfold nuke_prefixed_buckets, get_buckets_list.
    unfold bind at 1 2. unfold api. rewrite Hlist. cbn [ret].
    unfold bind at 1. rewrite (nuke_all_run _ _ _ _ _ _ Hall None).
    fold (last_failure os).
    destruct (last_failure os) as [e|]; cbn; now rewrite app_nil_r. }
  destruct (reclaimed_each _ _ _ _ _ _ Hall) as [Hlen Hin].
  rewrite Hrun. unfold world_of, trace_of, result_of. cbn [fst snd].
  repeat split; try assumption.
  - intros Hnone. unfold last_failure.
    now rewrite (last_failure_none os Hnone None).
  - intros front e back -> Hback.
    now rewrite (last_failure_last front back e Hback).
Qed.

End Namespace.

Lemma nuke_prefixed_buckets_goes_on_and_raises_last_witness :
  result_of (Reclaim.nuke_prefixed_buckets Script.client 3 "run7"
               Script.three_buckets)
  = Raise (ClientError "AccessDenied")
  /\ trace_of (Reclaim.nuke_prefixed_buckets Script.client 3 "run7"
                 Script.three_buckets)
     = Reclaim.EListBuckets (inr (Script.bucket_names Script.three_buckets))
       :: trace_of Script.first_run
          ++ trace_of Script.second_run ++ trace_of Script.third_run ++ [].
Proof.
  assert (Hall : Reclaim.reclaimed Script.client 3
                   (filter (contains "run7")
                           (Script.bucket_names Script.three_buckets))
                   Script.three_buckets
                   [Reclaim.failure (result_of Script.first_run);
                    Reclaim.failure (result_of Script.second_run);
                    Reclaim.failure (result_of Script.third_run)]
                   (trace_of Script.first_run
                    ++ trace_of Script.second_run
                    ++ trace_of Script.third_run ++ [])
                   (world_of Script.third_run)).
  { refine (Reclaim.reclaimed_cons Script.client 3 "run7-1"
              ["x-run7-2"; "run7-3"] Script.three_buckets
              (world_of Script.first_run) (trace_of Script.first_run)
              (result_of Script.first_run) _ _ _ eq_refl _ _);
      [discriminate|].
    refine (Reclaim.reclaimed_cons Script.client 3 "x-run7-2" ["run7-3"]
              (world_of Script.first_run)
              (world_of Script.second_run) (trace_of Script.second_run)
              (result_of Script.second_run) _ _ _ eq_refl _ _);
      [discriminate|].
    refine (Reclaim.reclaimed_cons Script.client 3 "run7-3" []
              (world_of Script.second_run)
              (world_of Script.third_run) (trace_of Script.third_run)
              (result_of Script.third_run) _ _ _ eq_refl _ _);
      [discriminate|].
    apply Reclaim.reclaimed_nil. }
  destruct (nuke_prefixed_buckets_goes_on_and_raises_last Script.client 3
              "run7" Script.three_buckets Script.three_buckets
              (Script.bucket_names Script.three_buckets) _ _ _ eq_refl Hall)
    as (_ & Htrace & _ & _ & _ & Hlast).
  split; [|exact Htrace].
  apply (Hlast [None] (ClientError "AccessDenied") [None]).
  - reflexivity.
  - repeat constructor.
Defined.

(** ** The instrumented client *)

Section Instrumentation.
Import Proxy.
Context {W Value : Type}.
Context (str_call : list Value -> list (string * Value) -> string).
Context (str_value : Value -> string).

(** The body of [wrapper] around a method of the client. *)
Lemma wrapper_run (name : string)
    (impl : list Value -> list (string * Value) -> W -> W * (exn + Value))
    (args : list Value) (kwargs : list (string * Value)) (w : W) :
  call str_call str_value (log_and_call (Method name impl)) args kwargs w =
  let '(w1, r) := impl args kwargs w in
  match r with
  | inr v =>
      (w1,
       [EStepEnter ("Request " ++ name)%string;
        EInvoke name args kwargs (inr v);
        EAttach (str_call args kwargs)
                (name ++ " executed with parameters")%string TEXT;
        EAttach (str_value v) "Response" TEXT;
        EStepExit None],
       Ret v)
  | inl e =>
      (w1,
       [EStepEnter ("Request " ++ name)%string;
        EInvoke name args kwargs (inl e);
        EStepExit (Some e)],
       Raise e)
  end.
Proof.
  unfold log_and_call. cbn [call dunder_name].
  unfold with_step, bind, ret, emit, api.
  destruct (impl args kwargs w) as [w1 [e|v]]; reflexivity.
Qed.

(** What [__getattr__] answers for an attribute the client has. *)
Lemma getattr_run (c : Client W Value) (keys : list string) (item : string)
    (a : attr W Value) (w : W) :
  attributes c "_PY_TO_OP_NAME" = Some (Dict keys) ->
  attributes c item = Some a ->
  __getattr__ {| client := c |} item w =
  (w, [], Ret (if existsb (String.eqb item) keys then log_and_call a else a)).
Proof.
  intros Htable Hitem. unfold __getattr__, getattr, bind. cbn [client].
  rewrite Hitem, Htable. cbn.
  destruct (existsb (String.eqb item) keys); reflexivity.
Qed.

Lemma existsb_eqb_In (item : string) (keys : list string) :
  existsb (String.eqb item) keys = true <-> In item keys.
Proof.
  rewrite existsb_exists. split.
  - intros (k & Hin & Heq). apply String.eqb_eq in Heq. now subst.
  - intros Hin. exists item. split; [assumption | apply String.eqb_refl].
Qed.

(** C8. For a client with its table of operation names: the attribute the
    proxy answers for a name of the table that is a method is the wrapper of
    that method, answered without any event; calling the wrapper leaves the
    world, and returns the value or raises the exception, that calling the
    method itself does, and invokes the method once, with the same
    arguments.  For a name that is not in the table the proxy answers the
    attribute of the client itself, without any event. *)
Theorem wrapped_client_is_transparent (c : Client W Value)
    (keys : list string) (item : string) (a : attr W Value) :
  attributes c "_PY_TO_OP_NAME" = Some (Dict keys) ->
  attributes c item = Some a ->
  (In item keys ->
   forall name impl, a = Method name impl ->
   forall args kwargs w,
     __getattr__ {| client := c |} item w = (w, [], Ret (log_and_call a))
     /\ world_of (call str_call str_value (log_and_call a) args kwargs w)
        = world_of (call str_call str_value a args kwargs w)
     /\ result_of (call str_call str_value (log_and_call a) args kwargs w)
        = result_of (call str_call str_value a args kwargs w)
     /\ filter is_invoke
          (trace_of (call str_call str_value (log_and_call a) args kwargs w))
        = trace_of (call str_call str_value a args kwargs w)
     /\ trace_of (call str_call str_value a args kwargs w)
        = [EInvoke name args kwargs (snd (impl args kwargs w))])
  /\ (~ In item keys ->
      forall w, __getattr__ {| client := c |} item w = (w, [], Ret a)).
Proof.
  intros Htable Hitem. split.
  - intros Hin name impl -> args kwargs w.
    rewrite (getattr_run c keys item _ w Htable Hitem).
    replace (existsb (String.eqb item) keys) with true
      by (symmetry; now apply existsb_eqb_In).
    split; [reflexivity|].
    rewrite wrapper_run. cbn [call]. unfold api.
    destruct (impl args kwargs w) as [w1 [e|v]]; repeat split.
  - intros Hnotin w.
    rewrite (getattr_run c keys item _ w Htable Hitem).
    destruct (existsb (String.eqb item) keys) eqn:Hex; [|reflexivity].
    apply existsb_eqb_In in Hex. contradiction.
Qed.

(** C9 (amended). Looking up a method of the table of operation names on the
    proxy and calling it opens the step, invokes the method with the same
    arguments, and, when the method has returned, records the arguments,
    then the result, closes the step and returns the result unchanged; when
    the method raises, nothing is recorded but the end of the step, and the
    exception goes through. *)
Theorem instrumented_call_invokes_then_records (c : Client W Value)
    (keys : list string) (item name : string)
    (impl : list Value -> list (string * Value) -> W -> W * (exn + Value))
    (args : list Value) (kwargs : list (string * Value)) (w : W) :
  attributes c "_PY_TO_OP_NAME" = Some (Dict keys) ->
  In item keys ->
  attributes c item = Some (Method name impl) ->
  bind (__getattr__ {| client := c |} item)
       (fun a => call str_call str_value a args kwargs) w =
  let '(w1, r) := impl args kwargs w in
  match r with
  | inr v =>
      (w1,
       [EStepEnter ("Request " ++ name)%string;
        EInvoke name args kwargs (inr v);
        EAttach (str_call args kwargs)
                (name ++ " executed with parameters")%string TEXT;
        EAttach (str_value v) "Response" TEXT;
        EStepExit None],
       Ret v)
  | inl e =>
      (w1,
       [EStepEnter ("Request " ++ name)%string;
        EInvoke name args kwargs (inl e);
        EStepExit (Some e)],
       Raise e)
  end.
Proof.
  intros Htable Hin Hitem. unfold bind at 1.
  rewrite (getattr_run c keys item _ w Htable Hitem).
  replace (existsb (String.eqb item) keys) with true
    by (symmetry; now apply existsb_eqb_In).
  rewrite wrapper_run.
  destruct (impl args kwargs w) as [w1 [e|v]]; reflexivity.
Qed.

(** C10. For a name the client has no attribute of, [__getattr__] raises the
    [AttributeError] that [getattr] on the client raises, with no event and
    whatever the table of operation names is, present or not; and whenever
    [__getattr__] answers an attribute, the client has one of that name,
    which is the answer or what the answer wraps. *)
Theorem wrapped_client_missing_attribute (c : Client W Value)
    (item : string) (w : W) :
  (attributes c item = None ->
   __getattr__ {| client := c |} item w = (w, [], Raise (AttributeError item))
   /\ __getattr__ {| client := c |} item w = getattr c item w)
  /\ (forall a,
        result_of (__getattr__ {| client := c |} item w) = Ret a ->
        exists a0, attributes c item = Some a0
                   /\ (a = a0 \/ a = log_and_call a0)).
Proof.
  split.
  - intros Hnone. unfold __getattr__, getattr, bind. cbn [client].
    rewrite Hnone. split; reflexivity.
  - intros a Hret. unfold __getattr__, getattr, bind in Hret.
    cbn [client] in Hret.
    destruct (attributes c item) as [a0|]; [|discriminate Hret].
    exists a0. split; [reflexivity|]. cbn in Hret.
    destruct (attributes c "_PY_TO_OP_NAME") as [[n f|v|keys|o]|];
      try discriminate Hret.
    cbn in Hret. destruct (existsb (String.eqb item) keys); cbn in Hret;
      inversion Hret; auto.
Qed.

End Instrumentation.

Lemma wrapped_client_is_transparent_witness :
  (result_of (Proxy.call ScriptProxy.str_call ScriptProxy.str_value
                (Proxy.log_and_call
                   (Proxy.Method "delete_bucket"
                                 ScriptProxy.delete_bucket_impl))
                [] [("Bucket", "b")] 0%nat)
   = Raise (ClientError "NoSuchBucket"))
  /\ Proxy.__getattr__ ScriptProxy.wrapped_s3 "meta" 0%nat
     = (0%nat, [], Ret (Proxy.Data "<ClientMeta>")).
Proof.
  split.
  - destruct (proj1 (wrapped_client_is_transparent
                       ScriptProxy.str_call ScriptProxy.str_value
                       ScriptProxy.s3 ["list_buckets"; "delete_bucket"]
                       "delete_bucket"
                       (Proxy.Method "delete_bucket"
                          ScriptProxy.delete_bucket_impl)
                       eq_refl eq_refl)
                (or_intror (or_introl eq_refl))
                "delete_bucket" ScriptProxy.delete_bucket_impl eq_refl
                [] [("Bucket", "b")] 0%nat)
      as (_ & _ & Hresult & _).
    rewrite Hresult. reflexivity.
  - apply (proj2 (wrapped_client_is_transparent
                    ScriptProxy.str_call ScriptProxy.str_value
                    ScriptProxy.s3 ["list_buckets"; "delete_bucket"]
                    "meta" (Proxy.Data "<ClientMeta>") eq_refl eq_refl)).
    cbn. intros [H|[H|[]]]; discriminate H.
Defined.

Lemma instrumented_call_invokes_then_records_witness :
  ScriptProxy.lookup_and_call "list_buckets" ["x"] [("Bucket", "b")] 0%nat =
  (1%nat,
   [Proxy.EStepEnter "Request list_buckets";
    Proxy.EInvoke "list_buckets" ["x"] [("Bucket", "b")]
      (inr "{'Buckets': []}");
    Proxy.EAttach "{'args': (x), 'kwargs': {Bucket: b}}"
      "list_buckets executed with parameters" Proxy.TEXT;
    Proxy.EAttach "{'Buckets': []}" "Response" Proxy.TEXT;
    Proxy.EStepExit None],
   Ret "{'Buckets': []}").
Proof.
  exact (instrumented_call_invokes_then_records
           ScriptProxy.str_call ScriptProxy.str_value
           ScriptProxy.s3 ["list_buckets"; "delete_bucket"]
           "list_buckets" "list_buckets" ScriptProxy.list_buckets_impl
           ["x"] [("Bucket", "b")] 0%nat
           eq_refl (or_introl eq_refl) eq_refl).
Defined.

(** C9, as stated, fails on a call that returns: in its trace no record
    precedes the invocation, the invocation precedes the records; and on a
    call that raises the arguments are not recorded at all. *)
Lemma arguments_are_recorded_after_the_invocation :
  Proxy.precedes Proxy.is_attach Proxy.is_invoke
    (trace_of (ScriptProxy.lookup_and_call "list_buckets" ["x"]
                 [("Bucket", "b")] 0%nat)) = false
  /\ Proxy.precedes Proxy.is_invoke Proxy.is_attach
       (trace_of (ScriptProxy.lookup_and_call "list_buckets" ["x"]
                    [("Bucket", "b")] 0%nat)) = true
  /\ trace_of (ScriptProxy.lookup_and_call "delete_bucket" []
                 [("Bucket", "b")] 0%nat)
     = [Proxy.EStepEnter "Request delete_bucket";
        Proxy.EInvoke "delete_bucket" [] [("Bucket", "b")]
          (inl (ClientError "NoSuchBucket"));
        Proxy.EStepExit (Some (ClientError "NoSuchBucket"))].
Proof. repeat split. Qed.

Lemma wrapped_client_missing_attribute_witness :
  Proxy.__getattr__ ScriptProxy.wrapped_s3 "nope" 0%nat
  = (0%nat, [], Raise (AttributeError "nope"))
  /\ exists a0, Proxy.attributes ScriptProxy.s3 "list_buckets" = Some a0
                /\ (Proxy.log_and_call
                      (Proxy.Method "list_buckets"
                         ScriptProxy.list_buckets_impl) = a0
                    \/ Proxy.log_and_call
                         (Proxy.Method "list_buckets"
                            ScriptProxy.list_buckets_impl)
                       = Proxy.log_and_call a0).
Proof.
  split.
  - exact (proj1 (proj1 (wrapped_client_missing_attribute ScriptProxy.s3
                           "nope" 0%nat) eq_refl)).
  - exact (proj2 (wrapped_client_missing_attribute ScriptProxy.s3
                    "list_buckets" 0%nat) _ eq_refl).
Defined.

(** * More properties of the module *)

(** ** The calls of a reclamation *)

Section Shape.
Import Reclaim ReclaimTrace.
Context {W : Type} (client : Client W).

Lemma second_pass_and_delete_run (fuel : nat) (bucket : string) (w : W) :
  second_pass_and_delete client fuel bucket w =
  let '(w1, t1, r1) := nuke_pass2 client fuel bucket w in
  match r1 with
  | Ret _ =>
      let '(w2, r) := delete_bucket client bucket w1 in
      (w2, t1 ++ [EDeleteBucket bucket r],
       match r with inl e => Raise e | inr _ => Ret tt end)
  | Raise e => (w1, t1, Raise e)
  | Diverge => (w1, t1, Diverge)
  end.
Proof.
  unfold second_pass_and_delete, bind, api.
  destruct (nuke_pass2 client fuel bucket w) as [[w1 t1] [[]| |]];
    try reflexivity.
  destruct (delete_bucket client bucket w1) as [w2 [e|[]]]; reflexivity.
Qed.

Lemma nuke_bucket_run (fuel : nat) (bucket : string) (w : W) :
  nuke_bucket client fuel bucket w =
  let '(w1, t1, r1) := nuke_pass1 client fuel bucket w in
  match r1 with
  | Ret None =>
      let '(w2, r) := delete_bucket client bucket w1 in
      (w2, t1 ++ [EDeleteBucket bucket r],
       match r with inl e => Raise e | inr _ => Ret tt end)
  | Ret (Some m) =>
      if clock client w1 <? m
      then
        if seconds 60 <? m - clock client w1
        then (w1, t1 ++ [ENow (clock client w1)],
              Raise (RuntimeError bucket (m - clock client w1)))
        else
          let '(w2, t2, r) :=
            second_pass_and_delete client fuel bucket
              (sleep client (m - clock client w1) w1) in
          (w2, t1 ++ ENow (clock client w1)
                  :: ESleep (m - clock client w1) :: t2, r)
      else
        let '(w2, t2, r) := second_pass_and_delete client fuel bucket w1 in
        (w2, t1 ++ ENow (clock client w1) :: t2, r)
  | Raise e => (w1, t1, Raise e)
  | Diverge => (w1, t1, Diverge)
  end.
Proof.
  destruct (nuke_pass1 client fuel bucket w) as [[w1 t1] [[m|]|e|]] eqn:H1.
  - rewrite (nuke_bucket_hold _ _ _ _ _ _ _ H1).
    unfold bind at 1, wait_out.
    destruct (clock client w1 <? m);
      [destruct (seconds 60 <? m - clock client w1)|].
    + reflexivity.
    + unfold time_sleep.
      now destruct (second_pass_and_delete client fuel bucket _)
        as [[w2 t2] r].
    + cbn [ret].
      now destruct (second_pass_and_delete client fuel bucket w1)
        as [[w2 t2] r].
  - unfold nuke_bucket. unfold bind at 1. rewrite H1.
    unfold bind, ret, api.
    destruct (delete_bucket client bucket w1) as [w2 [e|[]]]; reflexivity.
  - unfold nuke_bucket. unfold bind at 1. now rewrite H1.
  - unfold nuke_bucket. unfold bind at 1. now rewrite H1.
Qed.

(** The events of a reclamation, by the outcome of its passes. *)
Lemma nuke_bucket_trace_cases (fuel : nat) (bucket : string) (w : W) :
  exists t1 tail,
    trace_of (nuke_pass1 client fuel bucket w) = t1
    /\ trace_of (nuke_bucket client fuel bucket w) = t1 ++ tail
    /\ (tail = []
        \/ (exists r, tail = [EDeleteBucket bucket r])
        \/ (exists now, tail = [ENow now])
        \/ (exists now waits w2,
              (waits = []
               \/ exists d, waits = [ESleep d] /\ 0 < d <= seconds 60)
              /\ tail = ENow now :: waits
                        ++ trace_of (second_pass_and_delete client fuel
                                       bucket w2))).
Proof.
  rewrite nuke_bucket_run.
  destruct (nuke_pass1 client fuel bucket w) as [[w1 t1] [[m|]|e|]].
  - destruct (clock client w1 <? m) eqn:Hnow;
      [destruct (seconds 60 <? m - clock client w1) eqn:Hlong|].
    + exists t1, [ENow (clock client w1)]. repeat split. eauto.
    + apply Z.ltb_lt in Hnow. apply Z.ltb_ge in Hlong.
      destruct (second_pass_and_delete client fuel bucket
                  (sleep client (m - clock client w1) w1))
        as [[w2 t2] r] eqn:Hrest.
      exists t1, (ENow (clock client w1)
                  :: ESleep (m - clock client w1) :: t2).
      repeat split. right. right. right.
      exists (clock client w1), [ESleep (m - clock client w1)],
             (sleep client (m - clock client w1) w1).
      rewrite Hrest. split; [|reflexivity].
      right. exists (m - clock client w1). split; [reflexivity | lia].
    + destruct (second_pass_and_delete client fuel bucket w1)
        as [[w2 t2] r] eqn:Hrest.
      exists t1, (ENow (clock client w1) :: t2).
      repeat split. right. right. right.
      exists (clock client w1), [], w1.
      rewrite Hrest. split; [now left | reflexivity].
  - destruct (delete_bucket client bucket w1) as [w2 r].
    exists t1, [EDeleteBucket bucket r]. repeat split. eauto.
  - exists t1, []. repeat split; auto. unfold trace_of. cbn.
    now rewrite app_nil_r.
  - exists t1, []. repeat split; auto. unfold trace_of. cbn.
    now rewrite app_nil_r.
Qed.

Lemma second_pass_and_delete_trace (fuel : nat) (bucket : string) (w : W) :
  exists tail,
    trace_of (second_pass_and_delete client fuel bucket w) =
    trace_of (nuke_pass2 client fuel bucket w) ++ tail
    /\ (tail = [] \/ exists r, tail = [EDeleteBucket bucket r]).
Proof.
  rewrite second_pass_and_delete_run.
  destruct (nuke_pass2 client fuel bucket w) as [[w1 t1] [[]|e|]].
  - destruct (delete_bucket client bucket w1) as [w2 r].
    exists [EDeleteBucket bucket r]. split; [reflexivity | eauto].
  - exists []. split; [|now left]. unfold trace_of. cbn.
    now rewrite app_nil_r.
  - exists []. split; [|now left]. unfold trace_of. cbn.
    now rewrite app_nil_r.
Qed.

End Shape.

Section Discipline.
Import Reclaim ReclaimTrace.
Context {W : Type} (client : Client W).

Lemma check_error_within (bucket : string) (err : DeleteError)
    (m : option Z) (w : W) :
  Forall (fun ev => within bucket ev = true)
         (trace_of (check_error client bucket err m w)).
Proof.
  rewrite check_error_run. destruct (access_denied err); [|constructor].
  destruct (get_object_retention client bucket _ _ w) as [w1 r].
  repeat constructor. cbn. apply String.eqb_refl.
Qed.

Lemma delete_and_check_within (bucket : string) (objects : list ObjectRef)
    (m : option Z) (w : W) :
  Forall (fun ev => within bucket ev = true)
         (trace_of (delete_and_check client bucket objects m w)).
Proof.
  unfold delete_and_check, bind, api.
  destruct (delete_objects client bucket objects true true w) as [w1 [e|resp]].
  - repeat constructor. cbn. now rewrite String.eqb_refl.
  - pose proof (for_in_events _ _ (check_error_within bucket)
                  (get_default (dr_Errors resp) []) m w1) as H.
    destruct (for_in _ _ m w1) as [[w2 t2] r2]; cbn in *.
    constructor; [cbn; now rewrite String.eqb_refl | assumption].
Qed.

Lemma delete_again_within (bucket : string) (objects : list ObjectRef)
    (u : unit) (w : W) :
  Forall (fun ev => within bucket ev = true)
         (trace_of (delete_again client bucket objects u w)).
Proof.
  unfold delete_again, bind, api.
  destruct (delete_objects client bucket objects true true w) as [w1 [e|resp]];
    repeat constructor; cbn; now rewrite String.eqb_refl.
Qed.

(** The requests of an enumeration keep the bucket and the page size of the
    first. *)
Lemma list_versions_loop_within {A} (bucket : string)
    (body : list ObjectRef -> A -> M W event A) :
  (forall objects acc w,
      Forall (fun ev => within bucket ev = true)
             (trace_of (body objects acc w))) ->
  forall fuel kw acc w,
    kw_Bucket kw = bucket -> kw_MaxKeys kw = 128 ->
    Forall (fun ev => within bucket ev = true)
           (trace_of (list_versions_loop client fuel kw body acc w)).
Proof.
  intros Hbody. induction fuel as [|fuel IH]; intros kw acc w Hb Hk.
  - constructor.
  - assert (Hlist : forall r, within bucket (EListObjectVersions kw r) = true).
    { intros r. cbn. rewrite Hb, Hk, String.eqb_refl. reflexivity. }
    destruct (list_object_versions client kw w) as [w1 [e|p]] eqn:Hcall.
    + cbn [list_versions_loop]. unfold bind at 1, api at 1. rewrite Hcall.
      repeat constructor. apply Hlist.
    + destruct (l_IsTruncated p) as [truncated|] eqn:Htr.
      * rewrite (list_versions_loop_answered _ _ _ _ _ _ _ _ _ Hcall Htr).
        assert (Hstep : Forall (fun ev => within bucket ev = true)
                  (trace_of ((if 0 <? Z.of_nat (length (page_refs p))
                              then body (page_refs p) acc else ret acc) w1))).
        { destruct (0 <? Z.of_nat (length (page_refs p)));
            [apply Hbody | constructor]. }
        destruct ((if 0 <? Z.of_nat (length (page_refs p))
                   then body (page_refs p) acc else ret acc) w1)
          as [[w2 t2] [acc'| |]]; cbn in Hstep |- *;
          try (constructor; [apply Hlist | assumption]).
        destruct truncated.
        -- specialize (IH (follow_up kw p) acc' w2 Hb Hk).
           destruct (list_versions_loop client fuel _ body acc' w2)
             as [[w3 t3] r3]; cbn in IH |- *.
           constructor; [apply Hlist | apply Forall_app; split; assumption].
        -- cbn. constructor; [apply Hlist |]. now rewrite app_nil_r.
      * cbn [list_versions_loop]. unfold bind at 1, api at 1. rewrite Hcall.
        unfold bind at 1. rewrite Htr. cbn. repeat constructor. apply Hlist.
Qed.

Lemma nuke_pass1_within (fuel : nat) (bucket : string) (w : W) :
  Forall (fun ev => within bucket ev = true)
         (trace_of (nuke_pass1 client fuel bucket w)).
Proof.
  apply list_versions_loop_within; try reflexivity.
  apply delete_and_check_within.
Qed.

Lemma nuke_pass2_within (fuel : nat) (bucket : string) (w : W) :
  Forall (fun ev => within bucket ev = true)
         (trace_of (nuke_pass2 client fuel bucket w)).
Proof.
  apply list_versions_loop_within; try reflexivity.
  apply delete_again_within.
Qed.

Lemma second_pass_and_delete_within (fuel : nat) (bucket : string) (w : W) :
  Forall (fun ev => within bucket ev = true)
         (trace_of (second_pass_and_delete client fuel bucket w)).
Proof.
  destruct (second_pass_and_delete_trace client fuel bucket w)
    as (tail & -> & Htail).
  apply Forall_app. split; [apply nuke_pass2_within|].
  destruct Htail as [->|[r ->]]; repeat constructor.
  cbn. apply String.eqb_refl.
Qed.

Lemma nuke_bucket_within (fuel : nat) (bucket : string) (w : W) :
  Forall (fun ev => within bucket ev = true)
         (trace_of (nuke_bucket client fuel bucket w)).
Proof.
  destruct (nuke_bucket_trace_cases client fuel bucket w)
    as (t1 & tail & H1 & -> & Htail).
  apply Forall_app. split.
  - rewrite <- H1. apply nuke_pass1_within.
  - destruct Htail as [->|[[r ->]|[[now ->]|(now & waits & w2 & Hw & ->)]]].
    + constructor.
    + repeat constructor. cbn. apply String.eqb_refl.
    + repeat constructor.
    + constructor; [reflexivity|]. apply Forall_app. split.
      * destruct Hw as [->|(d & -> & _)]; repeat constructor.
      * apply second_pass_and_delete_within.
Qed.

(** X1. Every call of a reclamation names the bucket being reclaimed: the
    listings ask for pages of 128 of that bucket, the batched deletes are
    quiet and bypass governance retention, and no other bucket is listed,
    probed or deleted. *)
Theorem nuke_bucket_stays_within_its_bucket (fuel : nat) (bucket : string)
    (w : W) :
  Forall (fun ev => within bucket ev = true
                    /\ (event_bucket ev = None
                        \/ event_bucket ev = Some bucket))
         (trace_of (nuke_bucket client fuel bucket w)).
Proof.
  eapply Forall_impl; [|apply nuke_bucket_within].
  intros ev Hev. split; [exact Hev|].
  destruct ev; cbn in *; auto;
    repeat match goal with
           | H : (_ && _)%bool = true |- _ =>
               apply andb_true_iff in H; destruct H
           end;
    right; f_equal; now apply String.eqb_eq.
Qed.

End Discipline.

Section Order.
Import Reclaim ReclaimTrace.
Context {W : Type} (client : Client W).

Lemma filter_none {A} (f : A -> bool) (l : list A) :
  Forall (fun x => f x = false) l -> filter f l = [].
Proof.
  induction 1 as [|x l Hx _ IH]; [reflexivity|]. cbn. now rewrite Hx.
Qed.

Lemma object_calls_no_bucket_delete (t : list event) :
  Forall (fun ev => is_object_call ev = true) t ->
  filter is_delete_bucket t = [].
Proof.
  intros H. apply filter_none. eapply Forall_impl; [|exact H].
  intros ev Hev. destruct ev; try discriminate Hev; reflexivity.
Qed.

(** X2. A reclamation asks at most once for the deletion of the bucket, and
    that call is the last it makes; it returns normally only when that call
    succeeded. *)
Theorem nuke_bucket_deletes_the_bucket_last (fuel : nat) (bucket : string)
    (w : W) :
  (filter is_delete_bucket (trace_of (nuke_bucket client fuel bucket w)) = []
   \/ exists t0 r,
        trace_of (nuke_bucket client fuel bucket w)
        = t0 ++ [EDeleteBucket bucket r]
        /\ filter is_delete_bucket t0 = [])
  /\ (result_of (nuke_bucket client fuel bucket w) = Ret tt ->
      exists t0,
        trace_of (nuke_bucket client fuel bucket w)
        = t0 ++ [EDeleteBucket bucket (inr tt)]).
Proof.
  assert (Hsecond : forall w0,
    (filter is_delete_bucket
       (trace_of (second_pass_and_delete client fuel bucket w0)) = []
     \/ exists t0 r,
          trace_of (second_pass_and_delete client fuel bucket w0)
          = t0 ++ [EDeleteBucket bucket r]
          /\ filter is_delete_bucket t0 = [])
    /\ (result_of (second_pass_and_delete client fuel bucket w0) = Ret tt ->
        exists t0,
          trace_of (second_pass_and_delete client fuel bucket w0)
          = t0 ++ [EDeleteBucket bucket (inr tt)])).
  { intros w0. rewrite second_pass_and_delete_run.
    pose proof (object_calls_no_bucket_delete _
                  (nuke_pass2_events client fuel bucket w0)) as H2.
    destruct (nuke_pass2 client fuel bucket w0) as [[w1 t1] [[]|e|]];
      unfold trace_of, result_of in *; cbn [fst snd] in *.
    - destruct (delete_bucket client bucket w1) as [w2 [e|[]]]; cbn [fst snd].
      + split; [right; eauto | discriminate].
      + split; [right; eauto | eauto].
    - split; [now left | discriminate].
    - split; [now left | discriminate]. }
  rewrite nuke_bucket_run.
  pose proof (object_calls_no_bucket_delete _
                (nuke_pass1_events client fuel bucket w)) as H1.
  destruct (nuke_pass1 client fuel bucket w) as [[w1 t1] [[m|]|e|]];
    unfold trace_of, result_of in *; cbn [fst snd] in *.
  - assert (Hjoin : forall mid w0,
              filter is_delete_bucket mid = [] ->
              let run := second_pass_and_delete client fuel bucket w0 in
              (filter is_delete_bucket (t1 ++ mid ++ snd (fst run)) = []
               \/ exists t0 r,
                    t1 ++ mid ++ snd (fst run)
                    = t0 ++ [EDeleteBucket bucket r]
                    /\ filter is_delete_bucket t0 = [])
              /\ (snd run = Ret tt ->
                  exists t0,
                    t1 ++ mid ++ snd (fst run)
                    = t0 ++ [EDeleteBucket bucket (inr tt)])).
    { intros mid w0 Hmid run. subst run.
      destruct (Hsecond w0) as [Hcount Hret].
      unfold trace_of, result_of in *. split.
      - destruct Hcount as [Hnone|(t0 & r & -> & Ht0)].
        + left. now rewrite !filter_app, H1, Hmid, Hnone.
        + right. exists (t1 ++ mid ++ t0), r. split.
          * now rewrite <- !app_assoc.
          * now rewrite !filter_app, H1, Hmid, Ht0.
      - intros Hr. destruct (Hret Hr) as [t0 ->].
        exists (t1 ++ mid ++ t0). now rewrite <- !app_assoc. }
    destruct (clock client w1 <? m);
      [destruct (seconds 60 <? m - clock client w1)|].
    + cbn [fst snd]. split; [left | discriminate].
      now rewrite filter_app, H1.
    + specialize (Hjoin [ENow (clock client w1);
                         ESleep (m - clock client w1)]
                        (sleep client (m - clock client w1) w1) eq_refl).
      cbn zeta in Hjoin.
      destruct (second_pass_and_delete client fuel bucket
                  (sleep client (m - clock client w1) w1)) as [[w2 t2] r].
      exact Hjoin.
    + specialize (Hjoin [ENow (clock client w1)] w1 eq_refl).
      cbn zeta in Hjoin.
      destruct (second_pass_and_delete client fuel bucket w1)
        as [[w2 t2] r].
      exact Hjoin.
  - destruct (delete_bucket client bucket w1) as [w2 [e|[]]]; cbn [fst snd].
    + split; [right; eauto | discriminate].
    + split; [right; eauto | eauto].
  - split; [now left | discriminate].
  - split; [now left | discriminate].
Qed.

(** X3. Whatever the service answers, a reclamation sleeps at most once, and
    then for more than nothing and at most 60 seconds. *)
Theorem nuke_bucket_sleeps_at_most_a_minute (fuel : nat) (bucket : string)
    (w : W) :
  sleeps (trace_of (nuke_bucket client fuel bucket w)) = []
  \/ exists d,
       sleeps (trace_of (nuke_bucket client fuel bucket w)) = [d]
       /\ 0 < d <= seconds 60.
Proof.
  destruct (nuke_bucket_trace_cases client fuel bucket w)
    as (t1 & tail & H1 & -> & Htail).
  assert (Hs1 : sleeps t1 = []).
  { rewrite <- H1. apply object_calls_no_sleep. apply nuke_pass1_events. }
  rewrite sleeps_app, Hs1. cbn [app].
  destruct Htail as [->|[[r ->]|[[now ->]|(now & waits & w2 & Hw & ->)]]];
    try (now left).
  change (ENow now :: waits ++ trace_of (second_pass_and_delete client fuel
                                           bucket w2))
    with ([ENow now] ++ waits
          ++ trace_of (second_pass_and_delete client fuel bucket w2)).
  rewrite !sleeps_app, second_pass_and_delete_no_sleep, app_nil_r.
  destruct Hw as [->|(d & -> & Hd)]; [now left|].
  right. exists d. split; [reflexivity | exact Hd].
Qed.

Lemma no_probe_in (t : list event) :
  Forall (fun ev => match ev with
                    | EGetObjectRetention _ _ _ _ => False
                    | _ => True
                    end) t ->
  probes t = [].
Proof.
  induction 1 as [|ev t Hev _ IH]; [reflexivity|].
  destruct ev; try contradiction; exact IH.
Qed.

Lemma nuke_pass2_no_probe (fuel : nat) (bucket : string) (w : W) :
  probes (trace_of (nuke_pass2 client fuel bucket w)) = [].
Proof.
  apply no_probe_in. apply list_versions_loop_events; [constructor|].
  intros objects acc w0. unfold delete_again, bind, api.
  destruct (delete_objects client bucket objects true true w0)
    as [w1 [e|resp]]; repeat constructor.
Qed.

(** X4. Retention is probed during pass 1 only: the probes of a whole
    reclamation are those of its first pass, so the errors the second pass
    of deletes reports are never examined. *)
Theorem nuke_bucket_probes_in_first_pass_only (fuel : nat) (bucket : string)
    (w : W) :
  probes (trace_of (nuke_bucket client fuel bucket w))
  = probes (trace_of (nuke_pass1 client fuel bucket w))
  /\ forall w2,
       probes (trace_of (second_pass_and_delete client fuel bucket w2)) = [].
Proof.
  assert (Hsecond : forall w2,
            probes (trace_of (second_pass_and_delete client fuel bucket w2))
            = []).
  { intros w2.
    destruct (second_pass_and_delete_trace client fuel bucket w2)
      as (tail & -> & Htail).
    rewrite probes_app, nuke_pass2_no_probe.
    now destruct Htail as [->|[r ->]]. }
  split; [|exact Hsecond].
  destruct (nuke_bucket_trace_cases client fuel bucket w)
    as (t1 & tail & H1 & -> & Htail).
  rewrite H1, probes_app.
  destruct Htail as [->|[[r ->]|[[now ->]|(now & waits & w2 & Hw & ->)]]];
    try (cbn; now rewrite app_nil_r).
  change (ENow now :: waits ++ trace_of (second_pass_and_delete client fuel
                                           bucket w2))
    with ([ENow now] ++ waits
          ++ trace_of (second_pass_and_delete client fuel bucket w2)).
  rewrite !probes_app, Hsecond.
  destruct Hw as [->|(d & -> & _)]; cbn; now rewrite app_nil_r.
Qed.

End Order.

Section Deletes.
Import Reclaim ReclaimTrace.
Context {W : Type} (client : Client W).

(** One turn of the loop of [list_versions] when the listing fails, and when
    its answer has no [IsTruncated]. *)
Lemma list_versions_loop_failed {A} (fuel : nat) (kw : ListKwargs)
    (body : list ObjectRef -> A -> M W event A) (acc : A)
    (w w1 : W) (e : exn) :
  list_object_versions client kw w = (w1, inl e) ->
  list_versions_loop client (S fuel) kw body acc w =
  (w1, [EListObjectVersions kw (inl e)], Raise e).
Proof.
  intros Hcall. cbn [list_versions_loop]. unfold bind at 1, api at 1.
  now rewrite Hcall.
Qed.

Lemma list_versions_loop_unflagged {A} (fuel : nat) (kw : ListKwargs)
    (body : list ObjectRef -> A -> M W event A) (acc : A)
    (w w1 : W) (p : Listing) :
  list_object_versions client kw w = (w1, inr p) ->
  l_IsTruncated p = None ->
  list_versions_loop client (S fuel) kw body acc w =
  (w1, [EListObjectVersions kw (inr p)], Raise (KeyError "IsTruncated")).
Proof.
  intros Hcall Htr. cbn [list_versions_loop]. unfold bind at 1, api at 1.
  rewrite Hcall. unfold bind at 1. now rewrite Htr.
Qed.

Lemma deleted_app (t1 t2 : list event) :
  deleted (t1 ++ t2) = deleted t1 ++ deleted t2.
Proof. apply flat_map_app. Qed.

Lemma answered_app (t1 t2 : list event) :
  answered (t1 ++ t2) = answered t1 ++ answered t2.
Proof. apply flat_map_app. Qed.

Lemma only_probes (t : list event) :
  Forall (fun ev => exists b k v r, ev = EGetObjectRetention b k v r) t ->
  deleted t = [] /\ answered t = [].
Proof.
  induction 1 as [|ev t (b & k & v & r & ->) _ IH]; [now split|]. exact IH.
Qed.

Lemma check_error_only_probes (bucket : string) (err : DeleteError)
    (m : option Z) (w : W) :
  Forall (fun ev => exists b k v r, ev = EGetObjectRetention b k v r)
         (trace_of (check_error client bucket err m w)).
Proof.
  rewrite check_error_run. destruct (access_denied err); [|constructor].
  destruct (get_object_retention client bucket _ _ w) as [w1 r].
  repeat constructor. eauto.
Qed.

(** A batch is submitted once, whatever becomes of it. *)
Lemma delete_and_check_deletes (bucket : string) (objects : list ObjectRef)
    (m : option Z) (w : W) :
  deleted (trace_of (delete_and_check client bucket objects m w)) = [objects]
  /\ answered (trace_of (delete_and_check client bucket objects m w)) = [].
Proof.
  unfold delete_and_check, bind, api.
  destruct (delete_objects client bucket objects true true w) as [w1 [e|resp]].
  - now split.
  - pose proof (for_in_events _ _ (check_error_only_probes bucket)
                  (get_default (dr_Errors resp) []) m w1) as H.
    apply only_probes in H as [Hd Ha].
    destruct (for_in _ _ m w1) as [[w2 t2] r2].
    unfold trace_of in *. cbn [fst snd] in *.
    change ([EDeleteObjects bucket objects true true (inr resp)] ++ t2)
      with (EDeleteObjects bucket objects true true (inr resp) :: t2).
    unfold deleted, answered in *. cbn. now rewrite Hd, Ha.
Qed.

Lemma delete_again_deletes (bucket : string) (objects : list ObjectRef)
    (u : unit) (w : W) :
  deleted (trace_of (delete_again client bucket objects u w)) = [objects]
  /\ answered (trace_of (delete_again client bucket objects u w)) = [].
Proof.
  unfold delete_again, bind, api.
  destruct (delete_objects client bucket objects true true w)
    as [w1 [e|resp]]; now split.
Qed.

(** The batches of a pass are the non-empty pages it was answered, up to
    where it stopped. *)
Lemma list_versions_loop_deletes {A}
    (body : list ObjectRef -> A -> M W event A) :
  (forall objects acc w,
      deleted (trace_of (body objects acc w)) = [objects]
      /\ answered (trace_of (body objects acc w)) = []) ->
  forall fuel kw acc w,
    exists rest,
      filter nonempty
             (map page_refs
                  (answered (trace_of (list_versions_loop client fuel kw
                                         body acc w))))
      = deleted (trace_of (list_versions_loop client fuel kw body acc w))
        ++ rest
      /\ (forall a,
            result_of (list_versions_loop client fuel kw body acc w) = Ret a ->
            rest = []).
Proof.
  intros Hbody. induction fuel as [|fuel IH]; intros kw acc w.
  - exists []. split; [reflexivity | discriminate].
  - destruct (list_object_versions client kw w) as [w1 [e|p]] eqn:Hcall.
    + rewrite (list_versions_loop_failed _ _ _ _ _ _ _ Hcall).
      exists []. split; [reflexivity | discriminate].
    + destruct (l_IsTruncated p) as [truncated|] eqn:Htr.
      * rewrite (list_versions_loop_answered _ _ _ _ _ _ _ _ _ Hcall Htr).
        assert (Hstep :
          let step := (if 0 <? Z.of_nat (length (page_refs p))
                       then body (page_refs p) acc else ret acc) w1 in
          filter nonempty [page_refs p] = deleted (trace_of step)
          /\ answered (trace_of step) = []).
        { unfold nonempty. cbn [filter].
          destruct (0 <? Z.of_nat (length (page_refs p)));
            [|now split].
          destruct (Hbody (page_refs p) acc w1) as [Hd Ha]. now split. }
        cbn zeta in Hstep.
        destruct ((if 0 <? Z.of_nat (length (page_refs p))
                   then body (page_refs p) acc else ret acc) w1)
          as [[w2 t2] [acc'| |]];
          unfold trace_of, result_of in *; cbn [fst snd] in *;
          destruct Hstep as [Hd Ha].
        -- destruct truncated.
           ++ destruct (IH (follow_up kw p) acc' w2) as (rest & Hrest & Hret).
              destruct (list_versions_loop client fuel _ body acc' w2)
                as [[w3 t3] r3]; cbn [fst snd] in *.
              exists rest. split; [|exact Hret].
              change (EListObjectVersions kw (inr p) :: t2 ++ t3)
                with ([EListObjectVersions kw (inr p)] ++ t2 ++ t3).
              rewrite !answered_app, !deleted_app, Ha.
              change (answered [EListObjectVersions kw (inr p)]) with [p].
              change (deleted [EListObjectVersions kw (inr p)])
                with (@nil (list ObjectRef)).
              cbn [app map].
              change (page_refs p :: map page_refs (answered t3))
                with ([page_refs p] ++ map page_refs (answered t3)).
              now rewrite filter_app, Hd, Hrest, app_assoc.
           ++ exists []. cbn [fst snd]. split; [|reflexivity].
              rewrite !app_nil_r.
              change (EListObjectVersions kw (inr p) :: t2)
                with ([EListObjectVersions kw (inr p)] ++ t2).
              rewrite !answered_app, !deleted_app, Ha.
              change (answered [EListObjectVersions kw (inr p)]) with [p].
              change (deleted [EListObjectVersions kw (inr p)])
                with (@nil (list ObjectRef)).
              cbn [app map]. rewrite ?app_nil_r. exact Hd.
        -- exists []. split; [|discriminate].
           change (EListObjectVersions kw (inr p) :: t2)
             with ([EListObjectVersions kw (inr p)] ++ t2).
           rewrite !answered_app, !deleted_app, Ha, app_nil_r.
           change (answered [EListObjectVersions kw (inr p)]) with [p].
           change (deleted [EListObjectVersions kw (inr p)])
             with (@nil (list ObjectRef)).
           cbn [app map]. rewrite ?app_nil_r. exact Hd.
        -- exists []. split; [|discriminate].
           change (EListObjectVersions kw (inr p) :: t2)
             with ([EListObjectVersions kw (inr p)] ++ t2).
           rewrite !answered_app, !deleted_app, Ha, app_nil_r.
           change (answered [EListObjectVersions kw (inr p)]) with [p].
           change (deleted [EListObjectVersions kw (inr p)])
             with (@nil (list ObjectRef)).
           cbn [app map]. rewrite ?app_nil_r. exact Hd.
      * rewrite (list_versions_loop_unflagged _ _ _ _ _ _ _ Hcall Htr).
        exists (filter nonempty [page_refs p]). split; [|discriminate].
        reflexivity.
Qed.

Lemma nuke_pass1_deletes (fuel : nat) (bucket : string) (w : W) :
  exists rest,
    filter nonempty
           (map page_refs
                (answered (trace_of (nuke_pass1 client fuel bucket w))))
    = deleted (trace_of (nuke_pass1 client fuel bucket w)) ++ rest
    /\ (forall m, result_of (nuke_pass1 client fuel bucket w) = Ret m ->
                  rest = []).
Proof.
  apply (list_versions_loop_deletes _ (delete_and_check_deletes bucket)).
Qed.

Lemma second_pass_and_delete_deletes (fuel : nat) (bucket : string) (w : W) :
  exists rest,
    filter nonempty
           (map page_refs
                (answered (trace_of (second_pass_and_delete client fuel
                                       bucket w))))
    = deleted (trace_of (second_pass_and_delete client fuel bucket w)) ++ rest
    /\ (result_of (second_pass_and_delete client fuel bucket w) = Ret tt ->
        rest = []).
Proof.
  rewrite second_pass_and_delete_run.
  destruct (list_versions_loop_deletes _ (delete_again_deletes bucket)
              fuel (first_request bucket batch_size) tt w)
    as (rest & Hrest & Hret).
  change (list_versions_loop client fuel (first_request bucket batch_size)
            (delete_again client bucket) tt w)
    with (nuke_pass2 client fuel bucket w) in *.
  destruct (nuke_pass2 client fuel bucket w) as [[w1 t1] [[]|e|]];
    unfold trace_of, result_of in *; cbn [fst snd] in *.
  - destruct (delete_bucket client bucket w1) as [w2 r]. cbn [fst snd].
    exists rest. split; [|intros _; now apply (Hret tt)].
    rewrite answered_app, deleted_app. cbn. now rewrite !app_nil_r.
  - exists rest. split; [exact Hrest | discriminate].
  - exists rest. split; [exact Hrest | discriminate].
Qed.

(** X5. The batches a reclamation submits for deletion are, in order, the
    non-empty pages its listings were answered with, each submitted once and
    nothing else; when the reclamation returns normally every such page was
    submitted. *)
Theorem nuke_bucket_deletes_what_it_lists (fuel : nat) (bucket : string)
    (w : W) :
  exists rest,
    filter nonempty
           (map page_refs
                (answered (trace_of (nuke_bucket client fuel bucket w))))
    = deleted (trace_of (nuke_bucket client fuel bucket w)) ++ rest
    /\ (result_of (nuke_bucket client fuel bucket w) = Ret tt -> rest = []).
Proof.
  rewrite nuke_bucket_run.
  destruct (nuke_pass1_deletes fuel bucket w) as (rest1 & H1 & Hret1).
  destruct (nuke_pass1 client fuel bucket w) as [[w1 t1] [[m|]|e|]];
    unfold trace_of, result_of in *; cbn [fst snd] in *.
  - specialize (Hret1 _ eq_refl). subst rest1. rewrite app_nil_r in H1.
    assert (Hjoin : forall mid w0,
              answered mid = [] -> deleted mid = [] ->
              let run := second_pass_and_delete client fuel bucket w0 in
              exists rest,
                filter nonempty
                       (map page_refs (answered (t1 ++ mid ++ snd (fst run))))
                = deleted (t1 ++ mid ++ snd (fst run)) ++ rest
                /\ (snd run = Ret tt -> rest = [])).
    { intros mid w0 Ha Hd run. subst run.
      destruct (second_pass_and_delete_deletes fuel bucket w0)
        as (rest & Hrest & Hret).
      unfold trace_of, result_of in *.
      exists rest. split; [|exact Hret].
      rewrite !answered_app, !deleted_app, Ha, Hd. cbn [app].
      rewrite map_app, filter_app, H1, Hrest. now rewrite app_assoc. }
    destruct (clock client w1 <? m);
      [destruct (seconds 60 <? m - clock client w1)|].
    + cbn [fst snd]. exists []. split; [|reflexivity].
      rewrite answered_app, deleted_app. cbn. now rewrite !app_nil_r.
    + specialize (Hjoin [ENow (clock client w1);
                         ESleep (m - clock client w1)]
                        (sleep client (m - clock client w1) w1)
                        eq_refl eq_refl).
      cbn zeta in Hjoin.
      destruct (second_pass_and_delete client fuel bucket
                  (sleep client (m - clock client w1) w1)) as [[w2 t2] r].
      exact Hjoin.
    + specialize (Hjoin [ENow (clock client w1)] w1 eq_refl eq_refl).
      cbn zeta in Hjoin.
      destruct (second_pass_and_delete client fuel bucket w1)
        as [[w2 t2] r].
      exact Hjoin.
  - specialize (Hret1 _ eq_refl). subst rest1. rewrite app_nil_r in H1.
    destruct (delete_bucket client bucket w1) as [w2 r]. cbn [fst snd].
    exists []. split; [|reflexivity].
    rewrite answered_app, deleted_app. cbn. now rewrite !app_nil_r.
  - exists rest1. split; [exact H1 | discriminate].
  - exists rest1. split; [exact H1 | discriminate].
Qed.

End Deletes.

Section Interruption.
Import Reclaim ReclaimTrace.
Context {W : Type} (client : Client W).


(** X7. When the answer to the first listing of a reclamation has no
    [IsTruncated], [nuke_bucket] raises [KeyError] right after that listing:
    the versions of the page are not deleted, and neither is the bucket. *)
Theorem nuke_bucket_needs_truncation_flag (fuel : nat) (bucket : string)
    (w w1 : W) (p : Listing) :
  list_object_versions client (first_request bucket 128) w = (w1, inr p) ->
  l_IsTruncated p = None ->
  nuke_bucket client (S fuel) bucket w =
  (w1, [EListObjectVersions (first_request bucket 128) (inr p)],
   Raise (KeyError "IsTruncated")).
Proof.
  intros Hcall Htr. rewrite nuke_bucket_run.
  unfold nuke_pass1, list_versions.
  fold (first_request bucket batch_size).
  change batch_size with 128.
  now rewrite (list_versions_loop_unflagged client _ _ _ _ _ _ _ Hcall Htr).
Qed.

End Interruption.


Lemma nuke_bucket_needs_truncation_flag_witness :
  Reclaim.nuke_bucket Script.client 3 "b" Script2.unflagged =
  (world_of (Reclaim.nuke_bucket Script.client 3 "b" Script2.unflagged),
   [Reclaim.EListObjectVersions (Reclaim.first_request "b" 128)
      (inr Script2.unflagged_page)],
   Raise (KeyError "IsTruncated")).
Proof.
  exact (nuke_bucket_needs_truncation_flag Script.client 2 "b"
           Script2.unflagged
           (world_of (Reclaim.nuke_bucket Script.client 3 "b"
                        Script2.unflagged))
           Script2.unflagged_page eq_refl eq_refl).
Defined.

(** ** The buckets of a run *)

Lemma bind_trace_eq {W Ev A B} (m : M W Ev A) (f : A -> M W Ev B) (w : W) :
  trace_of (bind m f w) =
  trace_of (m w)
  ++ match result_of (m w) with
     | Ret a => trace_of (f a (world_of (m w)))
     | _ => []
     end.
Proof.
  unfold bind, trace_of, result_of, world_of.
  destruct (m w) as [[w1 t1] [a| |]]; cbn.
  - now destruct (f a w1) as [[w2 t2] r2].
  - now rewrite app_nil_r.
  - now rewrite app_nil_r.
Qed.

Lemma for_in_events_in {W Ev A B} (P : Ev -> Prop)
    (body : B -> A -> M W Ev A) (xs : list B) :
  (forall x acc w, In x xs -> Forall P (trace_of (body x acc w))) ->
  forall acc w, Forall P (trace_of (for_in xs body acc w)).
Proof.
  induction xs as [|x xs IH]; intros Hbody acc w.
  - constructor.
  - rewrite for_in_cons.
    pose proof (Hbody x acc w (or_introl eq_refl)) as Hx.
    destruct (body x acc w) as [[w1 t1] [acc'| |]]; cbn in *; try assumption.
    assert (Hrest : Forall P (trace_of (for_in xs body acc' w1))).
    { apply IH. intros y acc0 w0 Hy. apply Hbody. now right. }
    destruct (for_in xs body acc' w1) as [[w2 t2] r2]; cbn in *.
    apply Forall_app; split; assumption.
Qed.

Lemma prefix_spec (p s : string) :
  String.prefix p s = true <-> exists post, s = (p ++ post)%string.
Proof.
  revert s. induction p as [|a p IH]; intros s.
  - destruct s; cbn; split; eauto.
  - destruct s as [|b s]; cbn.
    + split; [discriminate | intros [post H]; discriminate H].
    + destruct (Ascii.ascii_dec a b) as [->|Hab].
      * rewrite IH. split; intros [post H]; exists post.
        -- now subst.
        -- now inversion H.
      * split; [discriminate|]. intros [post H]. inversion H.
        now contradiction Hab.
Qed.

(** [contains] is the substring test. *)
Lemma contains_spec (sub s : string) :
  contains sub s = true <->
  exists pre post, s = (pre ++ sub ++ post)%string.
Proof.
  induction s as [|c s IH].
  - cbn [contains]. rewrite orb_false_r, prefix_spec. split.
    + intros [post H]. exists ""%string, post. exact H.
    + intros (pre & post & H). destruct pre; [now exists post|].
      discriminate H.
  - cbn [contains]. rewrite orb_true_iff, prefix_spec, IH. split.
    + intros [[post H]|(pre & post & H)].
      * exists ""%string, post. exact H.
      * exists (String c pre), post. cbn. now rewrite H.
    + intros (pre & post & H). destruct pre as [|c' pre].
      * left. now exists post.
      * right. cbn in H. inversion H. now exists pre, post.
Qed.

Section Selection.
Import Reclaim ReclaimTrace.
Context {W : Type} (client : Client W).

(** X8. [get_buckets_list] asks once for the buckets of the client and
    returns, of the names it is answered, exactly those in which the prefix
    occurs somewhere, at the start of the name or not; when the listing
    fails it raises that failure. *)
Theorem get_buckets_list_selects_by_substring (prefix : string) (w : W) :
  match list_buckets client w with
  | (w0, inr names) =>
      exists selected,
        get_buckets_list client prefix w
        = (w0, [EListBuckets (inr names)], Ret selected)
        /\ forall b,
             In b selected <->
             In b names
             /\ exists pre post, b = (pre ++ prefix ++ post)%string
  | (w0, inl e) =>
      get_buckets_list client prefix w
      = (w0, [EListBuckets (inl e)], Raise e)
  end.
Proof.
  unfold get_buckets_list, bind, api, ret.
  destruct (list_buckets client w) as [w0 [e|names]]; [reflexivity|].
  exists (filter (contains prefix) names). split; [reflexivity|].
  intros b. now rewrite filter_In, contains_spec.
Qed.

Lemma within_in_namespace (prefix bucket : string) (ev : event) :
  contains prefix bucket = true ->
  within bucket ev = true ->
  in_namespace prefix ev = true.
Proof.
  intros Hc Hev. unfold in_namespace.
  destruct ev; cbn in *; try reflexivity;
    repeat match goal with
           | H : (_ && _)%bool = true |- _ =>
               apply andb_true_iff in H; destruct H
           end;
    try discriminate;
    match goal with
    | H : String.eqb _ bucket = true |- _ =>
        apply String.eqb_eq in H; now rewrite H
    end.
Qed.

(** X9. No call of [nuke_prefixed_buckets] names a bucket in whose name the
    prefix does not occur: such buckets are neither listed, probed nor
    deleted, whatever happens to the others. *)
Theorem nuke_prefixed_buckets_stays_in_namespace (fuel : nat)
    (prefix : string) (w : W) :
  Forall (fun ev => in_namespace prefix ev = true)
         (trace_of (nuke_prefixed_buckets client fuel prefix w)).
Proof.
  unfold nuke_prefixed_buckets. rewrite bind_trace_eq.
  apply Forall_app. split.
  - unfold get_buckets_list, bind, api, ret, trace_of.
    destruct (list_buckets client w) as [w0 [e|names]]; repeat constructor.
  - destruct (result_of (get_buckets_list client prefix w))
      as [buckets| |] eqn:Hsel; try constructor.
    assert (Hin : forall b, In b buckets -> contains prefix b = true).
    { unfold get_buckets_list, bind, api, ret, result_of in Hsel.
      destruct (list_buckets client w) as [w0 [e|names]];
        [discriminate Hsel|].
      inversion Hsel; subst. intros b Hb. now apply filter_In in Hb. }
    rewrite bind_trace_eq. apply Forall_app. split.
    + apply for_in_events_in. intros b acc w0 Hb.
      rewrite nuke_one_run.
      pose proof (nuke_bucket_within client fuel b w0) as Hw.
      destruct (nuke_bucket client fuel b w0) as [[w1 t1] r].
      unfold trace_of in *. cbn [fst snd] in *.
      eapply Forall_impl; [|exact Hw].
      intros ev. now apply within_in_namespace, Hin.
    + destruct (result_of (for_in buckets _ None _)) as [[e|]| |];
        constructor.
Qed.

End Selection.

(** ** Prefixes and parameter names *)

Section Strings.

Lemma length_append (a b : string) :
  String.length (a ++ b) = (String.length a + String.length b)%nat.
Proof. induction a as [|c a IH]; cbn; [reflexivity | now rewrite IH]. Qed.

Lemma substring_0_0 (s : string) : substring 0 0 s = ""%string.
Proof. now destruct s. Qed.

Lemma substring_whole (s : string) (n : nat) :
  (String.length s <= n)%nat -> substring 0 n s = s.
Proof.
  revert n. induction s as [|c s IH]; intros n Hn.
  - now destruct n.
  - destruct n as [|n]; cbn in Hn; [lia|]. cbn. rewrite IH by lia.
    reflexivity.
Qed.

Lemma length_substring (s : string) (k : nat) :
  (k <= String.length s)%nat -> String.length (substring 0 k s) = k.
Proof.
  revert k. induction s as [|c s IH]; intros k Hk.
  - cbn in Hk. now replace k with 0%nat by lia.
  - destruct k as [|k]; [reflexivity|]. cbn in *. rewrite IH by lia.
    reflexivity.
Qed.

(** Dropping the last character of the first [k + 1] leaves the first
    [k]. *)
Lemma drop_last_substring (s : string) (k : nat) :
  (k < String.length s)%nat ->
  Fixtures.drop_last (substring 0 (S k) s) = substring 0 k s.
Proof.
  revert k. induction s as [|c s IH]; intros k Hk; [cbn in Hk; lia|].
  cbn [String.length] in Hk. destruct k as [|k].
  - cbn. now rewrite substring_0_0.
  - change (substring 0 (S (S k)) (String c s))
      with (String c (substring 0 (S k) s)).
    change (substring 0 (S k) (String c s))
      with (String c (substring 0 k s)).
    rewrite <- (IH k) by lia.
    destruct s as [|c' s]; [cbn in Hk; lia|]. reflexivity.
Qed.

Lemma substring_S_nonempty (s : string) (k : nat) :
  (k < String.length s)%nat ->
  exists c s', substring 0 (S k) s = String c s'.
Proof.
  destruct s as [|c s]; intros Hk; [cbn in Hk; lia|].
  now exists c, (substring 0 k s).
Qed.

End Strings.

Section Prefixes.
Import Fixtures.
Context (format : string -> string -> exn + string).
Context (template : string) (max_len : Z) (rand : string).

(** One test of the loop of [choose_bucket_prefix] on a filler that is not
    empty. *)
Lemma choose_loop_step (fuel k : nat) :
  (k < String.length rand)%nat ->
  choose_loop format (S fuel) template max_len (substring 0 (S k) rand) =
  match format template (substring 0 (S k) rand) with
  | inl e => Failed (FormatFailure e)
  | inr s =>
      if Z.of_nat (String.length s) <=? max_len
      then Done s
      else choose_loop format fuel template max_len (substring 0 k rand)
  end.
Proof.
  intros Hk. cbn [choose_loop].
  rewrite <- (drop_last_substring rand k Hk).
  destruct (substring_S_nonempty rand k Hk) as (c & s' & ->).
  reflexivity.
Qed.

Lemma choose_loop_empty (fuel : nat) :
  choose_loop format (S fuel) template max_len (substring 0 0 rand) =
  Failed (ImpossibleTemplate template).
Proof. now rewrite substring_0_0. Qed.

Lemma choose_loop_done (k : nat) :
  forall fuel s,
    (k <= String.length rand)%nat ->
    choose_loop format fuel template max_len (substring 0 k rand) = Done s ->
    exists j,
      (1 <= j <= k)%nat
      /\ format template (substring 0 j rand) = inr s
      /\ Z.of_nat (String.length s) <= max_len
      /\ forall i, (j < i <= k)%nat ->
           exists s', format template (substring 0 i rand) = inr s'
                      /\ max_len < Z.of_nat (String.length s').
Proof.
  induction k as [|k IH]; intros fuel s Hk Hrun;
    (destruct fuel as [|fuel]; [discriminate Hrun|]).
  - rewrite choose_loop_empty in Hrun. discriminate Hrun.
  - rewrite choose_loop_step in Hrun by lia.
    destruct (format template (substring 0 (S k) rand)) as [e|s0] eqn:Hf;
      [discriminate Hrun|].
    destruct (Z.of_nat (String.length s0) <=? max_len) eqn:Hfit.
    + inversion Hrun; subst. exists (S k). repeat split; try lia.
      exact Hf.
    + apply Z.leb_gt in Hfit.
      destruct (IH fuel s ltac:(lia) Hrun) as (j & Hj & Hfj & Hlen & Hlonger).
      exists j. repeat split; try lia; try assumption.
      intros i Hi. destruct (Nat.eq_dec i (S k)) as [->|Hne].
      * exists s0. split; [exact Hf | lia].
      * apply Hlonger. lia.
Qed.

Lemma choose_loop_impossible (k : nat) :
  forall fuel,
    (k <= String.length rand)%nat -> (k < fuel)%nat ->
    (forall i, (1 <= i <= k)%nat ->
       exists s', format template (substring 0 i rand) = inr s'
                  /\ max_len < Z.of_nat (String.length s')) ->
    choose_loop format fuel template max_len (substring 0 k rand) =
    Failed (ImpossibleTemplate template).
Proof.
  induction k as [|k IH]; intros fuel Hk Hfuel Hall;
    (destruct fuel as [|fuel]; [lia|]).
  - apply choose_loop_empty.
  - rewrite choose_loop_step by lia.
    destruct (Hall (S k) ltac:(lia)) as (s' & -> & Hlong).
    replace (Z.of_nat (String.length s') <=? max_len) with false
      by (symmetry; apply Z.leb_gt; lia).
    apply IH; try lia. intros i Hi. apply Hall. lia.
Qed.

Lemma choose_loop_ends (k : nat) :
  forall fuel,
    (k <= String.length rand)%nat -> (k < fuel)%nat ->
    choose_loop format fuel template max_len (substring 0 k rand) <> Running.
Proof.
  induction k as [|k IH]; intros fuel Hk Hfuel;
    (destruct fuel as [|fuel]; [lia|]).
  - rewrite choose_loop_empty. discriminate.
  - rewrite choose_loop_step by lia.
    destruct (format template (substring 0 (S k) rand)) as [e|s0];
      [discriminate|].
    destruct (Z.of_nat (String.length s0) <=? max_len); [discriminate|].
    apply IH; lia.
Qed.

(** X10. When [choose_bucket_prefix] returns a prefix, it is the template
    filled with the first [j] characters of the draw for some [j >= 1]: it
    is within [max_len], and the template filled with any more characters
    of the draw is too long. *)
Theorem choose_bucket_prefix_longest_fit (fuel : nat) (s : string) :
  choose_bucket_prefix format fuel template max_len rand = Done s ->
  exists j,
    (1 <= j <= String.length rand)%nat
    /\ format template (substring 0 j rand) = inr s
    /\ Z.of_nat (String.length s) <= max_len
    /\ forall i, (j < i <= String.length rand)%nat ->
         exists s', format template (substring 0 i rand) = inr s'
                    /\ max_len < Z.of_nat (String.length s').
Proof.
  unfold choose_bucket_prefix. intros Hrun.
  rewrite <- (substring_whole rand (String.length rand)) in Hrun at 1
    by lia.
  exact (choose_loop_done (String.length rand) fuel s ltac:(lia) Hrun).
Qed.

(** X11. When the template filled with any non-empty start of the draw is
    too long, [choose_bucket_prefix] raises its error about the template:
    the empty filler is never tried, whether it would fit or not. *)
Theorem choose_bucket_prefix_never_tries_empty_filler (fuel : nat) :
  (String.length rand < fuel)%nat ->
  (forall i, (1 <= i <= String.length rand)%nat ->
     exists s', format template (substring 0 i rand) = inr s'
                /\ max_len < Z.of_nat (String.length s')) ->
  choose_bucket_prefix format fuel template max_len rand =
  Failed (ImpossibleTemplate template).
Proof.
  unfold choose_bucket_prefix. intros Hfuel Hall.
  rewrite <- (substring_whole rand (String.length rand)) at 1 by lia.
  apply choose_loop_impossible; try lia. exact Hall.
Qed.

(** X12. The loop of [choose_bucket_prefix] ends: it makes at most one test
    for each character of the draw, and one more that finds it empty. *)
Theorem choose_bucket_prefix_terminates (fuel : nat) :
  (String.length rand < fuel)%nat ->
  choose_bucket_prefix format fuel template max_len rand <> Running.
Proof.
  unfold choose_bucket_prefix. intros Hfuel.
  rewrite <- (substring_whole rand (String.length rand)) at 1 by lia.
  apply choose_loop_ends; lia.
Qed.

End Prefixes.

Section Fill.
Import Fixtures.
Context (format : string -> string -> exn + string).
Context (template pre post : string) (max_len : Z) (rand : string).

(** The template is [pre], the field [{random}], then [post]. *)
Hypothesis format_fills :
  forall r, format template r = inr (pre ++ r ++ post)%string.

Lemma choose_loop_fills (n k : nat) :
  forall fuel,
    (1 <= n <= k)%nat -> (k <= String.length rand)%nat -> (k < fuel)%nat ->
    Z.of_nat (String.length pre + n + String.length post) = max_len ->
    choose_loop format fuel template max_len (substring 0 k rand) =
    Done (pre ++ substring 0 n rand ++ post)%string.
Proof.
  induction k as [|k IH]; intros fuel Hn Hk Hfuel Hmax; [lia|].
  destruct fuel as [|fuel]; [lia|].
  rewrite choose_loop_step by lia. rewrite format_fills.
  rewrite !length_append, length_substring by lia.
  destruct (Nat.eq_dec n (S k)) as [->|Hne].
  - replace (Z.of_nat (String.length pre + (S k + String.length post))
             <=? max_len) with true
      by (symmetry; apply Z.leb_le; lia).
    reflexivity.
  - replace (Z.of_nat (String.length pre + (S k + String.length post))
             <=? max_len) with false
      by (symmetry; apply Z.leb_gt; lia).
    apply IH; lia.
Qed.

(** X13. For a template made of a text, the field and a text, with room for
    [n >= 1] characters of filler and a draw of at least [n] characters,
    [choose_bucket_prefix] returns the template filled with the first [n]
    characters of the draw: a prefix of exactly [max_len] characters. *)
Theorem choose_bucket_prefix_fills_to_max_len (fuel n : nat) :
  (1 <= n <= String.length rand)%nat ->
  Z.of_nat (String.length pre + n + String.length post) = max_len ->
  (String.length rand < fuel)%nat ->
  choose_bucket_prefix format fuel template max_len rand =
    Done (pre ++ substring 0 n rand ++ post)%string
  /\ Z.of_nat (String.length (pre ++ substring 0 n rand ++ post)) = max_len.
Proof.
  intros Hn Hmax Hfuel. split.
  - unfold choose_bucket_prefix.
    rewrite <- (substring_whole rand (String.length rand)) at 1 by lia.
    apply choose_loop_fills; lia.
  - rewrite !length_append, length_substring by lia. lia.
Qed.

End Fill.

Section ParameterName.
Import Fixtures.
Context (rand : string).

Lemma parameter_loop_step (fuel k : nat) (parameter_name : string) :
  (k < String.length rand)%nat ->
  parameter_loop (S fuel) (substring 0 (S k) rand) parameter_name =
  if Z.of_nat (S k) <=? 10
  then Done (substring 0 (S k) rand)
  else parameter_loop fuel (substring 0 k rand) (substring 0 (S k) rand).
Proof.
  intros Hk. cbn [parameter_loop].
  rewrite drop_last_substring, length_substring by lia.
  destruct (substring_S_nonempty rand k Hk) as (c & s' & Hs).
  destruct (substring 0 (S k) rand); [discriminate Hs | reflexivity].
Qed.

Lemma parameter_loop_run (k : nat) :
  forall fuel parameter_name,
    (k <= String.length rand)%nat -> (k < fuel)%nat ->
    parameter_loop fuel (substring 0 k rand) parameter_name =
    Done (match k with
          | O => parameter_name
          | S _ => substring 0 (Nat.min k 10) rand
          end).
Proof.
  induction k as [|k IH]; intros fuel parameter_name Hk Hfuel;
    (destruct fuel as [|fuel]; [lia|]).
  - now rewrite substring_0_0.
  - rewrite parameter_loop_step by lia.
    destruct (Z.of_nat (S k) <=? 10) eqn:Hfit.
    + apply Z.leb_le in Hfit. now rewrite Nat.min_l by lia.
    + apply Z.leb_gt in Hfit. rewrite IH by lia.
      destruct k as [|k]; [lia|].
      now rewrite !Nat.min_r by lia.
Qed.

(** X14. [get_parameter_name] returns the first ten characters of its draw,
    and the whole draw when it has fewer. *)
Theorem get_parameter_name_first_ten (fuel : nat) :
  (String.length rand < fuel)%nat ->
  get_parameter_name fuel rand = Done (substring 0 10 rand).
Proof.
  intros Hfuel. unfold get_parameter_name.
  rewrite <- (substring_whole rand (String.length rand)) at 1 by lia.
  rewrite parameter_loop_run by lia.
  destruct (String.length rand) as [|n] eqn:Hlen.
  - destruct rand; [reflexivity | discriminate Hlen].
  - destruct (Nat.le_gt_cases (S n) 10) as [Hshort|Hlong].
    + rewrite Nat.min_l by lia.
      now rewrite !substring_whole by lia.
    + now rewrite Nat.min_r by lia.
Qed.

End ParameterName.

Lemma choose_bucket_prefix_longest_fit_witness :
  exists j,
    (1 <= j <= String.length Sample.draw)%nat
    /\ Text.default_format "test-{random}-" (substring 0 j Sample.draw)
       = inr "test-abcdefghijklmnopqrstuvwx-"%string
    /\ Z.of_nat (String.length "test-abcdefghijklmnopqrstuvwx-") <= 30
    /\ forall i, (j < i <= String.length Sample.draw)%nat ->
         exists s',
           Text.default_format "test-{random}-" (substring 0 i Sample.draw)
           = inr s'
           /\ 30 < Z.of_nat (String.length s').
Proof.
  exact (choose_bucket_prefix_longest_fit Text.default_format
           "test-{random}-" 30 Sample.draw 40
           "test-abcdefghijklmnopqrstuvwx-" eq_refl).
Defined.

Lemma choose_bucket_prefix_never_tries_empty_filler_witness :
  Fixtures.choose_bucket_prefix Text.default_format 3 "test-{random}-" 6 "ab"
  = Fixtures.Failed (Fixtures.ImpossibleTemplate "test-{random}-").
Proof.
  apply (choose_bucket_prefix_never_tries_empty_filler Text.default_format
           "test-{random}-" 6 "ab" 3).
  - cbn. lia.
  - intros i Hi. cbn in Hi.
    assert (Hcases : i = 1%nat \/ i = 2%nat) by lia.
    destruct Hcases as [->| ->]; eexists; (split; [reflexivity | cbn; lia]).
Defined.

Lemma choose_bucket_prefix_terminates_witness :
  Fixtures.choose_bucket_prefix Text.default_format 37 "test-{random}-" 30
    Sample.draw <> Fixtures.Running.
Proof.
  apply (choose_bucket_prefix_terminates Text.default_format
           "test-{random}-" 30 Sample.draw 37).
  cbn. lia.
Defined.

Lemma choose_bucket_prefix_fills_to_max_len_witness :
  Fixtures.choose_bucket_prefix Text.default_format 37 "test-{random}-" 30
    Sample.draw
  = Fixtures.Done ("test-" ++ substring 0 24 Sample.draw ++ "-")%string
  /\ Z.of_nat (String.length
                 ("test-" ++ substring 0 24 Sample.draw ++ "-")) = 30.
Proof.
  apply (choose_bucket_prefix_fills_to_max_len Text.default_format
           "test-{random}-" "test-" "-" 30 Sample.draw
           (fun r => eq_refl) 37 24).
  - cbn. lia.
  - reflexivity.
  - cbn. lia.
Defined.

Lemma get_parameter_name_first_ten_witness :
  Fixtures.get_parameter_name 37 Sample.draw
  = Fixtures.Done (substring 0 10 Sample.draw).
Proof.
  apply (get_parameter_name_first_ten Sample.draw 37). cbn. lia.
Defined.

(** ** Storage classes *)

Section StorageClasses.
Import Fixtures Text.
Context (word_char : Ascii.ascii -> bool).

Lemma append_nil_r (s : string) : (s ++ "")%string = s.
Proof. induction s as [|c s IH]; cbn; [reflexivity | now rewrite IH]. Qed.

Lemma append_assoc (a b c : string) :
  ((a ++ b) ++ c)%string = (a ++ b ++ c)%string.
Proof. induction a as [|x a IH]; cbn; [reflexivity | now rewrite IH]. Qed.

Lemma all_chars_append (p : Ascii.ascii -> bool) (a b : string) :
  all_chars p (a ++ b) = all_chars p a && all_chars p b.
Proof.
  induction a as [|c a IH]; cbn; [reflexivity|].
  now rewrite IH, andb_assoc.
Qed.

Lemma keep_others (items : list string) :
  forall sc,
    fold_left (fun sc item =>
                 if negb (String.eqb item "STANDARD")
                 then sc ++ [item]
                 else sc)
              items sc
    = sc ++ filter (fun item => negb (String.eqb item "STANDARD")) items.
Proof.
  induction items as [|item items IH]; intros sc; cbn [fold_left filter].
  - now rewrite app_nil_r.
  - rewrite IH. destruct (negb (String.eqb item "STANDARD")).
    + now rewrite <- app_assoc.
    + reflexivity.
Qed.

Lemma configured_storage_classes_eq (storage_classes : string) :
  configured_storage_classes word_char storage_classes =
  "STANDARD"%string
  :: filter (fun i => negb (String.eqb i ""))
            (filter (fun item => negb (String.eqb item "STANDARD"))
                    (re_split word_char storage_classes "" false)).
Proof.
  unfold configured_storage_classes. now rewrite keep_others.
Qed.

(** No piece of the split holds a character of the class. *)
Lemma re_split_clean (s : string) :
  forall piece in_run,
    all_chars (clean word_char) piece = true ->
    Forall (fun name => all_chars (clean word_char) name = true)
           (re_split word_char s piece in_run).
Proof.
  induction s as [|c s IH]; intros piece in_run Hpiece; cbn [re_split].
  - now constructor.
  - destruct (separator word_char c) eqn:Hc.
    + destruct in_run; [now apply IH|].
      constructor; [exact Hpiece | now apply IH].
    + apply IH. rewrite all_chars_append, Hpiece. cbn.
      unfold clean. now rewrite Hc.
Qed.

Lemma re_split_blank (s : string) :
  forall in_run,
    all_chars (separator word_char) s = true ->
    Forall (fun name => name = ""%string)
           (re_split word_char s "" in_run).
Proof.
  induction s as [|c s IH]; intros in_run Hs; cbn [re_split].
  - now constructor.
  - cbn in Hs. apply andb_true_iff in Hs as [Hc Hs]. rewrite Hc.
    destruct in_run; [now apply IH|]. constructor; [reflexivity|].
    now apply IH.
Qed.

(** X15. Whatever the configuration says, the list of storage classes
    starts with [STANDARD], holds it only once, and holds besides only
    non-empty names that are free of the characters the split is made on. *)
Theorem configured_storage_classes_standard_once (storage_classes : string) :
  exists others,
    configured_storage_classes word_char storage_classes
    = "STANDARD"%string :: others
    /\ ~ In "STANDARD"%string others
    /\ ~ In ""%string others
    /\ Forall (fun name =>
                 all_chars (fun c => negb (separator word_char c)) name = true)
              others.
Proof.
  rewrite configured_storage_classes_eq. eexists. split; [reflexivity|].
  repeat split.
  - intros Hin. apply filter_In in Hin as [Hin _].
    apply filter_In in Hin as [_ Hne]. discriminate Hne.
  - intros Hin. apply filter_In in Hin as [_ Hne]. discriminate Hne.
  - apply Forall_forall. intros name Hin.
    apply filter_In in Hin as [Hin _]. apply filter_In in Hin as [Hin _].
    pose proof (re_split_clean storage_classes "" false eq_refl) as Hclean.
    rewrite Forall_forall in Hclean. now apply Hclean.
Qed.

(** X16. When the configured text holds nothing but characters of the class
    the split is made on, or nothing at all, the list is [STANDARD]
    alone. *)
Theorem configured_storage_classes_default (storage_classes : string) :
  all_chars (separator word_char) storage_classes = true ->
  configured_storage_classes word_char storage_classes = ["STANDARD"%string].
Proof.
  intros Hblank. rewrite configured_storage_classes_eq. f_equal.
  pose proof (re_split_blank storage_classes false Hblank) as Hall.
  induction Hall as [|name names Hname _ IH]; [reflexivity|].
  subst name. cbn. exact IH.
Qed.

Lemma re_split_word (w : string) :
  forall s piece,
    all_chars (clean word_char) w = true ->
    re_split word_char (w ++ s) piece false
    = re_split word_char s (piece ++ w) false.
Proof.
  induction w as [|c w IH]; intros s piece Hw.
  - cbn. now rewrite append_nil_r.
  - cbn in Hw. apply andb_true_iff in Hw as [Hc Hw].
    unfold clean in Hc. apply negb_true_iff in Hc.
    cbn [append re_split]. rewrite Hc, IH by exact Hw.
    now rewrite append_assoc.
Qed.

Lemma re_split_word_start (c : Ascii.ascii) (w s piece : string)
    (in_run : bool) :
  all_chars (clean word_char) (String c w) = true ->
  re_split word_char (String c w ++ s) piece in_run
  = re_split word_char s (piece ++ String c w) false.
Proof.
  intros Hw. cbn in Hw. apply andb_true_iff in Hw as [Hc Hw].
  unfold clean in Hc. apply negb_true_iff in Hc.
  cbn [append re_split]. rewrite Hc, re_split_word by exact Hw.
  now rewrite append_assoc.
Qed.

Lemma re_split_run (sep : string) :
  forall s piece,
    all_chars (separator word_char) sep = true ->
    re_split word_char (sep ++ s) piece true = re_split word_char s piece true.
Proof.
  induction sep as [|c sep IH]; intros s piece Hsep; [reflexivity|].
  cbn in Hsep. apply andb_true_iff in Hsep as [Hc Hsep].
  cbn [append re_split]. rewrite Hc. now apply IH.
Qed.

Lemma re_split_separator (sep s piece : string) :
  sep <> ""%string ->
  all_chars (separator word_char) sep = true ->
  re_split word_char (sep ++ s) piece false
  = piece :: re_split word_char s "" true.
Proof.
  intros Hne Hsep. destruct sep as [|c sep]; [contradiction|].
  cbn in Hsep. apply andb_true_iff in Hsep as [Hc Hsep].
  cbn [append re_split]. rewrite Hc. f_equal. now apply re_split_run.
Qed.

Lemma re_split_concat (sep : string) (names : list string) :
  sep <> ""%string ->
  all_chars (separator word_char) sep = true ->
  forall name in_run,
    Forall (fun n => n <> ""%string /\ all_chars (clean word_char) n = true)
           (name :: names) ->
    re_split word_char (String.concat sep (name :: names)) "" in_run
    = name :: names.
Proof.
  intros Hne Hsep.
  induction names as [|name2 names IH]; intros name in_run Hall;
    inversion Hall as [|n ns [Hn Hw] Hrest]; subst;
    (destruct name as [|c name]; [contradiction|]).
  - cbn [String.concat].
    rewrite <- (append_nil_r (String c name)) at 1.
    now rewrite re_split_word_start by exact Hw.
  - change (String.concat sep (String c name :: name2 :: names))
      with (String c name ++ sep ++ String.concat sep (name2 :: names))%string.
    rewrite re_split_word_start by exact Hw.
    rewrite re_split_separator by assumption.
    cbn [append]. f_equal. now apply IH.
Qed.

(** X17. When the configured text is a list of non-empty names, free of the
    characters the split is made on, joined by a non-empty run of such
    characters, the storage classes are [STANDARD] and then the names other
    than [STANDARD], in their order and as often as they are written. *)
Theorem configured_storage_classes_of_joined_names (sep : string)
    (names : list string) :
  sep <> ""%string ->
  all_chars (separator word_char) sep = true ->
  Forall (fun n => n <> ""%string
                   /\ all_chars (fun c => negb (separator word_char c)) n
                      = true)
         names ->
  configured_storage_classes word_char (String.concat sep names)
  = "STANDARD"%string
    :: filter (fun n => negb (String.eqb n "STANDARD")) names.
Proof.
  intros Hne Hsep Hall. rewrite configured_storage_classes_eq. f_equal.
  destruct names as [|name names]; [reflexivity|].
  rewrite (re_split_concat sep names Hne Hsep name false Hall).
  induction Hall as [|n ns [Hn _] _ IH]; [reflexivity|].
  cbn [filter]. destruct (negb (String.eqb n "STANDARD")); [|exact IH].
  cbn [filter]. destruct (String.eqb n "") eqn:He.
  - apply String.eqb_eq in He. contradiction.
  - cbn. now rewrite IH.
Qed.

End StorageClasses.

Lemma configured_storage_classes_default_witness :
  Fixtures.configured_storage_classes Text.ascii_word_char " , "
  = ["STANDARD"%string].
Proof.
  apply (configured_storage_classes_default Text.ascii_word_char " , ").
  reflexivity.
Defined.

Lemma configured_storage_classes_of_joined_names_witness :
  Fixtures.configured_storage_classes Text.ascii_word_char
    (String.concat ", " ["GLACIER"; "STANDARD"; "COLD_1"; "GLACIER"])%string
  = ["STANDARD"; "GLACIER"; "COLD_1"; "GLACIER"]%string.
Proof.
  apply (configured_storage_classes_of_joined_names Text.ascii_word_char
           ", " ["GLACIER"; "STANDARD"; "COLD_1"; "GLACIER"]%string).
  - discriminate.
  - reflexivity.
  - repeat constructor; discriminate.
Defined.

(** ** Bucket names *)

Section Names.
Import Fixtures FixturesTrace.

Lemma str_int_inj (n m : nat) : str_int n = str_int m -> n = m.
Proof.
  unfold str_int. intros H.
  apply DecimalNat.Unsigned.to_uint_inj.
  apply (f_equal DecimalString.NilEmpty.uint_of_string) in H.
  rewrite !DecimalString.NilEmpty.usu in H. now inversion H.
Qed.

Lemma append_inj_l (p a b : string) :
  (p ++ a)%string = (p ++ b)%string -> a = b.
Proof.
  induction p as [|c p IH]; cbn; intros H; [exact H|].
  inversion H. now apply IH.
Qed.

Lemma bucket_name_inj (prefix : option string) (n m : nat) :
  (str_prefix prefix ++ str_int n)%string
  = (str_prefix prefix ++ str_int m)%string ->
  n = m.
Proof. intros H. now apply str_int_inj, (append_inj_l (str_prefix prefix)). Qed.

Lemma new_bucket_names_run {W} (k : nat) (prefix : option string) :
  forall (counter : nat) (s : W),
    new_bucket_names k prefix {| bucket_counter := counter; service := s |} =
    ({| bucket_counter := counter + k; service := s |},
     map (fun n => EAttach (str_prefix prefix ++ str_int n) "Bucket name")
         (seq counter k),
     Ret (map (fun n => (str_prefix prefix ++ str_int n)%string)
              (seq counter k))).
Proof.
  induction k as [|k IH]; intros counter s.
  - cbn. now rewrite Nat.add_0_r.
  - cbn [new_bucket_names seq map]. unfold bind at 1.
    unfold get_new_bucket_name at 1. cbn [bucket_counter service].
    unfold bind at 1. rewrite IH. cbn.
    now rewrite app_nil_r, Nat.add_succ_r.
Qed.

(** X18. However many names are asked of [get_new_bucket_name], one after
    the other, no name is returned twice. *)
Theorem new_bucket_names_are_distinct {W} (k : nat) (prefix : option string)
    (w : process W) :
  exists names,
    result_of (new_bucket_names k prefix w) = Ret names
    /\ length names = k
    /\ NoDup names.
Proof.
  destruct w as [counter s]. rewrite new_bucket_names_run.
  eexists. split; [reflexivity|]. split.
  - now rewrite length_map, length_seq.
  - apply Finite.Injective_map_NoDup; [|apply seq_NoDup].
    intros n m. apply bucket_name_inj.
Qed.

(** X19. Once [setup] has assigned the global [prefix], a bucket named by
    [get_new_bucket_name] is one that [get_buckets_list] selects for that
    prefix, whenever the service lists it: the cleanup of a run covers the
    buckets the run names. *)
Theorem new_bucket_name_is_selected {W V} (client : Reclaim.Client V)
    (prefix : string) (w : process W) (name : string)
    (v v' : V) (names : list string) :
  result_of (get_new_bucket_name (Some prefix) w) = Ret name ->
  Reclaim.list_buckets client v = (v', inr names) ->
  In name names ->
  exists selected,
    result_of (Reclaim.get_buckets_list client prefix v) = Ret selected
    /\ In name selected.
Proof.
  intros Hname Hlist Hin.
  unfold Reclaim.get_buckets_list, bind, api, ret, result_of. rewrite Hlist.
  cbn. eexists. split; [reflexivity|].
  apply filter_In. split; [exact Hin|].
  unfold get_new_bucket_name, result_of in Hname. cbn in Hname.
  inversion Hname. apply contains_spec.
  exists ""%string, (str_int (bucket_counter w)). reflexivity.
Qed.

(** X20. Two calls of [get_new_bucket] without a name never ask for the
    creation of the same bucket, also when the first creation fails: each
    asks for one bucket, and the two names differ. *)
Theorem get_new_bucket_never_reuses_a_name {W}
    (create_bucket : string -> W -> W * (exn + unit))
    (prefix : option string) (w : process W) :
  exists first second,
    created (trace_of (get_new_bucket create_bucket prefix None w)) = [first]
    /\ created
         (trace_of (get_new_bucket create_bucket prefix None
                      (world_of (get_new_bucket create_bucket prefix None w))))
       = [second]
    /\ first <> second.
Proof.
  destruct w as [counter s].
  unfold get_new_bucket, bind, get_new_bucket_name, call_create_bucket, ret,
    world_of, trace_of.
  cbn [bucket_counter service].
  destruct (create_bucket (str_prefix prefix ++ str_int counter)%string s)
    as [s1 [e|[]]]; cbn [fst snd bucket_counter service];
    destruct (create_bucket (str_prefix prefix ++ str_int (S counter))%string
                            s1) as [s2 [e2|[]]];
    cbn [fst snd];
    (do 2 eexists; split; [reflexivity|]; split; [reflexivity|];
     intros H; apply bucket_name_inj in H; lia).
Qed.

End Names.

Lemma new_bucket_name_is_selected_witness :
  exists selected,
    result_of (Reclaim.get_buckets_list Script.client "run7-"
                 Script.three_buckets) = Ret selected
    /\ In "run7-1"%string selected.
Proof.
  apply (new_bucket_name_is_selected Script.client "run7-"%string
           {| Fixtures.bucket_counter := 1; Fixtures.service := tt |}
           "run7-1" Script.three_buckets Script.three_buckets
           (Script.bucket_names Script.three_buckets) eq_refl eq_refl).
  left. reflexivity.
Defined.

(** ** The end of a test *)

Section TeardownFacts.
Import Teardown.
Context {W : Type}.
Context (main alt tenant : Reclaim.Client W).
Context (get_iam_client : W -> W * (exn + IamClient W)).

(** X21. When the reclamation of the buckets of the main identity raises,
    [teardown] raises the same and stops there: it makes no call to the
    service for the other two identities and none to IAM. *)
Theorem teardown_stops_at_first_identity_failure (fuel : nat)
    (prefix : string) (w w1 : W) (t1 : list Reclaim.event) (e : exn) :
  Reclaim.nuke_prefixed_buckets main fuel prefix w = (w1, t1, Raise e) ->
  teardown main alt tenant get_iam_client fuel prefix w
  = (w1, map (EReclaim Main) t1, Raise e)
  /\ Forall (fun ev => is_reclaim_of Main ev = true)
            (trace_of (teardown main alt tenant get_iam_client fuel prefix w)).
Proof.
  intros Hmain.
  assert (Hrun : teardown main alt tenant get_iam_client fuel prefix w
                 = (w1, map (EReclaim Main) t1, Raise e)).
  { unfold teardown. unfold bind at 1. unfold relabel at 1.
    now rewrite Hmain. }
  split; [exact Hrun|]. rewrite Hrun. unfold trace_of. cbn [fst snd].
  apply Forall_forall. intros ev Hin.
  apply in_map_iff in Hin as (ev0 & <- & _). reflexivity.
Qed.

Lemma api_ends {Ev A} (op : W -> W * (exn + A)) (ev : exn + A -> Ev)
    (w : W) :
  result_of (api op ev w) <> Diverge.
Proof.
  unfold api, result_of. destruct (op w) as [w1 [e|a]]; discriminate.
Qed.

Lemma bind_ends {Ev A B} (m : M W Ev A) (f : A -> M W Ev B) (w : W) :
  result_of (m w) <> Diverge ->
  (forall a w', result_of (f a w') <> Diverge) ->
  result_of (bind m f w) <> Diverge.
Proof.
  intros Hm Hf. unfold bind, result_of in *.
  destruct (m w) as [[w1 t1] [a| |]]; cbn in *;
    [|discriminate|contradiction].
  specialize (Hf a w1). now destruct (f a w1) as [[w2 t2] r2].
Qed.

Lemma for_in_ends {Ev A B} (body : B -> A -> M W Ev A) (xs : list B) :
  (forall x acc w, result_of (body x acc w) <> Diverge) ->
  forall acc w, result_of (for_in xs body acc w) <> Diverge.
Proof.
  intros Hbody. induction xs as [|x xs IH]; intros acc w; [discriminate|].
  cbn [for_in]. apply bind_ends; [apply Hbody | intros; apply IH].
Qed.

(** The IAM part of [teardown] makes finitely many calls. *)
Lemma iam_cleanup_ends (w : W) :
  result_of (iam_cleanup get_iam_client w) <> Diverge.
Proof.
  unfold iam_cleanup. apply bind_ends.
  - unfold call_get_iam_client, result_of.
    destruct (get_iam_client w) as [w1 [e|c]]; discriminate.
  - intros iam_client w1. apply bind_ends; [apply api_ends|].
    intros roles w2. apply bind_ends.
    + apply for_in_ends. intros role [] w3. unfold delete_role_and_policies.
      apply bind_ends; [apply api_ends|]. intros policies w4.
      apply bind_ends; [|intros; apply api_ends].
      apply for_in_ends. intros policy [] w5. apply api_ends.
    + intros [] w3. apply bind_ends; [apply api_ends|].
      intros providers w4. apply for_in_ends. intros arn [] w5.
      apply api_ends.
Qed.

(** X22. When the reclamations for the three identities return, [teardown]
    returns normally whatever happens to the IAM part: after the three
    reclamations, in the order main, alt, tenant, come the IAM calls up to
    the first that fails, and no failure of theirs goes through. *)
Theorem teardown_swallows_iam_failures (fuel : nat) (prefix : string)
    (w w1 w2 w3 : W) (t1 t2 t3 : list Reclaim.event) :
  Reclaim.nuke_prefixed_buckets main fuel prefix w = (w1, t1, Ret tt) ->
  Reclaim.nuke_prefixed_buckets alt fuel prefix w1 = (w2, t2, Ret tt) ->
  Reclaim.nuke_prefixed_buckets tenant fuel prefix w2 = (w3, t3, Ret tt) ->
  teardown main alt tenant get_iam_client fuel prefix w
  = (world_of (iam_cleanup get_iam_client w3),
     map (EReclaim Main) t1 ++ map (EReclaim Alt) t2
     ++ map (EReclaim Tenant) t3
     ++ trace_of (iam_cleanup get_iam_client w3),
     Ret tt).
Proof.
  intros Hmain Halt Htenant. unfold teardown.
  unfold bind at 1. unfold relabel at 1. rewrite Hmain.
  unfold bind at 1. unfold relabel at 1. rewrite Halt.
  unfold bind at 1. unfold relabel at 1. rewrite Htenant.
  unfold try_except.
  pose proof (iam_cleanup_ends w3) as Hends.
  destruct (iam_cleanup get_iam_client w3) as [[w4 t4] [[]|e|]];
    unfold world_of, trace_of, result_of in *; cbn [fst snd] in *.
  - reflexivity.
  - cbn. now rewrite app_nil_r.
  - contradiction.
Qed.

End TeardownFacts.

Lemma teardown_stops_at_first_identity_failure_witness :
  result_of (Teardown.teardown Script.client Script.client Script.client
               Script3.get_iam_client 3 "run7" Script.three_buckets)
  = Raise (ClientError "AccessDenied")
  /\ Forall (fun ev => Teardown.is_reclaim_of Teardown.Main ev = true)
            (trace_of (Teardown.teardown Script.client Script.client
                         Script.client Script3.get_iam_client 3 "run7"
                         Script.three_buckets)).
Proof.
  destruct (teardown_stops_at_first_identity_failure
              Script.client Script.client Script.client
              Script3.get_iam_client 3 "run7" Script.three_buckets
              (world_of (Reclaim.nuke_prefixed_buckets Script.client 3 "run7"
                           Script.three_buckets))
              (trace_of (Reclaim.nuke_prefixed_buckets Script.client 3 "run7"
                           Script.three_buckets))
              (ClientError "AccessDenied") eq_refl)
    as [Hrun Hall].
  split; [now rewrite Hrun | exact Hall].
Defined.

Lemma teardown_swallows_iam_failures_witness :
  Teardown.teardown Script.client Script.client Script.client
    Script3.get_iam_client 3 "run7" Script3.no_bucket
  = (Script3.no_bucket,
     [Teardown.EReclaim Teardown.Main (Reclaim.EListBuckets (inr []));
      Teardown.EReclaim Teardown.Alt (Reclaim.EListBuckets (inr []));
      Teardown.EReclaim Teardown.Tenant (Reclaim.EListBuckets (inr []));
      Teardown.EGetIamClient None;
      Teardown.EListRoles (inl (ClientError "AccessDenied"))],
     Ret tt).
Proof.
  exact (teardown_swallows_iam_failures Script.client Script.client
           Script.client Script3.get_iam_client 3 "run7"
           Script3.no_bucket Script3.no_bucket Script3.no_bucket
           Script3.no_bucket
           [Reclaim.EListBuckets (inr [])] [Reclaim.EListBuckets (inr [])]
           [Reclaim.EListBuckets (inr [])] eq_refl eq_refl eq_refl).
Defined.

(** ** Steps of the instrumented client *)

Section Steps.
Import Proxy ProxyTrace.
Context {W Value : Type}.
Context (str_call : list Value -> list (string * Value) -> string).
Context (str_value : Value -> string).

(** Calling an attribute ends, and the steps it opens are closed in its own
    trace. *)
Lemma call_bracketed (a : attr W Value) :
  forall args kwargs w,
    result_of (call str_call str_value a args kwargs w) <> Diverge
    /\ forall rest depth,
         bracketed (trace_of (call str_call str_value a args kwargs w)
                    ++ rest) depth
         = bracketed rest depth.
Proof.
  induction a as [name impl|v|keys|original IH]; intros args kwargs w.
  - cbn [call]. unfold api, result_of, trace_of.
    destruct (impl args kwargs w) as [w1 [e|v]]; split;
      try discriminate; reflexivity.
  - split; [discriminate | reflexivity].
  - split; [discriminate | reflexivity].
  - cbn [call]. destruct (dunder_name original) as [name|];
      [|split; [discriminate | reflexivity]].
    destruct (IH args kwargs w) as [Hends Hinner].
    unfold bind at 1. cbn [ret].
    unfold with_step, bind, emit, ret in *.
    destruct (call str_call str_value original args kwargs w)
      as [[w1 t1] [v|e|]];
      unfold result_of, trace_of in *; cbn [fst snd] in *;
      [| |contradiction].
    + split; [discriminate|]. intros rest depth. cbn [app bracketed].
      rewrite <- !app_assoc. rewrite Hinner. reflexivity.
    + split; [discriminate|]. intros rest depth. cbn [app bracketed].
      rewrite <- !app_assoc. rewrite Hinner. reflexivity.
Qed.

(** X23. Whatever is called through the proxy, a wrapper or a wrapper of a
    wrapper, and whether the call returns or raises, the steps reported to
    allure are well nested: each step that was opened is closed, in the
    reverse order. *)
Theorem instrumented_call_closes_its_steps (a : attr W Value)
    (args : list Value) (kwargs : list (string * Value)) (w : W) :
  bracketed (trace_of (call str_call str_value a args kwargs w)) 0 = true.
Proof.
  destruct (call_bracketed a args kwargs w) as [_ H].
  specialize (H [] 0%nat). now rewrite app_nil_r in H.
Qed.

(** X24. On a client that has no table of operation names, or whose
    [_PY_TO_OP_NAME] is no dict, the proxy answers no attribute at all: for
    an attribute the client has, [__getattr__] raises [AttributeError] for
    the table. *)
Theorem wrapped_client_needs_operation_table (c : Client W Value)
    (item : string) (a : attr W Value) (w : W) :
  attributes c item = Some a ->
  (attributes c "_PY_TO_OP_NAME" = None ->
   __getattr__ {| client := c |} item w
   = (w, [], Raise (AttributeError "_PY_TO_OP_NAME")))
  /\ (forall table,
        attributes c "_PY_TO_OP_NAME" = Some table ->
        (forall keys, table <> Dict keys) ->
        __getattr__ {| client := c |} item w
        = (w, [], Raise (AttributeError "keys"))).
Proof.
  intros Hitem. split.
  - intros Hnone. unfold __getattr__, getattr, bind. cbn [client].
    now rewrite Hitem, Hnone.
  - intros table Htable Hnodict. unfold __getattr__, getattr, bind.
    cbn [client]. rewrite Hitem, Htable. cbn.
    destruct table as [n f|v|keys|o]; try reflexivity.
    now contradiction (Hnodict keys).
Qed.

End Steps.

Lemma wrapped_client_needs_operation_table_witness :
  Proxy.__getattr__ {| Proxy.client := ProxyTrace.bare |} "list_buckets"
    0%nat
  = (0%nat, [], Raise (AttributeError "_PY_TO_OP_NAME")).
Proof.
  exact (proj1 (wrapped_client_needs_operation_table ProxyTrace.bare
                  "list_buckets"
                  (Proxy.Method "list_buckets" ScriptProxy.list_buckets_impl)
                  0%nat eq_refl) eq_refl).
Defined.
